(** * WordPress-to-OpenAPI generator: a shallow embedding of
      [generate_openapi.py] and the properties of its route translation.

    The core of the program is [generate_openapi_spec] together with
    [process_arg_details].  They are embedded twice: as functions over JSON
    values, with Python's exceptions made explicit, for what the generated
    document contains; and as computations over an object store, with
    lists and dictionaries as shared objects, for what a call writes.  The
    last part shows that the two embeddings compute the same document and
    raise the same exceptions. *)

From Stdlib Require Import ZArith String Ascii List Bool Lia.
From stdpp Require Import base list.
Import ListNotations.

Open Scope string_scope.

(* ===================================================================== *)
(** ** Strings *)
(* ===================================================================== *)

(** A Python [str] is modelled by the [string] of its UTF-8 encoding: a
    character is a lead byte with the continuation bytes that follow it,
    and an ASCII character is one byte.  Comparison, concatenation,
    [startswith], [replace] and the patterns of the source act on the
    encoding as they act on the characters.  [chars] goes by characters.
    The case conversions [lower] and [upper] change the ASCII letters and
    nothing else: they are [str.lower] and [str.upper] on strings of ASCII
    characters, which [is_ascii] recognises; on other strings Python's
    conversions also change letters outside ASCII. *)

Module Str.

(** A string of ASCII characters. *)
Definition is_ascii (s : string) : bool :=
  forallb (fun c => (nat_of_ascii c <? 128)%nat) (list_ascii_of_string s).

(** A byte that continues a character of several bytes. *)
Definition is_continuation (c : ascii) : bool :=
  (128 <=? nat_of_ascii c)%nat && (nat_of_ascii c <? 192)%nat.

(** [s] starts inside a character. *)
Definition continues (s : string) : bool :=
  match s with
  | String c _ => is_continuation c
  | EmptyString => false
  end.

Definition is_upper (c : ascii) : bool :=
  (65 <=? nat_of_ascii c)%nat && (nat_of_ascii c <=? 90)%nat.

Definition is_lower (c : ascii) : bool :=
  (97 <=? nat_of_ascii c)%nat && (nat_of_ascii c <=? 122)%nat.

Definition lower_char (c : ascii) : ascii :=
  if is_upper c then ascii_of_nat (nat_of_ascii c + 32) else c.

Definition upper_char (c : ascii) : ascii :=
  if is_lower c then ascii_of_nat (nat_of_ascii c - 32) else c.

(** [s.lower()] and [s.upper()] *)
Fixpoint lower (s : string) : string :=
  match s with
  | EmptyString => EmptyString
  | String c s' => String (lower_char c) (lower s')
  end.

Fixpoint upper (s : string) : string :=
  match s with
  | EmptyString => EmptyString
  | String c s' => String (upper_char c) (upper s')
  end.

(** [s.startswith(p)] *)
Definition startswith (s p : string) : bool := String.prefix p s.

(** [s] without its literal prefix [p], when it has it. *)
Fixpoint strip_prefix (p s : string) : option string :=
  match p, s with
  | EmptyString, _ => Some s
  | String a p', String b s' =>
      if Ascii.eqb a b then strip_prefix p' s' else None
  | String _ _, EmptyString => None
  end.

(** The longest prefix of [s] free of the character [stop], and what
    follows it: the greedy run of a negated one-character class. *)
Fixpoint span_not (stop : ascii) (s : string) : string * string :=
  match s with
  | EmptyString => (EmptyString, EmptyString)
  | String c s' =>
      if Ascii.eqb c stop then (EmptyString, s)
      else let (run, rest) := span_not stop s' in (String c run, rest)
  end.

(** The one-character strings a loop over [s] runs through: a byte is a
    character before those of what follows it, or the start of the first
    of them when what follows it starts inside a character. *)
Fixpoint chars (s : string) : list string :=
  match s with
  | EmptyString => []
  | String c s' =>
      match chars s' with
      | first :: rest =>
          if continues s' then String c first :: rest
          else String c EmptyString :: first :: rest
      | [] => [String c EmptyString]
      end
  end.

(** [x in xs] for a list of strings. *)
Definition mem (x : string) (xs : list string) : bool :=
  existsb (String.eqb x) xs.

End Str.

(* ===================================================================== *)
(** ** Left-to-right scanning: [str.replace], [re.sub], [re.findall] *)
(* ===================================================================== *)

(** The three library calls of the source share one loop: walk the subject
    from the left; where the pattern matches, take the match and go on
    behind it; elsewhere keep the character and move one position.  None of
    the patterns involved matches the empty string.

    [match_here s] tries the pattern at the head of [s] and gives what was
    captured together with the length of the match.  [skip] counts the
    characters of the current match that are still to be passed over. *)

Module Scan.
Section Scan.

Context {A : Type}.
Variable match_here : string -> option (A * nat).

Inductive piece :=
| Hit (a : A)
| Lit (c : ascii).

Fixpoint pieces (skip : nat) (s : string) : list piece :=
  match s with
  | EmptyString => []
  | String c s' =>
      match skip with
      | S k => pieces k s'
      | O =>
          match match_here s with
          | Some (a, n) => Hit a :: pieces (Nat.pred n) s'
          | None => Lit c :: pieces 0 s'
          end
      end
  end.

(** Every match replaced by [repl] of its capture. *)
Fixpoint glue (repl : A -> string) (ps : list piece) : string :=
  match ps with
  | [] => EmptyString
  | Hit a :: ps' => repl a ++ glue repl ps'
  | Lit c :: ps' => String c (glue repl ps')
  end.

(** The captures alone, in order of occurrence. *)
Fixpoint hits (ps : list piece) : list A :=
  match ps with
  | [] => []
  | Hit a :: ps' => a :: hits ps'
  | Lit _ :: ps' => hits ps'
  end.

Definition substitute (repl : A -> string) (s : string) : string :=
  glue repl (pieces 0 s).

Definition findall (s : string) : list A := hits (pieces 0 s).

End Scan.
End Scan.

Arguments Scan.Hit {A} a.
Arguments Scan.Lit {A} c.

(** [s.replace(old, new)] for a non-empty [old] (the source passes the
    constant ['/wp/v2']). *)
Definition str_replace (old new s : string) : string :=
  Scan.substitute
    (fun s => if String.prefix old s then Some (tt, String.length old) else None)
    (fun _ => new) s.

(* ===================================================================== *)
(** ** The three regular expressions of the source *)
(* ===================================================================== *)

Module Re.

(** The common head [\(\?P<([^>]+)>]: the literal [(?P<], a non-empty run
    of characters other than [>], then [>].  The run is greedy and no
    shorter run can be followed by [>], so the match is unique.  Gives
    the captured name and the text behind the [>]. *)
Definition named_group_head (s : string) : option (string * string) :=
  match Str.strip_prefix "(?P<" s with
  | Some s1 =>
      match Str.span_not ">" s1 with
      | (EmptyString, _) => None
      | (name, String _ s2) => Some (name, s2)
      | (_, EmptyString) => None
      end
  | None => None
  end.

Definition consumed (s rest : string) : nat :=
  String.length s - String.length rest.

(** [r'\(\?P<([^>]+)>\[\\d\]\+\)']: the head followed by the literal
    text [[\d]+)]. *)
Definition numeric_group (s : string) : option (string * nat) :=
  match named_group_head s with
  | Some (name, s2) =>
      match Str.strip_prefix "[\d]+)" s2 with
      | Some rest => Some (name, consumed s rest)
      | None => None
      end
  | None => None
  end.

(** [r'\(\?P<([^>]+)>[^)]+\)']: the head, a non-empty run of characters
    other than [)], then [)]. *)
Definition generic_group (s : string) : option (string * nat) :=
  match named_group_head s with
  | Some (name, s2) =>
      match Str.span_not ")" s2 with
      | (EmptyString, _) => None
      | (_, String _ rest) => Some (name, consumed s rest)
      | (_, EmptyString) => None
      end
  | None => None
  end.

(** [r'{([^}]+)}']: an opening brace (a literal, as no repetition count
    follows it), a non-empty run of characters other than [}], then
    [}]. *)
Definition brace_param (s : string) : option (string * nat) :=
  match s with
  | String "{" s1 =>
      match Str.span_not "}" s1 with
      | (EmptyString, _) => None
      | (name, String _ rest) => Some (name, consumed s rest)
      | (_, EmptyString) => None
      end
  | _ => None
  end.

(** The replacement template [r'/{{\1}}']: in a [re.sub] template the
    braces stand for themselves, two on each side. *)
Definition brace_template (name : string) : string :=
  "/{{" ++ name ++ "}}".

End Re.

(** Lines 85-92 of [generate_openapi_spec]: the route pattern rewritten
    into the key used in [paths]. *)
Definition translate_path (route : string) : string :=
  let path := str_replace "/wp/v2" "" route in
  let path := Scan.substitute Re.numeric_group Re.brace_template path in
  let path := Scan.substitute Re.generic_group Re.brace_template path in
  if negb (Str.startswith path "/") then "/" ++ path else path.

(** Line 103: [re.findall(r'{([^}]+)}', path)]. *)
Definition path_params_of (path : string) : list string :=
  Scan.findall Re.brace_param path.

(* ===================================================================== *)
(** ** JSON values and Python dictionaries *)
(* ===================================================================== *)

(** The routes document is what [response.json()] returns: [None],
    booleans, numbers, strings, lists, and dictionaries with string keys.
    No operation of the program looks inside a number, so one integer
    payload stands for all of them.  A dictionary keeps its keys in
    insertion order; the operations on such key-value lists are in [Dict],
    for any type of values. *)
#[warnings="-register-all"]
Inductive json :=
| JNull
| JBool (b : bool)
| JNum (n : Z)
| JStr (s : string)
| JList (l : list json)
| JDict (d : list (string * json)).

Definition dict := list (string * json).

Module Dict.
Section Dict.

Context {V : Type}.

(** [d.get(k)] *)
Fixpoint get (k : string) (d : list (string * V)) : option V :=
  match d with
  | [] => None
  | (k', v) :: d' => if String.eqb k k' then Some v else get k d'
  end.

(** [d.get(k, default)] *)
Definition get_default (k : string) (default : V) (d : list (string * V)) : V :=
  match get k d with
  | Some v => v
  | None => default
  end.

(** [k in d] *)
Definition has (k : string) (d : list (string * V)) : bool :=
  match get k d with
  | Some _ => true
  | None => false
  end.

(** [d[k] = v]: a key already present keeps its position and takes the
    new value, a new key goes to the end. *)
Fixpoint set (k : string) (v : V) (d : list (string * V)) : list (string * V) :=
  match d with
  | [] => [(k, v)]
  | (k', v') :: d' =>
      if String.eqb k k' then (k', v) :: d' else (k', v') :: set k v d'
  end.

(** [d.update(u)] *)
Definition update (u d : list (string * V)) : list (string * V) :=
  fold_left (fun acc kv => set (fst kv) (snd kv) acc) u d.

Definition keys (d : list (string * V)) : list string := map fst d.

(** Truth value of a dictionary: it is non-empty. *)
Definition truthy (d : list (string * V)) : bool :=
  match d with
  | [] => false
  | _ :: _ => true
  end.

End Dict.
End Dict.

(* ===================================================================== *)
(** ** Exceptions *)
(* ===================================================================== *)

Inductive exn :=
| TypeError
| AttributeError
| KeyError.

Inductive result (A : Type) :=
| Ok (a : A)
| Raise (e : exn).

Arguments Ok {A} a.
Arguments Raise {A} e.

Definition bind {A B : Type} (m : result A) (k : A -> result B) : result B :=
  match m with
  | Ok a => k a
  | Raise e => Raise e
  end.

Notation "'let*' x ':=' m 'in' k" := (bind m (fun x => k))
  (at level 10, x name, m at level 100, k at level 200).

(** What a [for] loop sees of a JSON value: the elements of a list, the
    keys of a dictionary, the characters of a string; anything else is not
    iterable. *)

Definition py_iter (v : json) : result (list json) :=
  match v with
  | JList l => Ok l
  | JDict d => Ok (map JStr (Dict.keys d))
  | JStr s => Ok (map JStr (Str.chars s))
  | JNull | JBool _ | JNum _ => Raise TypeError
  end.

(** [m.lower()] on an arbitrary value: only a string has a [lower]. *)
Definition py_lower (m : json) : result string :=
  match m with
  | JStr s => Ok (Str.lower s)
  | _ => Raise AttributeError
  end.

(* ===================================================================== *)
(** ** [process_arg_details] *)
(* ===================================================================== *)

Definition default_param (arg_name : string) : dict :=
  [ ("name", JStr arg_name);
    ("in", JStr "query");
    ("required", JBool false);
    ("schema", JDict [("type", JStr "string")]);
    ("description", JStr "") ].

Definition process_arg_details (arg_name : string) (arg_details : json) : json :=
  let param := default_param arg_name in
  match arg_details with
  | JDict arg_details =>
      let param_type := Dict.get_default "type" (JStr "string") arg_details in
      let param_type :=
        match param_type with
        | JList [] => JStr "string"
        | JList (first :: _) => first
        | _ => param_type
        end in
      let schema := [("type", param_type)] in
      let schema :=
        match Dict.get "enum" arg_details with
        | Some enum => Dict.set "enum" enum schema
        | None => schema
        end in
      let description := Dict.get_default "description" (JStr "") arg_details in
      JDict (Dict.update
               [ ("required", Dict.get_default "required" (JBool false) arg_details);
                 ("schema", JDict schema);
                 ("description", description) ]
               param)
  | _ => JDict param
  end.

(* ===================================================================== *)
(** ** [generate_openapi_spec] *)
(* ===================================================================== *)

(** Lines 104-113: one parameter object per extracted name. *)
Definition path_param (param_name : string) : json :=
  JDict [ ("name", JStr param_name);
          ("in", JStr "path");
          ("required", JBool true);
          ("schema", JDict [("type", JStr "string")]);
          ("description", JStr ("Path parameter: " ++ param_name)) ].

Fixpoint path_params_loop (path_params : list string) (parameters : list json)
  : list json :=
  match path_params with
  | [] => parameters
  | param_name :: rest =>
      path_params_loop rest (parameters ++ [path_param param_name])
  end.

(** Lines 118-122: the declared arguments, in mapping order. *)
Fixpoint args_loop (path_params : list string) (items : dict)
    (parameters : list json) : list json :=
  match items with
  | [] => parameters
  | (arg_name, arg_details) :: rest =>
      if negb (Str.mem arg_name path_params)
      then args_loop path_params rest
             (parameters ++ [process_arg_details arg_name arg_details])
      else args_loop path_params rest parameters
  end.

(** Lines 100-122: the parameter list of one operation. *)
Definition build_parameters (path : string) (endpoint : dict) : list json :=
  let parameters := [] in
  let path_params := path_params_of path in
  let parameters := path_params_loop path_params parameters in
  let args := Dict.get_default "args" (JDict []) endpoint in
  match args with
  | JDict args => args_loop path_params args parameters
  | _ => parameters
  end.

Definition responses : json :=
  JDict [ ("200", JDict [("description", JStr "Successful response")]);
          ("400", JDict [("description", JStr "Bad request")]);
          ("401", JDict [("description", JStr "Unauthorized")]);
          ("404", JDict [("description", JStr "Resource not found")]) ].

(** Lines 124-142: the operation stored under [method]. *)
Definition build_operation (path : string) (details : dict) (method : string)
    (parameters : list json) : json :=
  JDict [ ("summary", JStr (Str.upper method ++ " " ++ path));
          ("description", Dict.get_default "description" (JStr "") details);
          ("parameters", JList parameters);
          ("responses", responses) ].

(** Lines 98-142: the loop over the methods of one endpoint. *)
Fixpoint methods_loop (path : string) (details endpoint : dict)
    (methods : list json) (path_item : dict) : result dict :=
  match methods with
  | [] => Ok path_item
  | method :: rest =>
      let* method := py_lower method in
      let parameters := build_parameters path endpoint in
      let path_item :=
        Dict.set method (build_operation path details method parameters) path_item in
      methods_loop path details endpoint rest path_item
  end.

(** Lines 97-142: the loop over the endpoints of one route.  An entry
    that is not a dictionary has no [get]. *)
Fixpoint endpoints_loop (path : string) (details : dict)
    (endpoints : list json) (path_item : dict) : result dict :=
  match endpoints with
  | [] => Ok path_item
  | endpoint :: rest =>
      match endpoint with
      | JDict endpoint =>
          let* methods := py_iter (Dict.get_default "methods" (JList []) endpoint) in
          let* path_item := methods_loop path details endpoint methods path_item in
          endpoints_loop path details rest path_item
      | _ => Raise AttributeError
      end
  end.

(** Lines 94-142: the PathItem of one route; [None] when the guard of
    line 96 fails and nothing is built. *)
Definition route_path_item (path : string) (details : json)
  : result (option dict) :=
  let path_item := [] in
  match details with
  | JDict details =>
      if Dict.has "endpoints" details then
        let* endpoints := py_iter (Dict.get_default "endpoints" (JList []) details) in
        let* path_item := endpoints_loop path details endpoints path_item in
        Ok (Some path_item)
      else Ok None
  | _ => Ok None
  end.

(** Lines 83-145: the body of the loop over the routes, on the [paths]
    mapping of the document under construction. *)
Definition route_step (route : string) (details : json) (paths : dict)
  : result dict :=
  let path := translate_path route in
  let* built := route_path_item path details in
  match built with
  | Some path_item =>
      if Dict.truthy path_item then Ok (Dict.set path (JDict path_item) paths)
      else Ok paths
  | None => Ok paths
  end.

Fixpoint routes_loop (items : dict) (paths : dict) : result dict :=
  match items with
  | [] => Ok paths
  | (route, details) :: rest =>
      let* paths := route_step route details paths in
      routes_loop rest paths
  end.

Definition envelope (base_url : string) (paths : dict) : json :=
  JDict [ ("openapi", JStr "3.0.0");
          ("info", JDict [ ("title", JStr "WordPress REST API");
                           ("version", JStr "1.0.0");
                           ("description",
                            JStr "Auto-generated OpenAPI spec for WordPress REST API") ]);
          ("servers", JList [JDict [("url", JStr base_url)]]);
          ("paths", JDict paths) ].

(** [routes.items()] needs a dictionary. *)
Definition generate_openapi_spec (base_url : string) (routes : json)
  : result json :=
  match routes with
  | JDict routes =>
      let* paths := routes_loop routes [] in
      Ok (envelope base_url paths)
  | _ => Raise AttributeError
  end.

(** The [paths] mapping of a generated document. *)
Definition paths_of (doc : json) : dict :=
  match doc with
  | JDict d =>
      match Dict.get "paths" d with
      | Some (JDict paths) => paths
      | _ => []
      end
  | _ => []
  end.


(* ===================================================================== *)
(** ** The program over an object store *)
(* ===================================================================== *)

(** To say what a call writes, lists and dictionaries are objects in a
    store, and a value of such a type is a reference to its object; several
    places may hold the same reference.  [None], booleans, numbers and
    strings cannot be changed and stay plain values.  A computation takes
    the store and gives back the store it leaves, together with its result
    or the exception it raises.  A [for] loop runs over the contents its
    object has when the loop starts; the program writes to no object while
    a loop runs over it. *)

(** The functions over JSON values, for where the same names stand for
    the functions over the store. *)
Module Pure.
Abbreviation process_arg_details := process_arg_details.
Abbreviation build_parameters := build_parameters.
Abbreviation build_operation := build_operation.
Abbreviation route_path_item := route_path_item.
Abbreviation generate_openapi_spec := generate_openapi_spec.
Abbreviation bind := bind.
End Pure.

Module Store.

Inductive val :=
| VNone
| VBool (b : bool)
| VNum (n : Z)
| VStr (s : string)
| VRef (a : nat).

Inductive obj :=
| OList (items : list val)
| ODict (items : list (string * val)).

Abbreviation store := (list obj).

Definition M (A : Type) : Type := store -> store * result A.

Definition ret {A : Type} (a : A) : M A := fun h => (h, Ok a).

Definition raise {A : Type} (e : exn) : M A := fun h => (h, Raise e).

Definition bind {A B : Type} (m : M A) (k : A -> M B) : M B :=
  fun h =>
    match m h with
    | (h', Ok a) => k a h'
    | (h', Raise e) => (h', Raise e)
    end.

Declare Scope store_scope.
Delimit Scope store_scope with store.
Bind Scope store_scope with M.

Notation "x <- m ;; k" := (bind m (fun x => k))
  (at level 100, m at next level, right associativity) : store_scope.
Notation "m ;; k" := (bind m (fun _ => k))
  (at level 100, right associativity) : store_scope.

Local Open Scope list_scope.
Local Open Scope store_scope.

(** *** Reading *)

(** The object behind a value; a value that refers to no list or
    dictionary has none. *)
Definition deref (v : val) (h : store) : option obj :=
  match v with
  | VRef a => h !! a
  | _ => None
  end.

(** [isinstance(v, dict)], with the entries at hand when it holds. *)
Definition as_dict (v : val) : M (option (list (string * val))) :=
  fun h =>
    (h, Ok match deref v h with
           | Some (ODict kvs) => Some kvs
           | _ => None
           end).

(** [isinstance(v, list)], with the elements at hand when it holds. *)
Definition as_list (v : val) : M (option (list val)) :=
  fun h =>
    (h, Ok match deref v h with
           | Some (OList l) => Some l
           | _ => None
           end).

(** What a [for] loop over [v] runs through. *)
Definition iter (v : val) : M (list val) :=
  fun h =>
    (h, match v with
        | VStr s => Ok (map VStr (Str.chars s))
        | _ =>
            match deref v h with
            | Some (OList l) => Ok l
            | Some (ODict kvs) => Ok (map VStr (Dict.keys kvs))
            | None => Raise TypeError
            end
        end).

(** [v.items()] *)
Definition items (v : val) : M (list (string * val)) :=
  d <- as_dict v ;;
  match d with
  | Some kvs => ret kvs
  | None => raise AttributeError
  end.

(** [v.get(...)] needs a dictionary. *)
Definition entries (v : val) : M (list (string * val)) := items v.

(** [v.lower()] *)
Definition lower (v : val) : M string :=
  match v with
  | VStr s => ret (Str.lower s)
  | _ => raise AttributeError
  end.

(** [d[k]] *)
Definition getitem (d : val) (k : string) : M val :=
  kvs <- as_dict d ;;
  match kvs with
  | Some kvs =>
      match Dict.get k kvs with
      | Some v => ret v
      | None => raise KeyError
      end
  | None => raise TypeError
  end.

(** The truth value of [v]. *)
Definition truthy (v : val) : M bool :=
  fun h =>
    (h, Ok match v with
           | VNone => false
           | VBool b => b
           | VNum n => negb (Z.eqb n 0)
           | VStr s => negb (String.eqb s "")
           | VRef a =>
               match h !! a with
               | Some (OList l) => match l with [] => false | _ => true end
               | Some (ODict kvs) => Dict.truthy kvs
               | None => true
               end
           end).

(** *** Creating and writing *)

(** A list or dictionary display: a new object behind the others. *)
Definition alloc (o : obj) : M val :=
  fun h => (h ++ [o], Ok (VRef (length h))).

(** [d[k] = v] *)
Definition setitem (d : val) (k : string) (v : val) : M unit :=
  fun h =>
    match d with
    | VRef a =>
        match h !! a with
        | Some (ODict kvs) => (<[a := ODict (Dict.set k v kvs)]> h, Ok tt)
        | _ => (h, Raise TypeError)
        end
    | _ => (h, Raise TypeError)
    end.

(** [l.append(v)] *)
Definition append (l v : val) : M unit :=
  fun h =>
    match l with
    | VRef a =>
        match h !! a with
        | Some (OList vs) => (<[a := OList (vs ++ [v])]> h, Ok tt)
        | _ => (h, Raise AttributeError)
        end
    | _ => (h, Raise AttributeError)
    end.

(** [d.update(u)] *)
Definition update (d u : val) : M unit :=
  fun h =>
    match d with
    | VRef a =>
        match h !! a with
        | Some (ODict kvs) =>
            match deref u h with
            | Some (ODict ukvs) => (<[a := ODict (Dict.update ukvs kvs)]> h, Ok tt)
            | _ => (h, Raise TypeError)
            end
        | _ => (h, Raise AttributeError)
        end
    | _ => (h, Raise AttributeError)
    end.

Fixpoint for_each {X : Type} (xs : list X) (body : X -> M unit) : M unit :=
  match xs with
  | [] => ret tt
  | x :: xs' => body x ;; for_each xs' body
  end.

(** *** [process_arg_details] *)

Definition process_arg_details (arg_name : string) (arg_details : val) : M val :=
  schema <- alloc (ODict [("type", VStr "string")]) ;;
  param <- alloc (ODict [ ("name", VStr arg_name);
                          ("in", VStr "query");
                          ("required", VBool false);
                          ("schema", schema);
                          ("description", VStr "") ]) ;;
  is_dict <- as_dict arg_details ;;
  match is_dict with
  | Some details =>
      let param_type := Dict.get_default "type" (VStr "string") details in
      is_list <- as_list param_type ;;
      let param_type :=
        match is_list with
        | Some [] => VStr "string"
        | Some (first :: _) => first
        | None => param_type
        end in
      schema <- alloc (ODict [("type", param_type)]) ;;
      match Dict.get "enum" details with
      | Some enum => setitem schema "enum" enum
      | None => ret tt
      end ;;
      let description := Dict.get_default "description" (VStr "") details in
      changes <- alloc (ODict [ ("required",
                                 Dict.get_default "required" (VBool false) details);
                                ("schema", schema);
                                ("description", description) ]) ;;
      update param changes ;;
      ret param
  | None => ret param
  end.

(** *** [generate_openapi_spec] *)

(** Lines 105-113 *)
Definition add_path_param (parameters : val) (param_name : string) : M unit :=
  schema <- alloc (ODict [("type", VStr "string")]) ;;
  param <- alloc (ODict [ ("name", VStr param_name);
                          ("in", VStr "path");
                          ("required", VBool true);
                          ("schema", schema);
                          ("description",
                           VStr ("Path parameter: " ++ param_name)%string) ]) ;;
  append parameters param.

(** Lines 119-122 *)
Definition add_declared_arg (path_params : list string) (parameters : val)
    (arg : string * val) : M unit :=
  let (arg_name, arg_details) := arg in
  if negb (Str.mem arg_name path_params) then
    param <- process_arg_details arg_name arg_details ;;
    append parameters param
  else ret tt.

(** Lines 100-122; the list that [re.findall] returns is a new object
    too, the loop and the membership test go by its contents. *)
Definition build_parameters (path : string) (endpoint : list (string * val))
  : M val :=
  parameters <- alloc (OList []) ;;
  let path_params := path_params_of path in
  _ <- alloc (OList (map VStr path_params)) ;;
  for_each path_params (add_path_param parameters) ;;
  default <- alloc (ODict []) ;;
  let args := Dict.get_default "args" default endpoint in
  is_dict <- as_dict args ;;
  match is_dict with
  | Some args => for_each args (add_declared_arg path_params parameters)
  | None => ret tt
  end ;;
  ret parameters.

(** Lines 124-142 *)
Definition build_operation (path : string) (details : list (string * val))
    (method : string) (parameters : val) : M val :=
  r200 <- alloc (ODict [("description", VStr "Successful response")]) ;;
  r400 <- alloc (ODict [("description", VStr "Bad request")]) ;;
  r401 <- alloc (ODict [("description", VStr "Unauthorized")]) ;;
  r404 <- alloc (ODict [("description", VStr "Resource not found")]) ;;
  responses <- alloc (ODict [("200", r200); ("400", r400); ("401", r401); ("404", r404)]) ;;
  alloc (ODict [ ("summary", VStr (Str.upper method ++ " " ++ path)%string);
                 ("description", Dict.get_default "description" (VStr "") details);
                 ("parameters", parameters);
                 ("responses", responses) ]).

(** Lines 99-142: the body of the loop over the methods. *)
Definition method_body (path : string) (details endpoint : list (string * val))
    (path_item : val) (method : val) : M unit :=
  method <- lower method ;;
  parameters <- build_parameters path endpoint ;;
  operation <- build_operation path details method parameters ;;
  setitem path_item method operation.

(** Lines 98-142: the body of the loop over the endpoints. *)
Definition endpoint_body (path : string) (details : list (string * val))
    (path_item : val) (endpoint : val) : M unit :=
  endpoint <- entries endpoint ;;
  default <- alloc (OList []) ;;
  methods <- iter (Dict.get_default "methods" default endpoint) ;;
  for_each methods (method_body path details endpoint path_item).

(** Lines 94-142 *)
Definition route_path_item (path : string) (details : val) : M (option val) :=
  path_item <- alloc (ODict []) ;;
  is_dict <- as_dict details ;;
  match is_dict with
  | Some details =>
      if Dict.has "endpoints" details then
        default <- alloc (OList []) ;;
        endpoints <- iter (Dict.get_default "endpoints" default details) ;;
        for_each endpoints (endpoint_body path details path_item) ;;
        ret (Some path_item)
      else ret None
  | None => ret None
  end.

(** Lines 83-145: the body of the loop over the routes. *)
Definition route_body (openapi_spec : val) (item : string * val) : M unit :=
  let (route, details) := item in
  let path := translate_path route in
  built <- route_path_item path details ;;
  match built with
  | Some path_item =>
      nonempty <- truthy path_item ;;
      if nonempty then
        paths <- getitem openapi_spec "paths" ;;
        setitem paths path path_item
      else ret tt
  | None => ret tt
  end.

Definition generate_openapi_spec (base_url : string) (routes : val) : M val :=
  info <- alloc (ODict [ ("title", VStr "WordPress REST API");
                         ("version", VStr "1.0.0");
                         ("description",
                          VStr "Auto-generated OpenAPI spec for WordPress REST API") ]) ;;
  server <- alloc (ODict [("url", VStr base_url)]) ;;
  servers <- alloc (OList [server]) ;;
  paths <- alloc (ODict []) ;;
  openapi_spec <- alloc (ODict [ ("openapi", VStr "3.0.0");
                                 ("info", info);
                                 ("servers", servers);
                                 ("paths", paths) ]) ;;
  routes <- items routes ;;
  for_each routes (route_body openapi_spec) ;;
  ret openapi_spec.

(** *** What a computation leaves in place *)

(** From [h] to [h'] the store has not shrunk and its first [n] objects
    are as they were. *)
Definition keeps (n : nat) (h h' : store) : Prop :=
  length h <= length h' /\ take n h' = take n h.

(** A value that refers to none of the first [n] objects. *)
Definition beyond (n : nat) (v : val) : Prop :=
  match v with
  | VRef a => n <= a
  | _ => True
  end.

(** In a store of at least [n] objects, [m] keeps the first [n], and a
    result it gives satisfies [Q]. *)
Definition safe {A : Type} (n : nat) (m : M A) (Q : A -> Prop) : Prop :=
  forall h, n <= length h ->
    keeps n h (fst (m h)) /\ forall a, snd (m h) = Ok a -> Q a.

(** *** Between JSON values and the store *)

(** A JSON value put into the store, nothing shared. *)
Fixpoint load (j : json) : M val :=
  match j with
  | JNull => ret VNone
  | JBool b => ret (VBool b)
  | JNum n => ret (VNum n)
  | JStr s => ret (VStr s)
  | JList l =>
      vs <- (fix load_all (l : list json) : M (list val) :=
               match l with
               | [] => ret []
               | j :: l' => v <- load j ;; vs <- load_all l' ;; ret (v :: vs)
               end) l ;;
      alloc (OList vs)
  | JDict d =>
      kvs <- (fix load_all (d : list (string * json)) : M (list (string * val)) :=
                match d with
                | [] => ret []
                | (k, j) :: d' =>
                    v <- load j ;; kvs <- load_all d' ;; ret ((k, v) :: kvs)
                end) d ;;
      alloc (ODict kvs)
  end.

(** All of the results, when none is missing. *)
Fixpoint all_some {A : Type} (l : list (option A)) : option (list A) :=
  match l with
  | [] => Some []
  | Some a :: l' => option_map (cons a) (all_some l')
  | None :: _ => None
  end.

(** The JSON value a value of the store stands for, read through objects
    at addresses of [region] only and to a depth of at most [depth]
    references. *)
Fixpoint reify_in (region : nat -> bool) (depth : nat) (h : store) (v : val)
  : option json :=
  match v with
  | VNone => Some JNull
  | VBool b => Some (JBool b)
  | VNum n => Some (JNum n)
  | VStr s => Some (JStr s)
  | VRef a =>
      match depth with
      | O => None
      | S depth' =>
          if region a then
            match h !! a with
            | Some (OList vs) =>
                option_map JList (all_some (map (reify_in region depth' h) vs))
            | Some (ODict kvs) =>
                option_map JDict
                  (all_some
                     (map (fun kv =>
                             option_map (pair (fst kv))
                               (reify_in region depth' h (snd kv)))
                          kvs))
            | None => None
            end
          else None
      end
  end.

Definition reify (depth : nat) (h : store) (v : val) : option json :=
  reify_in (fun _ => true) depth h v.

(** [v] stands for [j] in [h], through objects of [region] only. *)
Definition rep (region : nat -> bool) (h : store) (v : val) (j : json) : Prop :=
  exists depth, reify_in region depth h v = Some j.

(** The addresses before [n]; and those together with the addresses from
    [lo] up to [hi]. *)
Definition below (n : nat) : nat -> bool := fun a => (a <? n)%nat.

Definition window (n lo hi : nat) : nat -> bool :=
  fun a => ((a <? n) || ((lo <=? a) && (a <? hi)))%nat.

(** Entry by entry, the same keys with related values. *)
Definition dict_rel (R : val -> json -> Prop) (kvs : list (string * val))
    (d : dict) : Prop :=
  Forall2 (fun kv kj => fst kv = fst kj /\ R (snd kv) (snd kj)) kvs d.

(** From [h] to [h'] the store has not shrunk, and the objects of [h]
    other than those at [written] are as they were. *)
Definition frame (written : list nat) (h h' : store) : Prop :=
  length h <= length h'
  /\ forall a, a < length h -> ~ In a written -> h' !! a = h !! a.

(** With the input in the store [h0]: a store that still begins with
    [h0]; a value of the input standing for a JSON value; and a value
    standing for a JSON value through the input and the objects created
    from address [lo] on. *)
Definition grown (h0 h : store) : Prop := take (length h0) h = h0.

Definition inp (h0 : store) (v : val) (j : json) : Prop :=
  rep (below (length h0)) h0 v j.

Definition out (h0 : store) (lo : nat) (h : store) (v : val) (j : json) : Prop :=
  rep (window (length h0) lo (length h)) h v j.

(** The list under construction at [acc] holds values for [ps]; the
    dictionary under construction at [acc] holds values for [d]. *)
Definition holds_list (h0 : store) (acc : nat) (h : store) (ps : list json)
  : Prop :=
  exists vs, h !! acc = Some (OList vs) /\ Forall2 (out h0 (S acc) h) vs ps.

Definition holds_dict (h0 : store) (acc : nat) (h : store) (d : dict) : Prop :=
  exists kvs, h !! acc = Some (ODict kvs) /\ dict_rel (out h0 (S acc) h) kvs d.

(** The ways in which a value stands for a JSON value. *)
Inductive shape (region : nat -> bool) (h : store) : val -> json -> Prop :=
| shape_none : shape region h VNone JNull
| shape_bool b : shape region h (VBool b) (JBool b)
| shape_num n : shape region h (VNum n) (JNum n)
| shape_str s : shape region h (VStr s) (JStr s)
| shape_list a vs js :
    region a = true ->
    h !! a = Some (OList vs) ->
    Forall2 (rep region h) vs js ->
    shape region h (VRef a) (JList js)
| shape_dict a kvs dj :
    region a = true ->
    h !! a = Some (ODict kvs) ->
    dict_rel (rep region h) kvs dj ->
    shape region h (VRef a) (JDict dj).

(** Run from [h], [m] ends in a store and result that satisfy [Q], or
    raises an exception that satisfies [E]. *)
Definition wp {A : Type} (m : M A) (h : store) (Q : store -> A -> Prop)
    (E : exn -> Prop) : Prop :=
  match m h with
  | (h', Ok a) => Q h' a
  | (_, Raise e) => E e
  end.

(** [generate_openapi_spec] run on a JSON value loaded into the empty
    store, and its outcome read back. *)
Definition run_on (base_url : string) (routes : json) : result (option json) :=
  let (h, r) := (v <- load routes ;; generate_openapi_spec base_url v) [] in
  match r with
  | Ok doc => Ok (reify 8 h doc)
  | Raise e => Raise e
  end.

(** While the routes are processed, the document under construction is the
    object at [spec], with the entries [fields]. *)
Definition spec_in_place (spec : nat) (fields : list (string * val)) (h : store)
  : Prop :=
  h !! spec = Some (ODict fields).

End Store.

(* ===================================================================== *)
(** ** Reading a generated document *)
(* ===================================================================== *)

(** [op] is the operation stored for [method] under the key [path] of the
    document's [paths]. *)
Definition operation_in (doc : json) (path method : string) (op : json) : Prop :=
  exists path_item,
    In (path, JDict path_item) (paths_of doc) /\ In (method, op) path_item.

Definition field (k : string) (v : json) : option json :=
  match v with
  | JDict d => Dict.get k d
  | _ => None
  end.

Definition parameters_of (op : json) : list json :=
  match field "parameters" op with
  | Some (JList l) => l
  | _ => []
  end.

Definition param_name (p : json) : option string :=
  match field "name" p with
  | Some (JStr s) => Some s
  | _ => None
  end.

Definition param_in (p : json) : option string :=
  match field "in" p with
  | Some (JStr s) => Some s
  | _ => None
  end.

Definition is_named (n : string) (p : json) : bool :=
  match param_name p with
  | Some s => String.eqb s n
  | None => false
  end.

(** The entries of a parameter list that carry the name [n]. *)
Definition named (n : string) (ps : list json) : list json :=
  List.filter (is_named n) ps.

(** The names of a parameter list, in order. *)
Definition param_names (ps : list json) : list (option string) :=
  map param_name ps.

(** The endpoint entries a route's loop runs over. *)
Definition endpoints_of (details : dict) : list json :=
  match py_iter (Dict.get_default "endpoints" (JList []) details) with
  | Ok l => l
  | Raise _ => []
  end.

Definition lowered (methods : list json) : list string :=
  flat_map (fun m => match m with JStr s => [Str.lower s] | _ => [] end) methods.

(** The lower-cased method names an endpoint lists. *)
Definition method_names (endpoint : dict) : list string :=
  match py_iter (Dict.get_default "methods" (JList []) endpoint) with
  | Ok ms => lowered ms
  | Raise _ => []
  end.

(** What an endpoint lists as its methods, as it stands there. *)
Definition listed_methods (endpoint : dict) : list json :=
  match py_iter (Dict.get_default "methods" (JList []) endpoint) with
  | Ok ms => ms
  | Raise _ => []
  end.

(** The declared arguments an operation's builder runs over. *)
Definition declared_args (endpoint : dict) : dict :=
  match Dict.get_default "args" (JDict []) endpoint with
  | JDict args => args
  | _ => []
  end.

(** [op] is what the body of the method loop stores under [m] for some
    endpoint of the route. *)
Definition built_from (path : string) (details : dict) (m : string) (op : json)
  : Prop :=
  exists endpoint,
    In (JDict endpoint) (endpoints_of details)
    /\ In m (method_names endpoint)
    /\ op = build_operation path details m (build_parameters path endpoint).

(** [v] is a PathItem built for some route of the input that translates to
    [p]. *)
Definition path_entry_ok (routes : dict) (p : string) (v : json) : Prop :=
  exists route details path_item,
    In (route, JDict details) routes
    /\ p = translate_path route
    /\ v = JDict path_item
    /\ path_item <> []
    /\ forall m op, In (m, op) path_item -> built_from p details m op.

(** A value that can come from Python: in every dictionary, at any depth,
    the keys are pairwise different. *)
Fixpoint unique_keys (ks : list string) : bool :=
  match ks with
  | [] => true
  | k :: ks' => negb (Str.mem k ks') && unique_keys ks'
  end.

Fixpoint wf (v : json) : bool :=
  match v with
  | JList l => forallb wf l
  | JDict d =>
      unique_keys (Dict.keys d)
      && (fix wf_values (d : list (string * json)) : bool :=
            match d with
            | [] => true
            | (_, v) :: d' => wf v && wf_values d'
            end) d
  | JNull | JBool _ | JNum _ | JStr _ => true
  end.

(** A declared argument is kept when its name is not among the path
    parameters; a kept one is turned into a parameter object. *)
Definition kept (pps : list string) (kv : string * json) : bool :=
  negb (Str.mem (fst kv) pps).

Definition declared_param (kv : string * json) : json :=
  process_arg_details (fst kv) (snd kv).

(** A route for which nothing is stored: its metadata is not a mapping,
    or has no [endpoints] key, or its endpoints give an empty PathItem. *)
Definition yields_no_operations (route : string) (details : json) : Prop :=
  (forall d, details <> JDict d)
  \/ (exists d, details = JDict d /\ Dict.has "endpoints" d = false)
  \/ route_path_item (translate_path route) details = Ok (Some []).

(** ** Inputs on which no exception is raised *)

Definition is_ok {A : Type} (r : result A) : bool :=
  match r with
  | Ok _ => true
  | Raise _ => false
  end.

Definition is_str (v : json) : bool :=
  match v with
  | JStr _ => true
  | _ => false
  end.

(** [methods] can be iterated and gives strings only. *)
Definition methods_ok (methods : json) : bool :=
  match py_iter methods with
  | Ok ms => forallb is_str ms
  | Raise _ => false
  end.

(** The endpoint entry is a mapping whose [methods], when present, is
    such. *)
Definition endpoint_ok (endpoint : json) : bool :=
  match endpoint with
  | JDict e => methods_ok (Dict.get_default "methods" (JList []) e)
  | _ => false
  end.

(** Route metadata that is a mapping with an [endpoints] key has there an
    iterable of such endpoint entries; any other metadata will do. *)
Definition details_ok (details : json) : bool :=
  match details with
  | JDict d =>
      match Dict.get "endpoints" d with
      | Some endpoints =>
          match py_iter endpoints with
          | Ok eps => forallb endpoint_ok eps
          | Raise _ => false
          end
      | None => true
      end
  | _ => true
  end.

Definition routes_ok (routes : dict) : bool :=
  forallb (fun kv => details_ok (snd kv)) routes.

(* ===================================================================== *)
(** ** Statements of the specification that the code does not meet *)
(* ===================================================================== *)

(** "Given a route with path parameter [id] and a declared argument also
    named [id], the resulting parameter list contains exactly one entry
    named [id], with [in=path]." *)
Definition spec_parameter_precedence : Prop :=
  forall base routes doc route details endpoint args m op,
    wf (JDict routes) = true ->
    generate_openapi_spec base (JDict routes) = Ok doc ->
    In (route, JDict details) routes ->
    In "id" (path_params_of (translate_path route)) ->
    In (JDict endpoint) (endpoints_of details) ->
    Dict.get "args" endpoint = Some (JDict args) ->
    Dict.has "id" args = true ->
    operation_in doc (translate_path route) m op ->
    exists e, named "id" (parameters_of op) = [e] /\ param_in e = Some "path".

(** "Parameter names within one Operation are unique." *)
Definition spec_unique_parameter_names : Prop :=
  forall base routes doc p m op,
    wf routes = true ->
    generate_openapi_spec base routes = Ok doc ->
    operation_in doc p m op ->
    List.NoDup (param_names (parameters_of op)).

(** "No error from the core itself should propagate as a crash", for every
    routes mapping. *)
Definition spec_never_raises : Prop :=
  forall base routes,
    wf (JDict routes) = true ->
    exists doc, generate_openapi_spec base (JDict routes) = Ok doc.

(** Of two routes with the same translated path, the PathItem built from
    the later one is the one found in [paths]. *)
Definition spec_later_route_replaces : Prop :=
  forall base pre r1 d1 mid r2 d2 post doc pi2,
    wf (JDict (pre ++ (r1, d1) :: mid ++ (r2, d2) :: post)) = true ->
    generate_openapi_spec base (JDict (pre ++ (r1, d1) :: mid ++ (r2, d2) :: post))
    = Ok doc ->
    r1 <> r2 ->
    translate_path r1 = translate_path r2 ->
    (forall r d, In (r, d) post -> translate_path r <> translate_path r2) ->
    route_path_item (translate_path r2) d2 = Ok (Some pi2) ->
    Dict.get (translate_path r2) (paths_of doc) = Some (JDict pi2).

(* ===================================================================== *)
(** ** Sample inputs *)
(* ===================================================================== *)

Module Sample.

Definition endpoint (methods : list string) (args : dict) : json :=
  JDict [("methods", JList (map JStr methods)); ("args", JDict args)].

Definition details (description : string) (endpoints : list json) : json :=
  JDict [("description", JStr description); ("endpoints", JList endpoints)].

Definition document (base : string) (routes : dict) : json :=
  match generate_openapi_spec base (JDict routes) with
  | Ok doc => doc
  | Raise _ => JNull
  end.

Definition base : string := "https://example.com".

(** The end-to-end scenario of the specification. *)
Definition post_args : dict :=
  [ ("id", JDict [("required", JBool true)]);
    ("context", JDict [ ("type", JStr "string");
                        ("enum", JList [JStr "view"; JStr "edit"]) ]) ].

Definition posts : dict :=
  [ ("/wp/v2/posts/(?P<id>[\d]+)",
     details "Post" [endpoint ["GET"; "POST"] post_args]) ].

Definition posts_doc : json := Eval vm_compute in document base posts.

(** A route written with a brace placeholder, and one with the same
    placeholder twice. *)
Definition braces : dict :=
  [ ("/wp/v2/x/{id}", details "X" [endpoint ["GET"] post_args]) ].

Definition braces_doc : json := Eval vm_compute in document base braces.

Definition twice : dict :=
  [ ("/{id}/{id}", details "Y" [endpoint ["GET"] post_args]) ].

Definition twice_doc : json := Eval vm_compute in document base twice.

(** The same capture group twice in one pattern. *)
Definition group_twice : dict :=
  [ ("/wp/v2/a/(?P<id>[\d]+)/(?P<id>[\d]+)", details "Z" [endpoint ["GET"] []]) ].

Definition group_twice_doc : json := Eval vm_compute in document base group_twice.

(** Metadata whose [endpoints] is [None]. *)
Definition null_endpoints : dict :=
  [ ("/wp/v2/a", JDict [("endpoints", JNull)]) ].

(** A route without operations next to one with an operation. *)
Definition with_empty : dict :=
  [ ("/wp/v2/a", details "A" [endpoint ["GET"] []]);
    ("/wp/v2/b", JStr "no metadata") ].

Definition with_empty_doc : json := Eval vm_compute in document base with_empty.

(** One method listed by two endpoints. *)
Definition first_endpoint : dict :=
  [("methods", JList [JStr "GET"]); ("args", JDict [("x", JNull)])].

Definition second_endpoint : dict :=
  [("methods", JList [JStr "get"]); ("args", JDict [("y", JNull)])].

Definition two_endpoints : dict :=
  [ ("description", JStr "A");
    ("endpoints", JList [JDict first_endpoint; JDict second_endpoint]) ].

Definition two_endpoints_item : dict :=
  Eval vm_compute in
    match route_path_item "/a" (JDict two_endpoints) with
    | Ok (Some path_item) => path_item
    | _ => []
    end.

(** Two routes with one translated path; in [shadowed] the later one has
    an operation, in [not_shadowed] it has none. *)
Definition shadowed : dict :=
  [ ("/a", details "first" [endpoint ["GET"] []]);
    ("/wp/v2/a", details "second" [endpoint ["POST"] []]) ].

Definition shadowed_doc : json := Eval vm_compute in document base shadowed.

Definition second_item : dict :=
  Eval vm_compute in
    match route_path_item "/a" (details "second" [endpoint ["POST"] []]) with
    | Ok (Some path_item) => path_item
    | _ => []
    end.

Definition not_shadowed : dict :=
  [ ("/a", details "first" [endpoint ["GET"] []]);
    ("/wp/v2/a", details "second" []) ].

Definition not_shadowed_doc : json := Eval vm_compute in document base not_shadowed.

(** Two routes with the same metadata: in [shared_store] both refer to one
    metadata object, in [unshared_store] each has its own. *)
Definition two_alike : dict :=
  [ ("/a", details "A" [endpoint ["GET"] []]);
    ("/b", details "A" [endpoint ["GET"] []]) ].

Definition shared_store : Store.store :=
  [ Store.OList [Store.VStr "GET"];
    Store.ODict [];
    Store.ODict [("methods", Store.VRef 0); ("args", Store.VRef 1)];
    Store.OList [Store.VRef 2];
    Store.ODict [("description", Store.VStr "A"); ("endpoints", Store.VRef 3)];
    Store.ODict [("/a", Store.VRef 4); ("/b", Store.VRef 4)] ].

Definition shared_routes : Store.val := Store.VRef 5.

Definition unshared_store : Store.store :=
  Eval vm_compute in fst (Store.load (JDict two_alike) []).

Definition unshared_routes : Store.val := Store.VRef 10.

End Sample.

(* ===================================================================== *)
(** ** The command-line program *)
(* ===================================================================== *)

(** [fetch_wp_api_routes] and [main] talk to the outside: they print, send
    one HTTP request and write one file.  A run is modelled by the list of
    these events in the order in which they happen, next to the value it
    returns or the exception it raises.  The outside is a [world]: what the
    site answers to a request, and whether a file can be opened for
    writing.  A printed line is recorded by the print statement it comes
    from and the values put into it, not by its text; a written file by the
    document handed to [yaml.dump], not by its YAML text. *)

Module App.

(** The exceptions of a run: those of the libraries, and those of the
    generator's own operations. *)
Inductive failure :=
| RequestException
| ValueError
| OSError
| Core (e : exn).

Inductive message :=
| FetchingRoutes (url : string)                  (* line 9 *)
| FailedToAccess (url : string) (status_code : Z) (* line 15 *)
| FoundRoutes (n : nat)                          (* line 21 *)
| NoRoutesKey                                    (* line 24 *)
| ErrorParsingJson                               (* lines 27 and 180 *)
| FoundRouteKeys (keys : list string)            (* line 163 *)
| NoPathsWarning                                 (* line 169 *)
| Saved (output : string)                        (* line 174 *)
| FoundPaths (n : nat)                           (* line 175 *)
| ErrorFetching                                  (* line 178 *)
| UnexpectedError (e : failure).                 (* line 182 *)

Inductive event :=
| Printed (line : message)
| Requested (url : string)
| Dumped (file : string) (document : json).

Inductive outcome (A : Type) :=
| Returned (a : A)
| Raised (e : failure).

Arguments Returned {A} a.
Arguments Raised {A} e.

Definition IO (A : Type) : Type := list event * outcome A.

Definition ret {A : Type} (a : A) : IO A := ([], Returned a).

Definition raise {A : Type} (e : failure) : IO A := ([], Raised e).

Definition bind {A B : Type} (m : IO A) (k : A -> IO B) : IO B :=
  match m with
  | (events, Returned a) => let (events', r) := k a in ((events ++ events')%list, r)
  | (events, Raised e) => (events, Raised e)
  end.

Declare Scope io_scope.
Delimit Scope io_scope with io.
Bind Scope io_scope with IO.

Notation "x <- m ;; k" := (bind m (fun x => k))
  (at level 100, m at next level, right associativity) : io_scope.
Notation "m ;; k" := (bind m (fun _ => k))
  (at level 100, right associativity) : io_scope.

Local Open Scope io_scope.

Definition print (line : message) : IO unit := ([Printed line], Returned tt).

(** A step of the generator's own, within a run. *)
Definition lift {A : Type} (r : result A) : IO A :=
  match r with
  | Ok a => ret a
  | Raise e => raise (Core e)
  end.

(** [try: body except <caught> as e: handler]. *)
Definition try_except {A : Type} (body : IO A) (caught : failure -> bool)
    (handler : failure -> IO A) : IO A :=
  match body with
  | (events, Raised e) =>
      if caught e
      then let (events', r) := handler e in ((events ++ events')%list, r)
      else (events, Raised e)
  | (events, Returned a) => (events, Returned a)
  end.

(** *** The outside *)

(** What comes of [requests.get(url)]: an exception of the [requests]
    library, or a response with its status code and, where the body is
    JSON, the value [response.json()] gives. *)
Inductive reply :=
| NoReply
| Reply (status_code : Z) (body : option json).

(** [open_error] is the exception that [open(file, "w")] raises, if any. *)
Record world := {
  site : string -> reply;
  open_error : string -> option failure
}.

Definition requests_get (w : world) (url : string) : IO (Z * option json) :=
  match site w url with
  | NoReply => ([Requested url], Raised RequestException)
  | Reply status_code body => ([Requested url], Returned (status_code, body))
  end.

(** [response.json()]: a body that is not JSON raises a [ValueError]. *)
Definition response_json (body : option json) : IO json :=
  match body with
  | Some data => ret data
  | None => raise ValueError
  end.

(** Lines 171-172: the file opened for writing and the document dumped
    into it. *)
Definition dump_to (w : world) (file : string) (document : json) : IO unit :=
  match open_error w file with
  | Some e => raise e
  | None => ([Dumped file document], Returned tt)
  end.

(** *** Python operations on JSON values *)

(** [k in data]: a key of a dictionary, an element of a list, a substring
    of a string. *)
Definition py_contains (k : string) (data : json) : result bool :=
  match data with
  | JDict d => Ok (Dict.has k d)
  | JList l =>
      Ok (existsb (fun x => match x with
                            | JStr s => String.eqb k s
                            | _ => false
                            end) l)
  | JStr s =>
      Ok match String.index 0 k s with
         | Some _ => true
         | None => false
         end
  | JNull | JBool _ | JNum _ => Raise TypeError
  end.

(** [data[k]] for a string [k]. *)
Definition py_getitem (k : string) (data : json) : result json :=
  match data with
  | JDict d =>
      match Dict.get k d with
      | Some v => Ok v
      | None => Raise KeyError
      end
  | _ => Raise TypeError
  end.

(** [len(v)]; the entries of a dictionary have distinct keys, and the
    length of a string is the number of its characters. *)
Definition py_len (v : json) : result nat :=
  match v with
  | JDict d => Ok (length d)
  | JList l => Ok (length l)
  | JStr s => Ok (length (Str.chars s))
  | JNull | JBool _ | JNum _ => Raise TypeError
  end.

(** [list(v.keys())] *)
Definition py_keys (v : json) : result (list string) :=
  match v with
  | JDict d => Ok (Dict.keys d)
  | _ => Raise AttributeError
  end.

(** The truth value of a JSON value. *)
Definition py_truthy (v : json) : bool :=
  match v with
  | JNull => false
  | JBool b => b
  | JNum n => negb (n =? 0)%Z
  | JStr s => negb (String.eqb s "")
  | JList l => match l with [] => false | _ :: _ => true end
  | JDict d => Dict.truthy d
  end.

(** [s.rstrip('/')] *)
Fixpoint rstrip_slash (s : string) : string :=
  match s with
  | EmptyString => EmptyString
  | String c s' =>
      match rstrip_slash s' with
      | EmptyString => if Ascii.eqb c "/" then EmptyString else String c EmptyString
      | rest => String c rest
      end
  end.

(** A run of [n] slashes. *)
Fixpoint slashes (n : nat) : string :=
  match n with
  | O => EmptyString
  | S n' => String "/" (slashes n')
  end.

(** *** [fetch_wp_api_routes] *)

Definition is_ValueError (e : failure) : bool :=
  match e with
  | ValueError => true
  | _ => false
  end.

Definition fetch_wp_api_routes (w : world) (base_url : string) : IO json :=
  print (FetchingRoutes (base_url ++ "/wp-json")) ;;
  response <- requests_get w (base_url ++ "/wp-json") ;;
  let (status_code, body) := response in
  if negb (status_code =? 200)%Z then
    print (FailedToAccess (base_url ++ "/wp-json") status_code) ;;
    ret (JDict [])
  else
    try_except
      (data <- response_json body ;;
       found <- lift (py_contains "routes" data) ;;
       if found then
         routes <- lift (py_getitem "routes" data) ;;
         n <- lift (py_len routes) ;;
         print (FoundRoutes n) ;;
         lift (py_getitem "routes" data)
       else
         print NoRoutesKey ;;
         ret (JDict []))
      is_ValueError
      (fun _ =>
         print ErrorParsingJson ;;
         ret (JDict [])).

(** *** [main] *)

(** The parsed command line. *)
Record arguments := {
  base_url : string;
  output : string;
  verbose : bool
}.

(** Lines 177-182: the line that the first handler to match prints. *)
Definition report_line (e : failure) : message :=
  match e with
  | RequestException => ErrorFetching
  | ValueError => ErrorParsingJson
  | e => UnexpectedError e
  end.

Definition report (e : failure) : IO unit := print (report_line e).

(** Lines 156-182, on the parsed command line; what is left of the run is
    its events, since every exception is caught. *)
Definition main (w : world) (args : arguments) : list event :=
  fst (try_except
         (let base_url := rstrip_slash (base_url args) in
          routes <- fetch_wp_api_routes w base_url ;;
          (if verbose args then
             keys <- lift (py_keys routes) ;;
             print (FoundRouteKeys keys)
           else ret tt) ;;
          openapi_spec <- lift (generate_openapi_spec base_url routes) ;;
          paths <- lift (py_getitem "paths" openapi_spec) ;;
          (if negb (py_truthy paths) then print NoPathsWarning else ret tt) ;;
          dump_to w (output args) openapi_spec ;;
          print (Saved (output args)) ;;
          paths <- lift (py_getitem "paths" openapi_spec) ;;
          n <- lift (py_len paths) ;;
          print (FoundPaths n))
         (fun _ => true)
         report).

(** What a run asks of the outside, and what it leaves there. *)
Definition requests_of (events : list event) : list string :=
  flat_map (fun ev => match ev with
                      | Requested url => [url]
                      | _ => []
                      end) events.

Definition dumps_of (events : list event) : list (string * json) :=
  flat_map (fun ev => match ev with
                      | Dumped file document => [(file, document)]
                      | _ => []
                      end) events.

Definition lines_of (events : list event) : list message :=
  flat_map (fun ev => match ev with
                      | Printed line => [line]
                      | _ => []
                      end) events.

(** *** Sample runs *)

(** A site that answers with the sample routes, one that answers with an
    error page, and one that cannot be reached. *)
Definition answering : world :=
  {| site := fun url =>
       if String.eqb url "https://example.com/wp-json"
       then Reply 200 (Some (JDict [ ("name", JStr "Example");
                                     ("routes", JDict Sample.posts) ]))
       else NoReply;
     open_error := fun _ => None |}.

Definition missing : world :=
  {| site := fun _ => Reply 404 (Some (JDict [("code", JStr "rest_no_route")]));
     open_error := fun _ => None |}.

Definition unreachable : world :=
  {| site := fun _ => NoReply;
     open_error := fun _ => None |}.

Definition sample_args : arguments :=
  {| base_url := "https://example.com//";
     output := "wordpress_openapi.yaml";
     verbose := false |}.

End App.

(* ===================================================================== *)
(** * Properties *)
(* ===================================================================== *)

Local Open Scope list_scope.

(** ** Dictionaries *)

Lemma get_set_eq {V : Type} k (v : V) d : Dict.get k (Dict.set k v d) = Some v.
Proof.
  induction d as [|[k' v'] d IH]; simpl.
  - now rewrite String.eqb_refl.
  - destruct (String.eqb k k') eqn:E; simpl; rewrite E; auto.
Qed.

Lemma get_set_ne {V : Type} k k' (v : V) d :
  k <> k' -> Dict.get k' (Dict.set k v d) = Dict.get k' d.
Proof.
  intros Hne. induction d as [|[k0 v0] d IH]; simpl.
  - destruct (String.eqb_spec k' k); congruence.
  - destruct (String.eqb_spec k k0); simpl.
    + subst k0. destruct (String.eqb_spec k' k); congruence.
    + now rewrite IH.
Qed.

Lemma in_set {V : Type} k (v : V) d k' v' :
  In (k', v') (Dict.set k v d) -> (k' = k /\ v' = v) \/ In (k', v') d.
Proof.
  induction d as [|[k0 v0] d IH]; simpl.
  - intros [H|[]]. left. now inversion H.
  - destruct (String.eqb_spec k k0); simpl.
    + intros [H|H]; [left; inversion H; now subst | right; now right].
    + intros [H|H]; [right; now left |].
      destruct (IH H) as [?|?]; [now left | right; now right].
Qed.

Lemma set_truthy {V : Type} k (v : V) d : Dict.truthy (Dict.set k v d) = true.
Proof. destruct d as [|[k0 v0] d]; simpl; [|destruct (String.eqb k k0)]; reflexivity. Qed.

Lemma get_in {V : Type} k (v : V) d : Dict.get k d = Some v -> In (k, v) d.
Proof.
  induction d as [|[k0 v0] d IH]; simpl; [discriminate|].
  destruct (String.eqb_spec k k0).
  - intros H. inversion H. subst. now left.
  - intros H. right. auto.
Qed.

(** ** Path translation *)

Lemma startswith_slash s :
  Str.startswith s "/" = true -> exists rest, s = String "/" rest.
Proof.
  unfold Str.startswith. destruct s as [|c s]; cbn -[ascii_dec]; [discriminate|].
  destruct (ascii_dec "/" c) as [<-|]; [|discriminate].
  intros _. now exists s.
Qed.

Lemma startswith_slash_cons s : Str.startswith (String "/" s) "/" = true.
Proof.
  unfold Str.startswith. cbn -[ascii_dec].
  destruct (ascii_dec "/" "/"); [now destruct s | congruence].
Qed.

(** C1 (what the code computes at the claim's input): the route pattern
    [/wp/v2/posts/(?P<id>[\d]+)] is translated to [/posts//{{id}}], keeping
    the slash in front of the group and doubling the braces, and the one
    path parameter extracted from it is named [{id]; so the path template
    is not [/posts/{id}] and no path parameter is named [id]. *)
Theorem numeric_route_translation :
  translate_path "/wp/v2/posts/(?P<id>[\d]+)" = "/posts//{{id}}"
  /\ path_params_of (translate_path "/wp/v2/posts/(?P<id>[\d]+)") = ["{id"]
  /\ path_params_loop (path_params_of (translate_path "/wp/v2/posts/(?P<id>[\d]+)")) []
     = [ JDict [ ("name", JStr "{id");
                 ("in", JStr "path");
                 ("required", JBool true);
                 ("schema", JDict [("type", JStr "string")]);
                 ("description", JStr "Path parameter: {id") ] ]
  /\ translate_path "/wp/v2/posts/(?P<id>[\d]+)" <> "/posts/{id}"
  /\ ~ In "id" (path_params_of (translate_path "/wp/v2/posts/(?P<id>[\d]+)")).
Proof.
  repeat split; try reflexivity.
  - intros H. vm_compute in H. discriminate H.
  - intros H. vm_compute in H. destruct H as [H|[]]. discriminate H.
Qed.

(** C5: for every route pattern, the empty one included, the translated
    path starts with [/]. *)
Theorem translate_path_leading_slash (route : string) :
  Str.startswith (translate_path route) "/" = true
  /\ exists rest, translate_path route = String "/" rest.
Proof.
  assert (H : Str.startswith (translate_path route) "/" = true).
  { unfold translate_path.
    set (path := Scan.substitute Re.generic_group _ _).
    destruct (Str.startswith path "/") eqn:E; cbn [negb];
      [exact E | apply startswith_slash_cons]. }
  split; [exact H | now apply startswith_slash].
Qed.

(** ** Parameter lists *)

Lemma path_params_loop_spec pps ps :
  path_params_loop pps ps = (ps ++ map path_param pps)%list.
Proof.
  revert ps. induction pps as [|n pps IH]; intros ps; simpl.
  - now rewrite app_nil_r.
  - rewrite IH, <- app_assoc. reflexivity.
Qed.

Lemma args_loop_spec pps items ps :
  args_loop pps items ps
  = (ps ++ map declared_param (List.filter (kept pps) items))%list.
Proof.
  revert ps. induction items as [|[n v] items IH]; intros ps; simpl.
  - now rewrite app_nil_r.
  - unfold kept at 1. simpl. destruct (Str.mem n pps); simpl.
    + apply IH.
    + rewrite IH, <- app_assoc. reflexivity.
Qed.

Lemma build_parameters_spec path endpoint :
  build_parameters path endpoint
  = (map path_param (path_params_of path)
     ++ map declared_param
          (List.filter (kept (path_params_of path)) (declared_args endpoint)))%list.
Proof.
  unfold build_parameters, declared_args.
  rewrite path_params_loop_spec. simpl.
  destruct (Dict.get_default "args" (JDict []) endpoint);
    simpl; rewrite ?app_nil_r; try reflexivity.
  apply args_loop_spec.
Qed.

Lemma process_arg_details_shape n v :
  exists r s dsc,
    process_arg_details n v
    = JDict [ ("name", JStr n); ("in", JStr "query"); ("required", r);
              ("schema", s); ("description", dsc) ].
Proof.
  destruct v; do 3 eexists; reflexivity.
Qed.

Lemma param_name_path n : param_name (path_param n) = Some n.
Proof. reflexivity. Qed.

Lemma param_in_path n : param_in (path_param n) = Some "path".
Proof. reflexivity. Qed.

Lemma param_name_declared kv : param_name (declared_param kv) = Some (fst kv).
Proof.
  unfold declared_param.
  destruct (process_arg_details_shape (fst kv) (snd kv)) as (r & s & dsc & ->).
  reflexivity.
Qed.

Lemma param_in_declared kv : param_in (declared_param kv) = Some "query".
Proof.
  unfold declared_param.
  destruct (process_arg_details_shape (fst kv) (snd kv)) as (r & s & dsc & ->).
  reflexivity.
Qed.

Lemma mem_in x xs : Str.mem x xs = true <-> In x xs.
Proof.
  unfold Str.mem. rewrite existsb_exists. split.
  - intros (y & Hy & E). apply String.eqb_eq in E. now subst.
  - intros H. exists x. split; [exact H | apply String.eqb_refl].
Qed.

Lemma mem_not_in x xs : Str.mem x xs = false <-> ~ In x xs.
Proof.
  rewrite <- mem_in. destruct (Str.mem x xs); split; congruence.
Qed.

(** ** What the loops store *)

Lemma bind_ok {A B : Type} (m : result A) (k : A -> result B) (b : B) :
  bind m k = Ok b -> exists a, m = Ok a /\ k a = Ok b.
Proof. destruct m as [a|e]; simpl; [eauto | discriminate]. Qed.

Lemma py_lower_ok v s : py_lower v = Ok s -> exists s0, v = JStr s0 /\ s = Str.lower s0.
Proof. destruct v; simpl; try discriminate. intros H. inversion H. eauto. Qed.

Lemma methods_loop_entries path details endpoint ms : forall pi pi',
  methods_loop path details endpoint ms pi = Ok pi' ->
  forall m op, In (m, op) pi' ->
    In (m, op) pi
    \/ (In m (lowered ms)
        /\ op = build_operation path details m (build_parameters path endpoint)).
Proof.
  induction ms as [|v ms IH]; intros pi pi' H m op Hin; simpl in H.
  - inversion H. subst. now left.
  - apply bind_ok in H as (s & Hs & H).
    apply py_lower_ok in Hs as (s0 & -> & ->).
    destruct (IH _ _ H m op Hin) as [Hold|[Hm Hop]].
    + apply in_set in Hold as [[-> ->]|Hold]; [right | now left].
      split; [simpl; now left | reflexivity].
    + right. split; [simpl; now right | exact Hop].
Qed.

Lemma endpoints_loop_entries path details eps : forall pi pi',
  endpoints_loop path details eps pi = Ok pi' ->
  forall m op, In (m, op) pi' ->
    In (m, op) pi
    \/ exists endpoint,
         In (JDict endpoint) eps
         /\ In m (method_names endpoint)
         /\ op = build_operation path details m (build_parameters path endpoint).
Proof.
  induction eps as [|e eps IH]; intros pi pi' H m op Hin; simpl in H.
  - inversion H. subst. now left.
  - destruct e as [| | | | |endpoint]; try discriminate.
    apply bind_ok in H as (ms & Hms & H).
    apply bind_ok in H as (pi1 & Hpi1 & H).
    destruct (IH _ _ H m op Hin) as [Hold|(e' & He' & Hm & Hop)].
    + destruct (methods_loop_entries _ _ _ _ _ _ Hpi1 m op Hold) as [?|[Hm Hop]];
        [now left | right].
      exists endpoint. split; [now left|]. split; [|exact Hop].
      unfold method_names. now rewrite Hms.
    + right. exists e'. split; [now right | auto].
Qed.

Lemma route_path_item_entries path details pi :
  route_path_item path (JDict details) = Ok (Some pi) ->
  forall m op, In (m, op) pi -> built_from path details m op.
Proof.
  unfold route_path_item. destruct (Dict.has "endpoints" details); [|discriminate].
  intros H m op Hin.
  apply bind_ok in H as (eps & Heps & H).
  apply bind_ok in H as (pi' & Hpi & H). inversion H. subst pi'.
  destruct (endpoints_loop_entries _ _ _ _ _ Hpi m op Hin) as [[]|(e & He & Hm & Hop)].
  exists e. unfold endpoints_of. rewrite Heps. auto.
Qed.

Lemma route_path_item_some path details pi :
  route_path_item path details = Ok (Some pi) -> exists d, details = JDict d.
Proof. destruct details; simpl; try discriminate. eauto. Qed.

Lemma truthy_nonempty (d : dict) : Dict.truthy d = true -> d <> [].
Proof. destruct d; simpl; congruence. Qed.

Lemma route_step_entries routes route details paths paths' :
  route_step route details paths = Ok paths' ->
  In (route, details) routes ->
  (forall p v, In (p, v) paths -> path_entry_ok routes p v) ->
  forall p v, In (p, v) paths' -> path_entry_ok routes p v.
Proof.
  unfold route_step. intros H Hr Hinv p v Hin.
  apply bind_ok in H as (built & Hb & H).
  destruct built as [pi|]; [|inversion H; subst; auto].
  destruct (Dict.truthy pi) eqn:Ht; inversion H; subst; auto.
  apply in_set in Hin as [[-> ->]|Hin]; auto.
  destruct (route_path_item_some _ _ _ Hb) as (d & ->).
  exists route, d, pi. repeat split; auto.
  - now apply truthy_nonempty.
  - now apply route_path_item_entries.
Qed.

Lemma routes_loop_entries routes items : forall paths paths',
  routes_loop items paths = Ok paths' ->
  incl items routes ->
  (forall p v, In (p, v) paths -> path_entry_ok routes p v) ->
  forall p v, In (p, v) paths' -> path_entry_ok routes p v.
Proof.
  induction items as [|[route details] items IH]; intros paths paths' H Hincl Hinv;
    simpl in H.
  - inversion H. now subst.
  - apply bind_ok in H as (paths1 & H1 & H).
    apply (IH _ _ H).
    + intros x Hx. apply Hincl. now right.
    + eapply route_step_entries; eauto. apply Hincl. now left.
Qed.

Lemma generate_ok base routes doc :
  generate_openapi_spec base routes = Ok doc ->
  exists items paths,
    routes = JDict items /\ routes_loop items [] = Ok paths
    /\ doc = envelope base paths.
Proof.
  destruct routes; simpl; try discriminate.
  intros H. apply bind_ok in H as (paths & Hp & H). inversion H. eauto.
Qed.

Lemma paths_of_envelope base paths : paths_of (envelope base paths) = paths.
Proof. reflexivity. Qed.

(** Every entry of [paths] is a non-empty PathItem built for a route of the
    input, and each of its operations is what the method loop builds for one
    of that route's endpoints. *)
Lemma generated_paths_sound base routes doc :
  generate_openapi_spec base (JDict routes) = Ok doc ->
  forall p v, In (p, v) (paths_of doc) -> path_entry_ok routes p v.
Proof.
  intros H. apply generate_ok in H as (items & paths & E & Hl & ->).
  inversion E. subst items. rewrite paths_of_envelope.
  eapply routes_loop_entries; eauto.
  - apply incl_refl.
  - intros p v [].
Qed.

Lemma generated_operation_sound base routes doc p m op :
  generate_openapi_spec base (JDict routes) = Ok doc ->
  operation_in doc p m op ->
  exists route details endpoint,
    In (route, JDict details) routes
    /\ p = translate_path route
    /\ In (JDict endpoint) (endpoints_of details)
    /\ In m (method_names endpoint)
    /\ op = build_operation p details m (build_parameters p endpoint).
Proof.
  intros H (pi & Hp & Hm).
  destruct (generated_paths_sound _ _ _ H _ _ Hp)
    as (route & details & pi' & Hr & -> & E & _ & Hops).
  inversion E. subst pi'.
  destruct (Hops _ _ Hm) as (e & He & Hme & ->).
  exists route, details, e. auto.
Qed.

(** ** Response stubs *)

(** C7: every operation of a generated document has a [responses] mapping
    whose keys are exactly "200", "400", "401" and "404", whatever the
    method and the route's metadata. *)
Theorem responses_fixed base routes doc p m op :
  generate_openapi_spec base routes = Ok doc ->
  operation_in doc p m op ->
  exists r,
    field "responses" op = Some (JDict r)
    /\ Dict.keys r = ["200"; "400"; "401"; "404"].
Proof.
  intros H Hop.
  destruct (generate_ok _ _ _ H) as (items & _ & -> & _).
  destruct (generated_operation_sound _ _ _ _ _ _ H Hop)
    as (route & details & e & _ & _ & _ & _ & ->).
  eexists. split; reflexivity.
Qed.

(** ** Routes that contribute nothing *)

Lemma routes_loop_app pre post : forall paths,
  routes_loop (pre ++ post) paths
  = bind (routes_loop pre paths) (routes_loop post).
Proof.
  induction pre as [|[r d] pre IH]; intros paths; simpl; [reflexivity|].
  destruct (route_step r d paths); simpl; auto.
Qed.

Lemma route_step_skip route details paths :
  yields_no_operations route details -> route_step route details paths = Ok paths.
Proof.
  unfold route_step.
  intros [Hn|[(d & -> & Hh)|Hr]].
  - destruct details; try reflexivity. now destruct (Hn d).
  - simpl. now rewrite Hh.
  - now rewrite Hr.
Qed.

Lemma routes_loop_skip pre route details post paths :
  yields_no_operations route details ->
  routes_loop (pre ++ (route, details) :: post) paths = routes_loop (pre ++ post) paths.
Proof.
  intros Hs. rewrite !routes_loop_app.
  destruct (routes_loop pre paths) as [paths1|]; simpl; [|reflexivity].
  now rewrite (route_step_skip _ _ paths1 Hs).
Qed.

(** C6: a route whose metadata is not a mapping, or lacks [endpoints], or
    whose endpoints produce no operation leaves the document as if the route
    were not in the input, so that its translated path is no key of [paths]
    unless another route translates to it; and every key of [paths] maps to
    a PathItem with at least one method. *)
Theorem empty_routes_omitted base routes doc :
  generate_openapi_spec base (JDict routes) = Ok doc ->
  (forall p v, In (p, v) (paths_of doc) ->
     exists path_item m op, v = JDict path_item /\ In (m, op) path_item)
  /\ (forall pre route details post,
        routes = (pre ++ (route, details) :: post)%list ->
        yields_no_operations route details ->
        generate_openapi_spec base (JDict (pre ++ post)) = Ok doc
        /\ ((forall r d, In (r, d) (pre ++ post) ->
               translate_path r <> translate_path route) ->
            forall v, ~ In (translate_path route, v) (paths_of doc))).
Proof.
  intros H. split.
  - intros p v Hin.
    destruct (generated_paths_sound _ _ _ H _ _ Hin)
      as (route & details & pi & _ & _ & -> & Hne & _).
    destruct pi as [|[m op] pi]; [congruence|].
    exists ((m, op) :: pi), m, op. split; [reflexivity | now left].
  - intros pre route details post -> Hs.
    assert (H' : generate_openapi_spec base (JDict (pre ++ post)) = Ok doc).
    { rewrite <- H. simpl. now rewrite routes_loop_skip. }
    split; [exact H'|].
    intros Hother v Hin.
    destruct (generated_paths_sound _ _ _ H' _ _ Hin)
      as (r & d & pi & Hr & Hp & _).
    apply (Hother _ _ Hr). now symmetry.
Qed.

(** ** Last write wins *)

Lemma methods_loop_get path details endpoint ms m : forall pi pi',
  methods_loop path details endpoint ms pi = Ok pi' ->
  (In m (lowered ms) ->
   Dict.get m pi'
   = Some (build_operation path details m (build_parameters path endpoint)))
  /\ (~ In m (lowered ms) -> Dict.get m pi' = Dict.get m pi).
Proof.
  induction ms as [|v ms IH]; intros pi pi' H; simpl in H.
  - inversion H. subst. split; [intros [] | reflexivity].
  - apply bind_ok in H as (s & Hs & H).
    apply py_lower_ok in Hs as (s0 & -> & ->).
    destruct (IH _ _ H) as [Hin Hout]. simpl.
    destruct (in_dec string_dec m (lowered ms)) as [Hm|Hm].
    + split; [intros _; auto | intros Hn; exfalso; apply Hn; now right].
    + rewrite (Hout Hm). split.
      * intros [<-|?]; [apply get_set_eq | contradiction].
      * intros Hn. apply get_set_ne. intros E. apply Hn. now left.
Qed.

Lemma endpoints_loop_app path details eps1 eps2 : forall pi,
  endpoints_loop path details (eps1 ++ eps2) pi
  = bind (endpoints_loop path details eps1 pi) (endpoints_loop path details eps2).
Proof.
  induction eps1 as [|e eps1 IH]; intros pi; simpl; [reflexivity|].
  destruct e; try reflexivity.
  destruct (py_iter _); simpl; [|reflexivity].
  destruct (methods_loop _ _ _ _ _); simpl; auto.
Qed.

Lemma endpoints_loop_get_other path details eps m : forall pi pi',
  endpoints_loop path details eps pi = Ok pi' ->
  (forall e, In (JDict e) eps -> ~ In m (method_names e)) ->
  Dict.get m pi' = Dict.get m pi.
Proof.
  induction eps as [|e eps IH]; intros pi pi' H Hno; simpl in H.
  - now inversion H.
  - destruct e as [| | | | |endpoint]; try discriminate.
    apply bind_ok in H as (ms & Hms & H).
    apply bind_ok in H as (pi1 & Hpi1 & H).
    rewrite (IH _ _ H); [|intros e He; apply Hno; now right].
    apply (methods_loop_get _ _ _ _ m _ _ Hpi1).
    specialize (Hno endpoint (or_introl eq_refl)).
    unfold method_names in Hno. now rewrite Hms in Hno.
Qed.

(** C8: when several endpoints of a route list the same method (after
    lower-casing), the PathItem holds under that method the operation built
    from the last of them alone, with that endpoint's parameters and nothing
    of the earlier ones. *)
Theorem later_endpoint_overwrites path details eps1 endpoint eps2 pi m :
  route_path_item path (JDict details) = Ok (Some pi) ->
  endpoints_of details = (eps1 ++ JDict endpoint :: eps2)%list ->
  In m (method_names endpoint) ->
  (forall e, In (JDict e) eps2 -> ~ In m (method_names e)) ->
  Dict.get m pi
  = Some (build_operation path details m (build_parameters path endpoint)).
Proof.
  unfold route_path_item, endpoints_of.
  destruct (Dict.has "endpoints" details); [|discriminate].
  intros H Heps Hm Hlater.
  apply bind_ok in H as (eps & Hi & H). rewrite Hi in Heps. subst eps.
  apply bind_ok in H as (pi' & Hl & H). inversion H. subst pi'. clear H.
  rewrite endpoints_loop_app in Hl.
  apply bind_ok in Hl as (pi1 & _ & Hl). simpl in Hl.
  apply bind_ok in Hl as (ms & Hms & Hl).
  apply bind_ok in Hl as (pi2 & Hpi2 & Hl).
  rewrite (endpoints_loop_get_other _ _ _ m _ _ Hl Hlater).
  apply (methods_loop_get _ _ _ _ m _ _ Hpi2).
  unfold method_names in Hm. now rewrite Hms in Hm.
Qed.

Lemma route_step_get_other route details paths paths' p :
  route_step route details paths = Ok paths' ->
  translate_path route <> p ->
  Dict.get p paths' = Dict.get p paths.
Proof.
  unfold route_step. intros H Hne.
  apply bind_ok in H as (built & _ & H).
  destruct built as [pi|]; [|now inversion H].
  destruct (Dict.truthy pi); inversion H; [|reflexivity].
  now apply get_set_ne.
Qed.

Lemma routes_loop_get_other items p : forall paths paths',
  routes_loop items paths = Ok paths' ->
  (forall r d, In (r, d) items -> translate_path r <> p) ->
  Dict.get p paths' = Dict.get p paths.
Proof.
  induction items as [|[r d] items IH]; intros paths paths' H Hno; simpl in H.
  - now inversion H.
  - apply bind_ok in H as (paths1 & H1 & H).
    rewrite (IH _ _ H); [|intros r' d' Hin; apply (Hno r' d'); now right].
    apply (route_step_get_other _ _ _ _ _ H1). apply (Hno r d). now left.
Qed.

(** C9 (as amended): when several routes translate to the same path, what
    the key holds after the last of them depends on that route.  When its
    PathItem is not empty, the key holds that PathItem alone, nothing of
    the earlier ones is kept.  When it yields no operation, nothing is
    assigned: the key holds what the routes before it have put there, and
    the whole of [paths] is as those routes and the ones after it make
    it. *)
Theorem later_route_overwrites base pre route details post doc :
  generate_openapi_spec base (JDict (pre ++ (route, details) :: post)) = Ok doc ->
  (forall r d, In (r, d) post -> translate_path r <> translate_path route) ->
  (forall pi,
     route_path_item (translate_path route) details = Ok (Some pi) ->
     pi <> [] ->
     Dict.get (translate_path route) (paths_of doc) = Some (JDict pi))
  /\ (yields_no_operations route details ->
      generate_openapi_spec base (JDict (pre ++ post)) = Ok doc
      /\ exists before,
           generate_openapi_spec base (JDict pre) = Ok before
           /\ Dict.get (translate_path route) (paths_of doc)
              = Dict.get (translate_path route) (paths_of before)).
Proof.
  intros H Hlater. split.
  - intros pi Hpi Hne.
    apply generate_ok in H as (items & paths & E & Hl & ->).
    inversion E. subst items. clear E. rewrite paths_of_envelope.
    rewrite routes_loop_app in Hl.
    apply bind_ok in Hl as (paths1 & _ & Hl). simpl in Hl.
    apply bind_ok in Hl as (paths2 & Hstep & Hl).
    rewrite (routes_loop_get_other _ _ _ _ Hl Hlater).
    unfold route_step in Hstep. rewrite Hpi in Hstep. simpl in Hstep.
    destruct pi; [congruence|]. simpl in Hstep. inversion Hstep.
    apply get_set_eq.
  - intros Hno. split.
    + rewrite <- H. simpl. now rewrite (routes_loop_skip _ _ _ _ _ Hno).
    + apply generate_ok in H as (items & paths & E & Hl & ->).
      inversion E. subst items. clear E. rewrite paths_of_envelope.
      rewrite routes_loop_app in Hl.
      apply bind_ok in Hl as (paths1 & Hpre & Hl). simpl in Hl.
      apply bind_ok in Hl as (paths2 & Hstep & Hl).
      rewrite (route_step_skip _ _ paths1 Hno) in Hstep. inversion Hstep. subst paths2.
      exists (envelope base paths1). split.
      * simpl. now rewrite Hpre.
      * rewrite paths_of_envelope.
        apply (routes_loop_get_other _ _ _ _ Hl Hlater).
Qed.

(** ** Well-formed inputs *)

Lemma unique_keys_nodup ks : unique_keys ks = true -> List.NoDup ks.
Proof.
  induction ks as [|k ks IH]; simpl; [constructor|].
  intros H. apply andb_true_iff in H as [Hk Hks].
  constructor; [|auto].
  apply mem_not_in. now destruct (Str.mem k ks).
Qed.

Lemma wf_dict_keys d : wf (JDict d) = true -> List.NoDup (Dict.keys d).
Proof.
  simpl. intros H. apply andb_true_iff in H as [H _]. now apply unique_keys_nodup.
Qed.

Lemma wf_dict_value d k v : wf (JDict d) = true -> In (k, v) d -> wf v = true.
Proof.
  simpl. intros H. apply andb_true_iff in H as [_ H].
  induction d as [|[k0 v0] d IH]; intros Hin; [destruct Hin|].
  apply andb_true_iff in H as [H0 H].
  destruct Hin as [E|Hin]; [now inversion E; subst | auto].
Qed.

Lemma wf_get_default d k default :
  wf (JDict d) = true -> wf default = true ->
  wf (Dict.get_default k default d) = true.
Proof.
  intros Hd Hdef. unfold Dict.get_default.
  destruct (Dict.get k d) as [v|] eqn:E; [|exact Hdef].
  eapply wf_dict_value; eauto using get_in.
Qed.


Lemma wf_py_iter v l x :
  wf v = true -> py_iter v = Ok l -> In x l -> wf x = true.
Proof.
  destruct v; simpl; try discriminate; intros Hwf H Hin; inversion H; subst.
  - apply in_map_iff in Hin as (k & <- & _). reflexivity.
  - rewrite forallb_forall in Hwf. auto.
  - apply in_map_iff in Hin as (k & <- & _). reflexivity.
Qed.

Lemma wf_endpoint details e :
  wf (JDict details) = true -> In e (endpoints_of details) -> wf e = true.
Proof.
  unfold endpoints_of. intros Hwf Hin.
  destruct (py_iter _) as [l|] eqn:E; [|destruct Hin].
  exact (wf_py_iter _ _ _
           (wf_get_default details "endpoints" (JList []) Hwf eq_refl) E Hin).
Qed.

Lemma wf_declared_args e :
  wf (JDict e) = true -> List.NoDup (Dict.keys (declared_args e)).
Proof.
  intros Hwf. unfold declared_args.
  assert (H : wf (Dict.get_default "args" (JDict []) e) = true)
    by now apply wf_get_default.
  destruct (Dict.get_default "args" (JDict []) e); try constructor.
  now apply wf_dict_keys.
Qed.

(** ** Names in a parameter list *)

Lemma named_app n ps qs : named n (ps ++ qs) = named n ps ++ named n qs.
Proof. apply List.filter_app. Qed.

Lemma named_declared_none n pps items :
  In n pps -> named n (map declared_param (List.filter (kept pps) items)) = [].
Proof.
  intros Hn. induction items as [|kv items IH]; simpl; [reflexivity|].
  destruct (kept pps kv) eqn:Ek; [|exact IH]. simpl.
  unfold is_named. rewrite param_name_declared.
  destruct (String.eqb_spec (fst kv) n) as [E|_]; [|exact IH].
  unfold kept in Ek. subst n. apply mem_in in Hn. rewrite Hn in Ek. discriminate.
Qed.

Lemma named_path_params n pps :
  Forall (fun e => param_in e = Some "path"%string) (named n (map path_param pps))
  /\ length (named n (map path_param pps)) = count_occ string_dec pps n.
Proof.
  induction pps as [|k pps [IHf IHl]]; simpl; [split; [constructor | reflexivity]|].
  unfold is_named. rewrite param_name_path.
  destruct (String.eqb_spec k n) as [->|Hne].
  - destruct (string_dec n n); [|congruence].
    split; [constructor; auto | simpl; now rewrite IHl].
  - destruct (string_dec k n); [congruence|]. auto.
Qed.

Lemma parameters_of_build path details m ps :
  parameters_of (build_operation path details m ps) = ps.
Proof. reflexivity. Qed.

(** C2 (as amended): in every generated operation whose path template has
    a placeholder named [n] (such as [id]), all the entries named [n] are
    path parameters, one for each occurrence of the placeholder in the
    template: exactly one when it occurs once.  A declared argument of that
    name adds no entry. *)
Theorem path_parameter_precedence base routes doc p m op n :
  generate_openapi_spec base routes = Ok doc ->
  operation_in doc p m op ->
  In n (path_params_of p) ->
  Forall (fun e => param_in e = Some "path"%string) (named n (parameters_of op))
  /\ length (named n (parameters_of op)) = count_occ string_dec (path_params_of p) n
  /\ (count_occ string_dec (path_params_of p) n = 1 ->
      exists e, named n (parameters_of op) = [e]
                /\ param_in e = Some "path"%string).
Proof.
  intros H Hop Hn.
  destruct (generate_ok _ _ _ H) as (items & _ & -> & _).
  destruct (generated_operation_sound _ _ _ _ _ _ H Hop)
    as (route & details & e & _ & _ & _ & _ & ->).
  rewrite parameters_of_build, build_parameters_spec, named_app.
  rewrite (named_declared_none _ _ _ Hn), app_nil_r.
  destruct (named_path_params n (path_params_of p)) as [Hf Hl].
  repeat split; auto.
  intros H1. rewrite H1 in Hl.
  destruct (named n (map path_param (path_params_of p))) as [|x [|y l]];
    try discriminate.
  exists x. split; [reflexivity | now inversion Hf].
Qed.

Lemma param_names_declared items :
  param_names (map declared_param items) = map Some (Dict.keys items).
Proof.
  unfold param_names, Dict.keys. rewrite !map_map.
  apply map_ext. intros kv. apply param_name_declared.
Qed.

Lemma param_names_path pps : param_names (map path_param pps) = map Some pps.
Proof. unfold param_names. rewrite map_map. now apply map_ext. Qed.

Lemma nodup_filter_keys (f : string * json -> bool) (items : dict) :
  List.NoDup (Dict.keys items) -> List.NoDup (Dict.keys (List.filter f items)).
Proof.
  unfold Dict.keys. induction items as [|kv items IH]; simpl; [constructor|].
  intros H. inversion H as [|? ? Hnot Hnd]. subst.
  destruct (f kv); simpl; [|auto].
  constructor; [|auto].
  intros Hin. apply Hnot. apply in_map_iff in Hin as (x & E & Hx).
  apply List.filter_In in Hx as [Hx _]. apply in_map_iff. eauto.
Qed.

Lemma nodup_map_some (l : list string) : List.NoDup l -> List.NoDup (map Some l).
Proof.
  induction 1 as [|x l Hx Hl IH]; simpl; constructor; [|exact IH].
  intros Hin. apply in_map_iff in Hin as (y & E & Hy). inversion E. now subst.
Qed.

(** C3 (as amended): the parameter list of every generated operation is one
    path parameter for each placeholder of the path template, in order of
    occurrence and without removing repeats, followed by the parameters
    that [process_arg_details] gives for the declared arguments of the
    operation's endpoint whose names are no placeholder, in mapping order.
    The names of the list are the placeholders followed by the names of
    those arguments; the latter are pairwise different and differ from
    every placeholder, so all names of the list are pairwise different
    when no placeholder occurs twice in the template. *)
Theorem parameter_names base routes doc p m op :
  wf routes = true ->
  generate_openapi_spec base routes = Ok doc ->
  operation_in doc p m op ->
  exists items route details endpoint,
    routes = JDict items
    /\ In (route, JDict details) items
    /\ p = translate_path route
    /\ In (JDict endpoint) (endpoints_of details)
    /\ In m (method_names endpoint)
    /\ parameters_of op
       = map path_param (path_params_of p)
         ++ map declared_param
              (List.filter (kept (path_params_of p)) (declared_args endpoint))
    /\ param_names (parameters_of op)
       = map Some
           (path_params_of p
            ++ Dict.keys (List.filter (kept (path_params_of p))
                            (declared_args endpoint)))
    /\ (forall n,
          In n (Dict.keys (List.filter (kept (path_params_of p))
                             (declared_args endpoint)))
          <-> In n (Dict.keys (declared_args endpoint))
              /\ ~ In n (path_params_of p))
    /\ List.NoDup (Dict.keys (List.filter (kept (path_params_of p))
                                (declared_args endpoint)))
    /\ (List.NoDup (path_params_of p) ->
        List.NoDup (param_names (parameters_of op))).
Proof.
  intros Hwf H Hop.
  destruct (generate_ok _ _ _ H) as (items & _ & -> & _).
  destruct (generated_operation_sound _ _ _ _ _ _ H Hop)
    as (route & details & e & Hr & Hp & He & Hm & ->).
  assert (Hwe : wf (JDict e) = true).
  { eapply wf_endpoint; [|exact He]. eapply wf_dict_value; eauto. }
  set (pps := path_params_of p).
  set (items' := List.filter (kept pps) (declared_args e)).
  assert (Hnd : List.NoDup (Dict.keys items')).
  { apply nodup_filter_keys. now apply wf_declared_args. }
  assert (Hiff : forall n, In n (Dict.keys items')
                           <-> In n (Dict.keys (declared_args e)) /\ ~ In n pps).
  { intros n. unfold Dict.keys, items'. rewrite !in_map_iff. split.
    - intros (kv & <- & Hkv). apply List.filter_In in Hkv as [Hin Hk].
      split; [eauto|]. unfold kept in Hk.
      apply mem_not_in. now destruct (Str.mem (fst kv) pps).
    - intros [(kv & <- & Hin) Hno]. exists kv. split; [reflexivity|].
      apply List.filter_In. split; [exact Hin|].
      unfold kept. apply mem_not_in in Hno. now rewrite Hno. }
  assert (Hnames : param_names (map path_param pps ++ map declared_param items')
                   = map Some (pps ++ Dict.keys items')).
  { unfold param_names. rewrite !map_app.
    fold (param_names (map path_param pps)).
    fold (param_names (map declared_param items')).
    now rewrite param_names_path, param_names_declared. }
  exists items, route, details, e.
  rewrite parameters_of_build, build_parameters_spec. fold pps. fold items'.
  do 5 (split; [auto|]). split; [reflexivity|].
  split; [exact Hnames|]. split; [exact Hiff|]. split; [exact Hnd|].
  intros Hpp. rewrite Hnames. apply nodup_map_some.
  apply List.NoDup_app; [exact Hpp | exact Hnd |].
  intros n Hn Hn'. now apply (proj2 (proj1 (Hiff n) Hn')).
Qed.

(** ** Which inputs raise *)

Lemma is_ok_bind {A B : Type} (m : result A) (k : A -> result B) :
  is_ok (bind m k) = match m with Ok a => is_ok (k a) | Raise _ => false end.
Proof. now destruct m. Qed.

Lemma is_ok_true {A : Type} (r : result A) : is_ok r = true <-> exists a, r = Ok a.
Proof.
  destruct r as [a|e]; simpl; split; eauto; try discriminate.
  intros (a & H). discriminate H.
Qed.

Lemma methods_loop_is_ok path details endpoint ms : forall pi,
  is_ok (methods_loop path details endpoint ms pi) = forallb is_str ms.
Proof.
  induction ms as [|v ms IH]; intros pi; simpl; [reflexivity|].
  destruct v; simpl; auto.
Qed.

Lemma endpoints_loop_is_ok path details eps : forall pi,
  is_ok (endpoints_loop path details eps pi) = forallb endpoint_ok eps.
Proof.
  induction eps as [|e eps IH]; intros pi; simpl; [reflexivity|].
  destruct e as [| | | | |endpoint]; simpl; auto.
  unfold methods_ok. rewrite is_ok_bind.
  destruct (py_iter _) as [ms|]; simpl; [|reflexivity].
  rewrite is_ok_bind.
  pose proof (methods_loop_is_ok path details endpoint ms pi) as Hm.
  destruct (methods_loop _ _ _ _ _) as [pi1|]; simpl in *; rewrite <- Hm; auto.
Qed.

Lemma route_step_is_ok route details paths :
  is_ok (route_step route details paths) = details_ok details.
Proof.
  unfold route_step, route_path_item, details_ok, Dict.has, Dict.get_default.
  destruct details as [| | | | |d]; try reflexivity.
  destruct (Dict.get "endpoints" d) as [eps|]; [|reflexivity].
  rewrite !is_ok_bind.
  destruct (py_iter eps) as [l|]; simpl; [|reflexivity].
  pose proof (endpoints_loop_is_ok (translate_path route) d l []) as Hl.
  destruct (endpoints_loop _ _ _ _) as [pi|]; simpl in *; rewrite <- Hl; auto.
  now destruct (Dict.truthy pi).
Qed.

Lemma routes_loop_is_ok items : forall paths,
  is_ok (routes_loop items paths) = routes_ok items.
Proof.
  induction items as [|[r d] items IH]; intros paths; simpl; [reflexivity|].
  rewrite is_ok_bind.
  pose proof (route_step_is_ok r d paths) as Hs.
  destruct (route_step r d paths) as [paths1|]; simpl in *; rewrite <- Hs; auto.
Qed.

(** The exceptions that the loops raise. *)

Lemma methods_loop_raises path details endpoint ms : forall pi e,
  methods_loop path details endpoint ms pi = Raise e -> e = AttributeError.
Proof.
  induction ms as [|v ms IH]; intros pi e H; simpl in H; [discriminate|].
  destruct v; simpl in H; try (now inversion H). eauto.
Qed.

Lemma endpoints_loop_raises path details eps : forall pi e,
  endpoints_loop path details eps pi = Raise e ->
  e = TypeError \/ e = AttributeError.
Proof.
  induction eps as [|ep eps IH]; intros pi e H; simpl in H; [discriminate|].
  destruct ep as [| | | | |endpoint]; try (right; now inversion H).
  destruct (py_iter (Dict.get_default "methods" (JList []) endpoint)) as [ms|e0] eqn:Ei;
    simpl in H.
  - destruct (methods_loop path details endpoint ms pi) as [pi1|e1] eqn:Em;
      simpl in H; [eauto|].
    inversion H. subst. right. eapply methods_loop_raises; eauto.
  - inversion H. subst. left.
    destruct (Dict.get_default "methods" (JList []) endpoint); simpl in Ei;
      now inversion Ei.
Qed.

Lemma route_path_item_raises path details e :
  route_path_item path details = Raise e -> e = TypeError \/ e = AttributeError.
Proof.
  unfold route_path_item. destruct details as [| | | | |d]; try discriminate.
  destruct (Dict.has "endpoints" d); [|discriminate].
  destruct (py_iter (Dict.get_default "endpoints" (JList []) d)) as [eps|e0] eqn:Ei;
    simpl.
  - destruct (endpoints_loop path d eps []) as [pi|e1] eqn:El; simpl; [discriminate|].
    intros H. inversion H. subst. eapply endpoints_loop_raises; eauto.
  - intros H. inversion H. subst. left.
    destruct (Dict.get_default "endpoints" (JList []) d); simpl in Ei;
      now inversion Ei.
Qed.

Lemma route_step_raises route details paths e :
  route_step route details paths = Raise e -> e = TypeError \/ e = AttributeError.
Proof.
  unfold route_step.
  destruct (route_path_item (translate_path route) details) as [[pi|]|e0] eqn:E;
    simpl; try discriminate.
  - destruct (Dict.truthy pi); discriminate.
  - intros H. inversion H. subst. eapply route_path_item_raises; eauto.
Qed.

Lemma routes_loop_raises items : forall paths e,
  routes_loop items paths = Raise e -> e = TypeError \/ e = AttributeError.
Proof.
  induction items as [|[r d] items IH]; intros paths e H; simpl in H;
    [discriminate|].
  destruct (route_step r d paths) as [paths1|e1] eqn:E; simpl in H; [eauto|].
  inversion H. subst. eapply route_step_raises; eauto.
Qed.

(** C4 (as amended): [generate_openapi_spec] returns a document exactly when
    every route metadata that is a mapping with an [endpoints] key has there
    an iterable whose elements are mappings, each with a [methods] that is
    absent or an iterable of strings; on any other input it raises a
    [TypeError] or an [AttributeError].  A route whose metadata is no
    mapping or has no [endpoints] is omitted: the outcome is that for the
    input without the route.  An endpoint without [methods] gives no
    operation: it leaves the PathItem as it is.  An endpoint whose [args]
    is absent or no mapping gives no declared parameter, and an argument
    spec that is no mapping gives the default parameter. *)
Theorem graceful_degradation base routes :
  (routes_ok routes = true <->
   exists doc, generate_openapi_spec base (JDict routes) = Ok doc)
  /\ (routes_ok routes = false ->
      exists e, generate_openapi_spec base (JDict routes) = Raise e
                /\ (e = TypeError \/ e = AttributeError))
  /\ (forall pre route details post,
        routes = (pre ++ (route, details) :: post)%list ->
        (forall d, details <> JDict d)
        \/ (exists d, details = JDict d /\ Dict.has "endpoints" d = false) ->
        generate_openapi_spec base (JDict routes)
        = generate_openapi_spec base (JDict (pre ++ post)))
  /\ (forall path details endpoint rest path_item,
        Dict.get "methods" endpoint = None ->
        endpoints_loop path details (JDict endpoint :: rest) path_item
        = endpoints_loop path details rest path_item)
  /\ (forall n v, (forall d, v <> JDict d) ->
        process_arg_details n v = JDict (default_param n))
  /\ (forall path endpoint,
        (forall a, Dict.get "args" endpoint <> Some (JDict a)) ->
        build_parameters path endpoint = map path_param (path_params_of path)).
Proof.
  assert (Hiff : routes_ok routes = true <->
                 exists doc, generate_openapi_spec base (JDict routes) = Ok doc).
  { split.
    - intros H. apply is_ok_true. simpl. rewrite is_ok_bind.
      pose proof (routes_loop_is_ok routes []) as Hl. rewrite H in Hl.
      now destruct (routes_loop routes []).
    - intros Hd. apply is_ok_true in Hd. simpl in Hd. rewrite is_ok_bind in Hd.
      rewrite <- (routes_loop_is_ok routes []).
      now destruct (routes_loop routes []). }
  split; [exact Hiff|]. split; [|split; [|split; [|split]]].
  - intros Hno. simpl.
    destruct (routes_loop routes []) as [paths|e] eqn:E; simpl.
    + assert (Hok : routes_ok routes = true) by (apply Hiff; simpl; rewrite E; simpl; eauto).
      congruence.
    + exists e. split; [reflexivity|]. eapply routes_loop_raises; eauto.
  - intros pre route details post -> Hcause. simpl.
    rewrite routes_loop_skip; [reflexivity|].
    destruct Hcause as [Hn|Hd]; [now left | right; now left].
  - intros path details endpoint rest path_item Hm. simpl.
    unfold Dict.get_default. now rewrite Hm.
  - intros n v Hv. destruct v; try reflexivity. now destruct (Hv d).
  - intros path endpoint Hargs. rewrite build_parameters_spec.
    unfold declared_args, Dict.get_default.
    destruct (Dict.get "args" endpoint) as [a|] eqn:E;
      [|simpl; now rewrite app_nil_r].
    destruct a; simpl; rewrite ?app_nil_r; try reflexivity.
    now destruct (Hargs d).
Qed.

(** ** The properties on sample inputs *)

Lemma in_hd {A : Type} (x : A) (l : list A) : In x (x :: l).
Proof. now left. Qed.

(** C2: with the placeholder [{id}] twice in the route and a declared
    argument [id], the operation has two entries named [id], not one. *)
Lemma precedence_fails_on_repeated_placeholder : ~ spec_parameter_precedence.
Proof.
  intros H.
  destruct (H Sample.base Sample.twice Sample.twice_doc "/{id}/{id}"%string
              [("description", JStr "Y");
               ("endpoints", JList [Sample.endpoint ["GET"%string] Sample.post_args])]
              [("methods", JList [JStr "GET"]); ("args", JDict Sample.post_args)]
              Sample.post_args "get"%string
              (build_operation "/{id}/{id}"
                 [("description", JStr "Y");
                  ("endpoints", JList [Sample.endpoint ["GET"%string] Sample.post_args])]
                 "get"
                 (build_parameters "/{id}/{id}"
                    [("methods", JList [JStr "GET"]); ("args", JDict Sample.post_args)])))
    as (e & He & _).
  - reflexivity.
  - reflexivity.
  - apply in_hd.
  - vm_compute. now left.
  - apply in_hd.
  - reflexivity.
  - reflexivity.
  - eexists. split; [apply in_hd | apply in_hd].
  - vm_compute in He. discriminate He.
Qed.

Lemma path_parameter_precedence_witness :
  generate_openapi_spec Sample.base (JDict Sample.braces) = Ok Sample.braces_doc
  /\ In "id"%string (path_params_of "/x/{id}")
  /\ exists op e,
       operation_in Sample.braces_doc "/x/{id}" "get" op
       /\ named "id" (parameters_of op) = [e]
       /\ param_in e = Some "path"%string.
Proof.
  assert (Hgen : generate_openapi_spec Sample.base (JDict Sample.braces)
                 = Ok Sample.braces_doc) by reflexivity.
  assert (Hin : In "id"%string (path_params_of "/x/{id}")) by (vm_compute; now left).
  split; [exact Hgen|]. split; [exact Hin|].
  set (op := build_operation "/x/{id}"
               [("description", JStr "X");
                ("endpoints", JList [Sample.endpoint ["GET"%string] Sample.post_args])]
               "get"
               (build_parameters "/x/{id}"
                  [("methods", JList [JStr "GET"]); ("args", JDict Sample.post_args)])).
  assert (Hop : operation_in Sample.braces_doc "/x/{id}" "get" op).
  { eexists. split; [apply in_hd | apply in_hd]. }
  destruct (path_parameter_precedence _ _ _ _ _ _ _ Hgen Hop Hin) as (_ & _ & H1).
  destruct (H1 eq_refl) as (e & He & Hp).
  exists op, e. auto.
Defined.

(** C3: with the same capture group twice in the route pattern, the
    operation has two parameters of one name. *)
Lemma names_repeat_with_repeated_group : ~ spec_unique_parameter_names.
Proof.
  intros H.
  assert (Hop : operation_in Sample.group_twice_doc "/a//{{id}}//{{id}}" "get"
                  (build_operation "/a//{{id}}//{{id}}"
                     [("description", JStr "Z");
                      ("endpoints", JList [Sample.endpoint ["GET"%string] []])]
                     "get"
                     (build_parameters "/a//{{id}}//{{id}}"
                        [("methods", JList [JStr "GET"]); ("args", JDict [])]))).
  { eexists. split; [apply in_hd | apply in_hd]. }
  specialize (H Sample.base (JDict Sample.group_twice) _ _ _ _ eq_refl eq_refl Hop).
  vm_compute in H. inversion H as [|x l Hx _]. apply Hx. now left.
Qed.

Lemma parameter_names_witness :
  wf (JDict Sample.posts) = true
  /\ generate_openapi_spec Sample.base (JDict Sample.posts) = Ok Sample.posts_doc
  /\ exists op,
       operation_in Sample.posts_doc "/posts//{{id}}" "post" op
       /\ List.NoDup (path_params_of "/posts//{{id}}")
       /\ param_names (parameters_of op)
          = [Some "{id"; Some "id"; Some "context"]%string
       /\ List.NoDup (param_names (parameters_of op)).
Proof.
  assert (Hwf : wf (JDict Sample.posts) = true) by reflexivity.
  assert (Hgen : generate_openapi_spec Sample.base (JDict Sample.posts)
                 = Ok Sample.posts_doc) by reflexivity.
  split; [exact Hwf|]. split; [exact Hgen|].
  set (op := build_operation "/posts//{{id}}"
               [("description", JStr "Post");
                ("endpoints",
                 JList [Sample.endpoint ["GET"%string; "POST"%string] Sample.post_args])]
               "post"
               (build_parameters "/posts//{{id}}"
                  [("methods", JList [JStr "GET"; JStr "POST"]);
                   ("args", JDict Sample.post_args)])).
  assert (Hop : operation_in Sample.posts_doc "/posts//{{id}}" "post" op).
  { eexists. split; [apply in_hd | right; apply in_hd]. }
  assert (Hnd : List.NoDup (path_params_of "/posts//{{id}}")).
  { vm_compute. constructor; [intros [] | constructor]. }
  destruct (parameter_names _ _ _ _ _ _ Hwf Hgen Hop)
    as (items & route & details & e & _ & _ & _ & _ & _ & _ & _ & _ & _ & Hall).
  exists op. split; [exact Hop|]. split; [exact Hnd|].
  split; [reflexivity | exact (Hall Hnd)].
Defined.

(** C4: metadata whose [endpoints] is [None] makes the loop over the
    endpoints raise [TypeError]. *)
Lemma null_endpoints_raise : ~ spec_never_raises.
Proof.
  intros H.
  destruct (H Sample.base Sample.null_endpoints eq_refl) as (doc & Hdoc).
  vm_compute in Hdoc. discriminate Hdoc.
Qed.

Lemma graceful_degradation_witness :
  routes_ok Sample.with_empty = true
  /\ (exists doc,
        generate_openapi_spec Sample.base (JDict Sample.with_empty) = Ok doc)
  /\ generate_openapi_spec Sample.base (JDict Sample.with_empty)
     = generate_openapi_spec Sample.base
         (JDict [("/wp/v2/a"%string,
                  Sample.details "A" [Sample.endpoint ["GET"%string] []])])
  /\ routes_ok Sample.null_endpoints = false
  /\ exists e,
       generate_openapi_spec Sample.base (JDict Sample.null_endpoints) = Raise e
       /\ (e = TypeError \/ e = AttributeError).
Proof.
  assert (Hok : routes_ok Sample.with_empty = true) by reflexivity.
  assert (Hno : routes_ok Sample.null_endpoints = false) by reflexivity.
  split; [exact Hok|].
  split; [exact (proj1 (proj1 (graceful_degradation Sample.base Sample.with_empty))
                   Hok)|].
  split.
  - apply (proj1 (proj2 (proj2 (graceful_degradation Sample.base Sample.with_empty)))
             [("/wp/v2/a"%string,
               Sample.details "A" [Sample.endpoint ["GET"%string] []])]
             "/wp/v2/b"%string (JStr "no metadata") [] eq_refl).
    left. intros d. discriminate.
  - split; [exact Hno|].
    exact (proj1 (proj2 (graceful_degradation Sample.base Sample.null_endpoints))
             Hno).
Defined.

Lemma empty_routes_omitted_witness :
  generate_openapi_spec Sample.base (JDict Sample.with_empty)
  = Ok Sample.with_empty_doc
  /\ yields_no_operations "/wp/v2/b" (JStr "no metadata")
  /\ generate_openapi_spec Sample.base
       (JDict [("/wp/v2/a"%string, Sample.details "A" [Sample.endpoint ["GET"%string] []])])
     = Ok Sample.with_empty_doc
  /\ forall v, ~ In ("/b"%string, v) (paths_of Sample.with_empty_doc).
Proof.
  assert (Hgen : generate_openapi_spec Sample.base (JDict Sample.with_empty)
                 = Ok Sample.with_empty_doc) by reflexivity.
  assert (Hno : yields_no_operations "/wp/v2/b" (JStr "no metadata")).
  { left. intros d. discriminate. }
  split; [exact Hgen|]. split; [exact Hno|].
  destruct (empty_routes_omitted _ _ _ Hgen) as [_ Hskip].
  destruct (Hskip [("/wp/v2/a"%string,
                    Sample.details "A" [Sample.endpoint ["GET"%string] []])]
                  "/wp/v2/b"%string (JStr "no metadata") [] eq_refl Hno)
    as [Hsame Habsent].
  split; [exact Hsame|].
  apply Habsent. intros r d [E|[]]. inversion E. subst.
  intros E'. vm_compute in E'. discriminate E'.
Defined.

Lemma responses_fixed_witness :
  generate_openapi_spec Sample.base (JDict Sample.posts) = Ok Sample.posts_doc
  /\ exists op r,
       operation_in Sample.posts_doc "/posts//{{id}}" "get" op
       /\ field "responses" op = Some (JDict r)
       /\ Dict.keys r = ["200"; "400"; "401"; "404"]%string.
Proof.
  assert (Hgen : generate_openapi_spec Sample.base (JDict Sample.posts)
                 = Ok Sample.posts_doc) by reflexivity.
  split; [exact Hgen|].
  set (op := build_operation "/posts//{{id}}"
               [("description", JStr "Post");
                ("endpoints",
                 JList [Sample.endpoint ["GET"%string; "POST"%string] Sample.post_args])]
               "get"
               (build_parameters "/posts//{{id}}"
                  [("methods", JList [JStr "GET"; JStr "POST"]);
                   ("args", JDict Sample.post_args)])).
  assert (Hop : operation_in Sample.posts_doc "/posts//{{id}}" "get" op).
  { eexists. split; [apply in_hd | apply in_hd]. }
  destruct (responses_fixed _ _ _ _ _ _ Hgen Hop) as (r & Hr & Hk).
  exists op, r. auto.
Defined.

Lemma later_endpoint_overwrites_witness :
  route_path_item "/a" (JDict Sample.two_endpoints) = Ok (Some Sample.two_endpoints_item)
  /\ In "get"%string (method_names Sample.second_endpoint)
  /\ Dict.get "get" Sample.two_endpoints_item
     = Some (build_operation "/a" Sample.two_endpoints "get"
               (build_parameters "/a" Sample.second_endpoint)).
Proof.
  assert (Hitem : route_path_item "/a" (JDict Sample.two_endpoints)
                  = Ok (Some Sample.two_endpoints_item)) by reflexivity.
  assert (Hm : In "get"%string (method_names Sample.second_endpoint))
    by (vm_compute; now left).
  split; [exact Hitem|]. split; [exact Hm|].
  apply (later_endpoint_overwrites "/a" Sample.two_endpoints
           [JDict Sample.first_endpoint] Sample.second_endpoint [] _ "get"
           Hitem eq_refl Hm).
  intros e [].
Defined.

(** C9: the later of two routes with one translated path has no
    operation; the key then keeps the PathItem of the earlier route. *)
Lemma empty_later_route_does_not_replace : ~ spec_later_route_replaces.
Proof.
  intros H.
  specialize (H Sample.base []
                "/a"%string (Sample.details "first" [Sample.endpoint ["GET"%string] []])
                []
                "/wp/v2/a"%string (Sample.details "second" [])
                [] Sample.not_shadowed_doc [] eq_refl eq_refl).
  assert (Hget : Dict.get (translate_path "/wp/v2/a") (paths_of Sample.not_shadowed_doc)
                 = Some (JDict [])).
  { apply H.
    - discriminate.
    - reflexivity.
    - intros r d [].
    - reflexivity. }
  vm_compute in Hget. discriminate Hget.
Qed.

Lemma later_route_overwrites_witness :
  generate_openapi_spec Sample.base (JDict Sample.shadowed) = Ok Sample.shadowed_doc
  /\ translate_path "/a" = translate_path "/wp/v2/a"
  /\ route_path_item (translate_path "/wp/v2/a")
       (Sample.details "second" [Sample.endpoint ["POST"%string] []])
     = Ok (Some Sample.second_item)
  /\ Sample.second_item <> []
  /\ Dict.get (translate_path "/wp/v2/a") (paths_of Sample.shadowed_doc)
     = Some (JDict Sample.second_item)
  /\ generate_openapi_spec Sample.base (JDict Sample.not_shadowed)
     = Ok Sample.not_shadowed_doc
  /\ yields_no_operations "/wp/v2/a" (Sample.details "second" [])
  /\ exists before,
       generate_openapi_spec Sample.base
         (JDict [("/a"%string,
                  Sample.details "first" [Sample.endpoint ["GET"%string] []])])
       = Ok before
       /\ Dict.get (translate_path "/wp/v2/a") (paths_of Sample.not_shadowed_doc)
          = Dict.get (translate_path "/wp/v2/a") (paths_of before).
Proof.
  assert (Hgen : generate_openapi_spec Sample.base (JDict Sample.shadowed)
                 = Ok Sample.shadowed_doc) by reflexivity.
  assert (Hitem : route_path_item (translate_path "/wp/v2/a")
                    (Sample.details "second" [Sample.endpoint ["POST"%string] []])
                  = Ok (Some Sample.second_item)) by reflexivity.
  assert (Hne : Sample.second_item <> []) by discriminate.
  assert (Hgen' : generate_openapi_spec Sample.base (JDict Sample.not_shadowed)
                  = Ok Sample.not_shadowed_doc) by reflexivity.
  assert (Hno : yields_no_operations "/wp/v2/a" (Sample.details "second" []))
    by (right; right; reflexivity).
  split; [exact Hgen|]. split; [reflexivity|]. split; [exact Hitem|].
  split; [exact Hne|].
  split.
  - apply (proj1 (later_route_overwrites Sample.base
             [("/a"%string, Sample.details "first" [Sample.endpoint ["GET"%string] []])]
             "/wp/v2/a"
             (Sample.details "second" [Sample.endpoint ["POST"%string] []])
             [] Sample.shadowed_doc Hgen (fun r d (H : In (r, d) []) => match H with end))
             Sample.second_item Hitem Hne).
  - split; [exact Hgen'|]. split; [exact Hno|].
    exact (proj2 (proj2 (later_route_overwrites Sample.base
             [("/a"%string, Sample.details "first" [Sample.endpoint ["GET"%string] []])]
             "/wp/v2/a" (Sample.details "second" [])
             [] Sample.not_shadowed_doc Hgen'
             (fun r d (H : In (r, d) []) => match H with end)) Hno)).
Defined.

(** ** What the calls write *)

Module StoreFacts.
Import Store.

Lemma keeps_refl n h : keeps n h h.
Proof. split; [lia | reflexivity]. Qed.

Lemma keeps_trans n h1 h2 h3 : keeps n h1 h2 -> keeps n h2 h3 -> keeps n h1 h3.
Proof. intros [L1 T1] [L2 T2]. split; [lia | congruence]. Qed.

Lemma keeps_le n n' h h' : n' <= n -> keeps n h h' -> keeps n' h h'.
Proof.
  intros Hle [L T]. split; [exact L|].
  replace n' with (n' `min` n) by lia. rewrite <- !take_take. now rewrite T.
Qed.

Lemma keeps_alloc n (h : store) o : n <= length h -> keeps n h (h ++ [o]).
Proof.
  intros Hn. split; [rewrite length_app; lia | now apply take_app_le].
Qed.

Lemma keeps_insert n (h : store) a o : n <= a -> keeps n h (<[a := o]> h).
Proof.
  intros Ha. split; [rewrite length_insert; lia | now apply take_insert_ge].
Qed.

Lemma keeps_lookup n (h h' : store) a :
  keeps n h h' -> a < n -> h' !! a = h !! a.
Proof.
  intros [_ T] Ha.
  rewrite <- (lookup_take_lt h' n a Ha), <- (lookup_take_lt h n a Ha).
  now rewrite T.
Qed.

Lemma keeps_prefix (h h' : store) :
  keeps (length h) h h' -> exists fresh, h' = h ++ fresh.
Proof.
  intros [_ T]. exists (drop (length h) h').
  rewrite <- (take_drop (length h) h') at 1. rewrite T.
  now rewrite take_ge by lia.
Qed.

(** *** Rules *)

Lemma safe_ret {A : Type} n (a : A) (Q : A -> Prop) : Q a -> safe n (ret a) Q.
Proof.
  intros HQ h Hn. split; [apply keeps_refl|].
  intros a' E. now inversion E; subst.
Qed.

Lemma safe_raise {A : Type} n e (Q : A -> Prop) : safe n (raise e) Q.
Proof. intros h Hn. split; [apply keeps_refl | discriminate]. Qed.

Lemma safe_bind {A B : Type} n (m : M A) (k : A -> M B) Q R :
  safe n m Q -> (forall a, Q a -> safe n (k a) R) -> safe n (bind m k) R.
Proof.
  intros Hm Hk h Hn. unfold bind.
  destruct (Hm h Hn) as [Hkeep HQ].
  destruct (m h) as [h' [a|e]]; simpl in *.
  - assert (Hn' : n <= length h') by (destruct Hkeep; lia).
    destruct (Hk a (HQ a eq_refl) h' Hn') as [Hkeep' HR].
    split; [eapply keeps_trans; eauto | exact HR].
  - split; [exact Hkeep | discriminate].
Qed.

Lemma safe_post {A : Type} n (m : M A) (Q Q' : A -> Prop) :
  safe n m Q -> (forall a, Q a -> Q' a) -> safe n m Q'.
Proof.
  intros Hm HQ h Hn. destruct (Hm h Hn) as [Hkeep Hq]. split; auto.
Qed.

(** A computation that hands back the store it was given. *)
Lemma safe_read {A : Type} n (m : M A) :
  (forall h, fst (m h) = h) -> safe n m (fun _ => True).
Proof.
  intros Hm h Hn. rewrite Hm. split; [apply keeps_refl | auto].
Qed.

Lemma safe_as_dict n v : safe n (as_dict v) (fun _ => True).
Proof. now apply safe_read. Qed.

Lemma safe_as_list n v : safe n (as_list v) (fun _ => True).
Proof. now apply safe_read. Qed.

Lemma safe_iter n v : safe n (iter v) (fun _ => True).
Proof. now apply safe_read. Qed.

Lemma safe_truthy n v : safe n (truthy v) (fun _ => True).
Proof. now apply safe_read. Qed.

Lemma safe_items n v : safe n (items v) (fun _ => True).
Proof.
  apply safe_read. intros h. unfold items, bind, as_dict. simpl.
  now destruct (deref v h) as [[|]|].
Qed.

Lemma safe_lower n v : safe n (lower v) (fun _ => True).
Proof. apply safe_read. intros h. now destruct v. Qed.

Lemma safe_alloc n o : safe n (alloc o) (beyond n).
Proof.
  intros h Hn. simpl. split; [now apply keeps_alloc|].
  intros a E. inversion E. subst. exact Hn.
Qed.

Lemma safe_setitem n d k v : beyond n d -> safe n (setitem d k v) (fun _ => True).
Proof.
  intros Hd h Hn. unfold setitem.
  destruct d as [| | | |a]; simpl; try (split; [apply keeps_refl | auto]).
  destruct (h !! a) as [[|kvs]|]; simpl; try (split; [apply keeps_refl | auto]).
  split; [now apply keeps_insert | auto].
Qed.

Lemma safe_append n l v : beyond n l -> safe n (append l v) (fun _ => True).
Proof.
  intros Hl h Hn. unfold append.
  destruct l as [| | | |a]; simpl; try (split; [apply keeps_refl | auto]).
  destruct (h !! a) as [[vs|]|]; simpl; try (split; [apply keeps_refl | auto]).
  split; [now apply keeps_insert | auto].
Qed.

Lemma safe_update n d u : beyond n d -> safe n (update d u) (fun _ => True).
Proof.
  intros Hd h Hn. unfold update.
  destruct d as [| | | |a]; simpl; try (split; [apply keeps_refl | auto]).
  destruct (h !! a) as [[|kvs]|]; simpl; try (split; [apply keeps_refl | auto]).
  destruct (deref u h) as [[|ukvs]|]; simpl; try (split; [apply keeps_refl | auto]).
  split; [now apply keeps_insert | auto].
Qed.

Lemma safe_for_each {X : Type} n (xs : list X) (body : X -> M unit) :
  (forall x, safe n (body x) (fun _ => True)) ->
  safe n (for_each xs body) (fun _ => True).
Proof.
  intros Hb. induction xs as [|x xs IH]; simpl.
  - now apply safe_ret.
  - eapply safe_bind; [apply Hb | intros _ _; exact IH].
Qed.

(** *** The functions of the program *)

Tactic Notation "safe_bind" constr(H) "as" ident(x) ident(Hx) :=
  eapply safe_bind; [apply H | cbv beta; intros x Hx].

Lemma safe_process_arg_details n arg_name arg_details :
  safe n (process_arg_details arg_name arg_details) (beyond n).
Proof.
  unfold process_arg_details.
  safe_bind safe_alloc as schema0 Hschema0.
  safe_bind safe_alloc as param Hparam.
  safe_bind safe_as_dict as is_dict Hd.
  destruct is_dict as [details|]; [|now apply safe_ret].
  safe_bind safe_as_list as is_list Hl.
  safe_bind safe_alloc as schema Hschema.
  eapply safe_bind with (Q := fun _ => True).
  { destruct (Dict.get "enum" details);
      [now apply safe_setitem | now apply safe_ret]. }
  intros _ _.
  safe_bind safe_alloc as changes Hchanges.
  eapply safe_bind; [now apply safe_update | intros _ _].
  now apply safe_ret.
Qed.

Lemma safe_add_path_param n parameters param_name :
  beyond n parameters ->
  safe n (add_path_param parameters param_name) (fun _ => True).
Proof.
  intros Hp. unfold add_path_param.
  safe_bind safe_alloc as schema Hschema.
  safe_bind safe_alloc as param Hparam.
  now apply safe_append.
Qed.

Lemma safe_add_declared_arg n path_params parameters arg :
  beyond n parameters ->
  safe n (add_declared_arg path_params parameters arg) (fun _ => True).
Proof.
  intros Hp. unfold add_declared_arg. destruct arg as [arg_name arg_details].
  destruct (negb (Str.mem arg_name path_params)); [|now apply safe_ret].
  safe_bind safe_process_arg_details as param Hparam.
  now apply safe_append.
Qed.

Lemma safe_build_parameters n path endpoint :
  safe n (build_parameters path endpoint) (beyond n).
Proof.
  unfold build_parameters.
  safe_bind safe_alloc as parameters Hparameters.
  safe_bind safe_alloc as found Hfound.
  eapply safe_bind;
    [apply safe_for_each; intros; now apply safe_add_path_param | intros _ _].
  safe_bind safe_alloc as default Hdefault.
  safe_bind safe_as_dict as is_dict Hd.
  eapply safe_bind with (Q := fun _ => True).
  { destruct is_dict as [args|]; [|now apply safe_ret].
    apply safe_for_each. intros. now apply safe_add_declared_arg. }
  intros _ _. now apply safe_ret.
Qed.

Lemma safe_build_operation n path details method parameters :
  safe n (build_operation path details method parameters) (beyond n).
Proof.
  unfold build_operation.
  safe_bind safe_alloc as r200 H200.
  safe_bind safe_alloc as r400 H400.
  safe_bind safe_alloc as r401 H401.
  safe_bind safe_alloc as r404 H404.
  safe_bind safe_alloc as responses Hresponses.
  apply safe_alloc.
Qed.

Lemma safe_method_body n path details endpoint path_item method :
  beyond n path_item ->
  safe n (method_body path details endpoint path_item method) (fun _ => True).
Proof.
  intros Hp. unfold method_body.
  safe_bind safe_lower as lowered Hlowered.
  safe_bind safe_build_parameters as parameters Hparameters.
  safe_bind safe_build_operation as operation Hoperation.
  now apply safe_setitem.
Qed.

Lemma safe_endpoint_body n path details path_item endpoint :
  beyond n path_item ->
  safe n (endpoint_body path details path_item endpoint) (fun _ => True).
Proof.
  intros Hp. unfold endpoint_body, entries.
  safe_bind safe_items as fields Hfields.
  safe_bind safe_alloc as default Hdefault.
  safe_bind safe_iter as methods Hmethods.
  apply safe_for_each. intros. now apply safe_method_body.
Qed.

Lemma safe_route_path_item n path details :
  safe n (route_path_item path details)
       (fun built => forall path_item, built = Some path_item -> beyond n path_item).
Proof.
  unfold route_path_item.
  safe_bind safe_alloc as path_item Hpath_item.
  safe_bind safe_as_dict as is_dict Hd.
  destruct is_dict as [d|]; [|apply safe_ret; discriminate].
  destruct (Dict.has "endpoints" d); [|apply safe_ret; discriminate].
  safe_bind safe_alloc as default Hdefault.
  safe_bind safe_iter as endpoints Hendpoints.
  eapply safe_bind;
    [apply safe_for_each; intros; now apply safe_endpoint_body | intros _ _].
  apply safe_ret. intros pi E. now inversion E; subst.
Qed.

Lemma route_body_keeps n spec paths fields item h :
  n <= spec ->
  n <= paths ->
  paths <> spec ->
  Dict.get "paths" fields = Some (VRef paths) ->
  spec_in_place spec fields h ->
  keeps n h (fst (route_body (VRef spec) item h))
  /\ spec_in_place spec fields (fst (route_body (VRef spec) item h)).
Proof.
  intros Hs Hp Hne Hf Hh. unfold route_body. destruct item as [route details].
  set (path := translate_path route).
  assert (Hlen : S spec <= length h) by (apply lookup_lt_Some in Hh; lia).
  destruct (safe_route_path_item (S spec) path details h Hlen) as [Hk _].
  unfold bind.
  destruct (route_path_item path details h) as [h1 [built|e]]; cbn [fst snd] in *.
  2: { split; [apply (keeps_le (S spec)); [lia | exact Hk]|].
       unfold spec_in_place. now rewrite (keeps_lookup _ _ _ _ Hk) by lia. }
  assert (Hk1 : keeps n h h1) by (apply (keeps_le (S spec)); [lia | exact Hk]).
  assert (Hh1 : spec_in_place spec fields h1).
  { unfold spec_in_place. now rewrite (keeps_lookup _ _ _ _ Hk) by lia. }
  destruct built as [path_item|]; [|now split].
  unfold truthy.
  match goal with |- context [if ?b then _ else _] => destruct b end;
    [|now split].
  unfold getitem, bind, as_dict. cbn [deref]. rewrite Hh1, Hf.
  unfold ret, setitem.
  destruct (h1 !! paths) as [[|kvs]|]; cbn [fst]; try now split.
  split.
  - eapply keeps_trans; [exact Hk1 | now apply keeps_insert].
  - unfold spec_in_place. now rewrite list_lookup_insert_ne.
Qed.

Lemma routes_loop_keeps n spec paths fields items : forall h,
  n <= spec ->
  n <= paths ->
  paths <> spec ->
  Dict.get "paths" fields = Some (VRef paths) ->
  spec_in_place spec fields h ->
  keeps n h (fst (for_each items (route_body (VRef spec)) h)).
Proof.
  induction items as [|item items IH]; intros h Hs Hp Hne Hf Hh; simpl.
  - apply keeps_refl.
  - destruct (route_body_keeps n spec paths fields item h Hs Hp Hne Hf Hh)
      as [Hk Hh'].
    unfold bind.
    destruct (route_body (VRef spec) item h) as [h1 [[]|e]]; simpl in *;
      [|exact Hk].
    eapply keeps_trans; [exact Hk | now apply IH].
Qed.

Lemma after_envelope_keeps n spec paths fields routes h :
  n <= spec ->
  n <= paths ->
  paths <> spec ->
  Dict.get "paths" fields = Some (VRef paths) ->
  spec_in_place spec fields h ->
  keeps n h
    (fst ((kvs <- items routes ;;
           for_each kvs (route_body (VRef spec)) ;;
           ret (VRef spec))%store h)).
Proof.
  intros Hs Hp Hne Hf Hh. unfold bind at 1.
  assert (Ei : fst (items routes h) = h).
  { unfold items, bind, as_dict. cbn [deref].
    now destruct (deref routes h) as [[|]|]. }
  destruct (items routes h) as [h1 [kvs|e]]; cbn [fst] in Ei; subst h1;
    [|apply keeps_refl].
  pose proof (routes_loop_keeps n spec paths fields kvs h Hs Hp Hne Hf Hh) as Hl.
  unfold bind.
  now destruct (for_each kvs (route_body (VRef spec)) h) as [h2 [[]|e]].
Qed.

Lemma generate_openapi_spec_keeps base_url routes h :
  keeps (length h) h (fst (generate_openapi_spec base_url routes h)).
Proof.
  unfold generate_openapi_spec.
  do 5 (unfold bind at 1, alloc at 1).
  eapply keeps_trans;
    [|eapply after_envelope_keeps with (n := length h) (paths := length h + 3)].
  all: try (rewrite !length_app; cbn [length]); try lia.
  3: { unfold spec_in_place.
       rewrite lookup_app_r; rewrite !length_app; cbn [length]; [|lia].
       replace (_ - _) with 0 by lia. reflexivity. }
  - repeat (eapply keeps_trans; [|apply keeps_alloc; rewrite ?length_app; lia]).
    apply keeps_refl.
  - cbn [Dict.get String.eqb Ascii.eqb Bool.eqb]. do 2 f_equal. lia.
Qed.

(** C10: a call of [generate_openapi_spec] or of [process_arg_details],
    whether it returns or raises, leaves every object that was in the store
    before it as it was: the store after the call is the store before it
    followed by the objects the call created.  The objects of the input --
    the routes mapping, the metadata of the routes, the endpoint entries,
    the argument specs, and whatever else they refer to -- are among those
    left as they were. *)
Theorem inputs_not_mutated (h : store) base_url routes arg_name arg_details :
  (exists created,
     fst (generate_openapi_spec base_url routes h) = h ++ created)
  /\ (exists created,
        fst (process_arg_details arg_name arg_details h) = h ++ created).
Proof.
  split; apply keeps_prefix.
  - apply generate_openapi_spec_keeps.
  - apply (safe_process_arg_details (length h) arg_name arg_details h). lia.
Qed.

End StoreFacts.

(** ** Sample runs over the store *)

(** On the sample inputs the two embeddings agree, on the document as on
    the exception. *)
Example run_posts :
  Store.run_on Sample.base (JDict Sample.posts) = Ok (Some Sample.posts_doc).
Proof. vm_compute. reflexivity. Qed.

Example run_twice :
  Store.run_on Sample.base (JDict Sample.twice) = Ok (Some Sample.twice_doc).
Proof. vm_compute. reflexivity. Qed.

Example run_shadowed :
  Store.run_on Sample.base (JDict Sample.shadowed) = Ok (Some Sample.shadowed_doc)
  /\ Store.run_on Sample.base (JDict Sample.not_shadowed)
     = Ok (Some Sample.not_shadowed_doc).
Proof. split; vm_compute; reflexivity. Qed.

Example run_null_endpoints :
  Store.run_on Sample.base (JDict Sample.null_endpoints) = Raise TypeError
  /\ generate_openapi_spec Sample.base (JDict Sample.null_endpoints)
     = Raise TypeError.
Proof. split; vm_compute; reflexivity. Qed.

(** The [enum] list of an argument spec is shared, not copied: the schema
    of the parameter refers to the very object the spec refers to, and
    both objects of the input are as before. *)
Example enum_is_shared :
  let h := [ Store.OList [Store.VStr "view"; Store.VStr "edit"];
             Store.ODict [("type", Store.VStr "string"); ("enum", Store.VRef 0)] ] in
  Store.process_arg_details "context" (Store.VRef 1) h
  = (h ++ [ Store.ODict [("type", Store.VStr "string")];
            Store.ODict [ ("name", Store.VStr "context"); ("in", Store.VStr "query");
                    ("required", Store.VBool false); ("schema", Store.VRef 4);
                    ("description", Store.VStr "") ];
            Store.ODict [("type", Store.VStr "string"); ("enum", Store.VRef 0)];
            Store.ODict [ ("required", Store.VBool false); ("schema", Store.VRef 4);
                    ("description", Store.VStr "") ] ],
     Ok (Store.VRef 3)).
Proof. reflexivity. Qed.

(** ** The two embeddings agree *)

Module Refinement.
Import Store.

(** *** Reading JSON values back *)

Lemma all_some_Forall2 {A B : Type} (f : A -> option B) (xs : list A) (ys : list B) :
  all_some (map f xs) = Some ys <-> Forall2 (fun x y => f x = Some y) xs ys.
Proof.
  revert ys. induction xs as [|x xs IH]; intros ys; simpl.
  - split; [intros E; inversion E; constructor | intros H; now inversion H].
  - destruct (f x) as [y|] eqn:Ex.
    + destruct (all_some (map f xs)) as [ys'|] eqn:Es; simpl.
      * split.
        -- intros E. inversion E. subst. constructor; [exact Ex | now apply IH].
        -- intros H. inversion H as [|? y' ? ys0 Ey Hrest]. subst.
           apply IH in Hrest. congruence.
      * split; [discriminate|].
        intros H. inversion H as [|? y' ? ys0 Ey Hrest]. subst.
        apply IH in Hrest. discriminate.
    + split; [discriminate|].
      intros H. inversion H. congruence.
Qed.

Lemma reify_in_agree region depth (h h' : store) :
  (forall a, region a = true -> h' !! a = h !! a) ->
  forall v, reify_in region depth h' v = reify_in region depth h v.
Proof.
  intros Hag. induction depth as [|d IH]; intros v; destruct v; simpl; auto.
  destruct (region a) eqn:Ea; [|reflexivity].
  rewrite (Hag a Ea).
  destruct (h !! a) as [[vs|kvs]|]; [| |reflexivity].
  - f_equal. f_equal. apply map_ext. intros; apply IH.
  - f_equal. f_equal. apply map_ext. intros; now rewrite IH.
Qed.

Lemma reify_in_mono region region' (h : store) :
  (forall a, region a = true -> region' a = true) ->
  forall depth depth' v j,
    depth <= depth' ->
    reify_in region depth h v = Some j -> reify_in region' depth' h v = Some j.
Proof.
  intros Hsub. induction depth as [|d IH]; intros depth' v j Hle H;
    destruct v; simpl in *; try discriminate;
    try (destruct depth'; simpl; exact H).
  destruct depth' as [|d']; [lia|]. simpl.
  destruct (region a) eqn:Ea; [|discriminate]. rewrite (Hsub a Ea).
  destruct (h !! a) as [[vs|kvs]|]; [| |discriminate].
  - destruct (all_some (map (reify_in region d h) vs)) as [js|] eqn:Es;
      [|discriminate].
    apply all_some_Forall2 in Es.
    assert (Es' : all_some (map (reify_in region' d' h) vs) = Some js).
    { apply all_some_Forall2. eapply Forall2_impl; [exact Es|].
      intros x y Hxy. apply (IH d' x y); [lia | exact Hxy]. }
    now rewrite Es'.
  - match type of H with
    | option_map _ (all_some (map ?f kvs)) = _ =>
        destruct (all_some (map f kvs)) as [js|] eqn:Es; [|discriminate]
    end.
    apply all_some_Forall2 in Es.
    match goal with
    | |- option_map _ (all_some (map ?g kvs)) = _ =>
        assert (Es' : all_some (map g kvs) = Some js)
    end.
    { apply all_some_Forall2. eapply Forall2_impl; [exact Es|].
      intros x y Hxy. cbv beta in *.
      destruct (reify_in region d h (snd x)) as [jx|] eqn:Ex; [|discriminate].
      now rewrite (IH d' (snd x) jx ltac:(lia) Ex). }
    now rewrite Es'.
Qed.

Lemma rep_weaken region region' (h : store) v j :
  (forall a, region a = true -> region' a = true) ->
  rep region h v j -> rep region' h v j.
Proof.
  intros Hsub [d Hd]. exists d. eapply reify_in_mono; eauto.
Qed.

Lemma rep_agree region (h h' : store) v j :
  (forall a, region a = true -> h' !! a = h !! a) ->
  rep region h v j -> rep region h' v j.
Proof.
  intros Hag [d Hd]. exists d. now rewrite (reify_in_agree _ _ _ _ Hag).
Qed.

Lemma rep_none region (h : store) : rep region h VNone JNull.
Proof. now exists 0. Qed.

Lemma rep_bool region (h : store) b : rep region h (VBool b) (JBool b).
Proof. now exists 0. Qed.

Lemma rep_str region (h : store) s : rep region h (VStr s) (JStr s).
Proof. now exists 0. Qed.

(** Related lists have a common depth. *)
Lemma rep_common_depth {X Y : Type} region (h : store)
    (fv : X -> val) (fj : Y -> json) (xs : list X) (ys : list Y) :
  Forall2 (fun x y => rep region h (fv x) (fj y)) xs ys ->
  exists d, Forall2 (fun x y => reify_in region d h (fv x) = Some (fj y)) xs ys.
Proof.
  induction 1 as [|x y xs ys [d Hd] _ [d' IH]].
  - exists 0. constructor.
  - exists (d `max` d'). constructor.
    + eapply reify_in_mono; [ | | exact Hd]; [auto | lia].
    + eapply Forall2_impl; [exact IH|].
      intros x' y' H'. eapply reify_in_mono; [ | | exact H']; [auto | lia].
Qed.

Lemma rep_list_intro region (h : store) a vs js :
  region a = true ->
  h !! a = Some (OList vs) ->
  Forall2 (rep region h) vs js ->
  rep region h (VRef a) (JList js).
Proof.
  intros Ha Hh Hvs.
  destruct (rep_common_depth region h id id vs js Hvs) as [d Hd].
  exists (S d). simpl. rewrite Ha, Hh.
  apply all_some_Forall2 in Hd. unfold id in Hd.
  rewrite (map_ext _ (fun v => reify_in region d h v)) by reflexivity.
  now rewrite Hd.
Qed.

Lemma rep_dict_intro region (h : store) a kvs dj :
  region a = true ->
  h !! a = Some (ODict kvs) ->
  dict_rel (rep region h) kvs dj ->
  rep region h (VRef a) (JDict dj).
Proof.
  intros Ha Hh Hkvs.
  assert (Hsnd : Forall2 (fun kv kj => rep region h (snd kv) (snd kj)) kvs dj).
  { eapply Forall2_impl; [exact Hkvs | now intros ? ? [_ ?]]. }
  destruct (rep_common_depth region h snd snd kvs dj Hsnd) as [d Hd].
  exists (S d). simpl. rewrite Ha, Hh.
  match goal with
  | |- option_map _ (all_some (map ?f kvs)) = _ =>
      assert (E : all_some (map f kvs) = Some dj)
  end.
  { apply all_some_Forall2. unfold dict_rel in Hkvs.
    clear Hsnd Hh. revert Hd. induction Hkvs as [|kv kj kvs dj [Hk _] _ IH];
      intros Hd; [constructor|].
    inversion Hd as [|? ? ? ? Hd1 Hd2]. subst.
    constructor; [|auto].
    rewrite Hd1. simpl. rewrite Hk. now destruct kj. }
  now rewrite E.
Qed.

(** What a related pair looks like. *)
Lemma rep_inv region (h : store) v j :
  rep region h v j ->
  match v with
  | VNone => j = JNull
  | VBool b => j = JBool b
  | VNum n => j = JNum n
  | VStr s => j = JStr s
  | VRef a =>
      region a = true
      /\ match h !! a with
         | Some (OList vs) => exists js, j = JList js /\ Forall2 (rep region h) vs js
         | Some (ODict kvs) =>
             exists dj, j = JDict dj /\ dict_rel (rep region h) kvs dj
         | None => False
         end
  end.
Proof.
  intros [d Hd]. destruct v; try (destruct d; simpl in Hd; now inversion Hd).
  destruct d as [|d]; [discriminate|]. simpl in Hd.
  destruct (region a); [|discriminate]. split; [reflexivity|].
  destruct (h !! a) as [[vs|kvs]|]; [| |discriminate].
  - destruct (all_some (map (reify_in region d h) vs)) as [js|] eqn:Es;
      [|discriminate].
    exists js. split; [now inversion Hd|].
    apply all_some_Forall2 in Es.
    eapply Forall2_impl; [exact Es|]. intros x y Hxy. now exists d.
  - match type of Hd with
    | option_map _ (all_some (map ?f kvs)) = _ =>
        destruct (all_some (map f kvs)) as [dj|] eqn:Es; [|discriminate]
    end.
    exists dj. split; [now inversion Hd|].
    apply all_some_Forall2 in Es.
    eapply Forall2_impl; [exact Es|]. intros x y Hxy. cbv beta in Hxy.
    destruct (reify_in region d h (snd x)) as [jx|] eqn:Ex; [|discriminate].
    inversion Hxy. subst. simpl. split; [reflexivity | now exists d].
Qed.

(** *** Related dictionaries *)

Lemma dict_rel_get R kvs dj k :
  dict_rel R kvs dj ->
  match Dict.get k kvs, Dict.get k dj with
  | Some v, Some j => R v j
  | None, None => True
  | _, _ => False
  end.
Proof.
  induction 1 as [|[k1 v] [k2 j] kvs dj [Hk Hv] _ IH]; simpl; [exact I|].
  simpl in Hk, Hv. subst k2. now destruct (String.eqb k k1).
Qed.

Lemma dict_rel_get_default R kvs dj k dv dj' :
  dict_rel R kvs dj -> R dv dj' ->
  R (Dict.get_default k dv kvs) (Dict.get_default k dj' dj).
Proof.
  intros H Hd. unfold Dict.get_default.
  pose proof (dict_rel_get R kvs dj k H) as Hg.
  destruct (Dict.get k kvs), (Dict.get k dj); tauto.
Qed.

Lemma dict_rel_has R kvs dj k :
  dict_rel R kvs dj -> Dict.has k kvs = Dict.has k dj.
Proof.
  intros H. unfold Dict.has.
  pose proof (dict_rel_get R kvs dj k H) as Hg.
  destruct (Dict.get k kvs), (Dict.get k dj); tauto.
Qed.

Lemma dict_rel_set R kvs dj k v j :
  dict_rel R kvs dj -> R v j -> dict_rel R (Dict.set k v kvs) (Dict.set k j dj).
Proof.
  intros H Hv.
  induction H as [|[k1 v1] [k2 j1] kvs dj [Hk Hv1] Hrest IH]; simpl.
  - repeat constructor; auto.
  - simpl in Hk, Hv1. subst k2.
    destruct (String.eqb k k1).
    + constructor; [now split | exact Hrest].
    + constructor; [now split | exact IH].
Qed.

Lemma dict_rel_keys R kvs dj : dict_rel R kvs dj -> Dict.keys kvs = Dict.keys dj.
Proof.
  induction 1 as [|kv kj kvs dj [Hk _] _ IH]; simpl; [reflexivity|].
  now rewrite Hk, IH.
Qed.

Lemma dict_rel_truthy R kvs dj :
  dict_rel R kvs dj -> Dict.truthy kvs = Dict.truthy dj.
Proof. now destruct 1. Qed.

Lemma dict_rel_impl (R R' : val -> json -> Prop) kvs dj :
  (forall v j, R v j -> R' v j) -> dict_rel R kvs dj -> dict_rel R' kvs dj.
Proof.
  intros HR H. eapply Forall2_impl; [exact H|].
  intros kv kj [Hk Hv]. split; auto.
Qed.

(** *** Rules for running a computation *)

Lemma wp_ret {A : Type} (a : A) h (Q : store -> A -> Prop) E :
  Q h a -> wp (ret a) h Q E.
Proof. auto. Qed.

Lemma wp_raise {A : Type} e h (Q : store -> A -> Prop) (E : exn -> Prop) :
  E e -> wp (raise e) h Q E.
Proof. auto. Qed.

Lemma wp_bind {A B : Type} (m : M A) (k : A -> M B) h Q E :
  wp m h (fun h' a => wp (k a) h' Q E) E -> wp (bind m k) h Q E.
Proof.
  unfold wp, bind. now destruct (m h) as [h' [a|e]].
Qed.

Lemma wp_mono {A : Type} (m : M A) h (Q Q' : store -> A -> Prop) (E E' : exn -> Prop) :
  wp m h Q E ->
  (forall h' a, Q h' a -> Q' h' a) ->
  (forall e, E e -> E' e) ->
  wp m h Q' E'.
Proof.
  unfold wp. destruct (m h) as [h' [a|e]]; auto.
Qed.

Lemma wp_alloc o h (Q : store -> val -> Prop) E :
  Q (h ++ [o]) (VRef (length h)) -> wp (alloc o) h Q E.
Proof. auto. Qed.

Lemma wp_for_each {X : Type} (body : X -> M unit) (I : list X -> store -> Prop)
    (E : exn -> Prop) :
  (forall x xs h, I (x :: xs) h -> wp (body x) h (fun h' _ => I xs h') E) ->
  forall xs h, I xs h -> wp (for_each xs body) h (fun h' _ => I [] h') E.
Proof.
  intros Hbody. induction xs as [|x xs IH]; intros h Hh; simpl.
  - now apply wp_ret.
  - apply wp_bind. eapply wp_mono; [apply Hbody; exact Hh | | auto].
    intros h' u Hh'. now apply IH.
Qed.

Lemma wp_alloc_fresh o (h : store) (Q : store -> val -> Prop) E :
  (forall h', frame [] h h' -> length h' = S (length h) ->
              h' !! length h = Some o -> Q h' (VRef (length h))) ->
  wp (alloc o) h Q E.
Proof.
  intros HQ. apply wp_alloc, HQ.
  - split; [rewrite length_app; lia|].
    intros a Ha _. now apply lookup_app_l.
  - rewrite length_app. simpl. lia.
  - now apply list_lookup_middle.
Qed.

Lemma wp_setitem_dict a k v kvs (h : store) (Q : store -> unit -> Prop) E :
  h !! a = Some (ODict kvs) ->
  (forall h', frame [a] h h' -> length h' = length h ->
              h' !! a = Some (ODict (Dict.set k v kvs)) -> Q h' tt) ->
  wp (setitem (VRef a) k v) h Q E.
Proof.
  intros Ha HQ. unfold wp, setitem. rewrite Ha. apply HQ.
  - split; [rewrite length_insert; lia|].
    intros b Hb Hne. apply list_lookup_insert_ne. intros ->. apply Hne. now left.
  - apply length_insert.
  - apply list_lookup_insert_eq. now apply lookup_lt_Some in Ha.
Qed.

Lemma wp_append_list a v vs (h : store) (Q : store -> unit -> Prop) E :
  h !! a = Some (OList vs) ->
  (forall h', frame [a] h h' -> length h' = length h ->
              h' !! a = Some (OList (vs ++ [v])) -> Q h' tt) ->
  wp (append (VRef a) v) h Q E.
Proof.
  intros Ha HQ. unfold wp, append. rewrite Ha. apply HQ.
  - split; [rewrite length_insert; lia|].
    intros b Hb Hne. apply list_lookup_insert_ne. intros ->. apply Hne. now left.
  - apply length_insert.
  - apply list_lookup_insert_eq. now apply lookup_lt_Some in Ha.
Qed.

Lemma wp_update_dict a u kvs ukvs (h : store) (Q : store -> unit -> Prop) E :
  h !! a = Some (ODict kvs) ->
  h !! u = Some (ODict ukvs) ->
  (forall h', frame [a] h h' -> length h' = length h ->
              h' !! a = Some (ODict (Dict.update ukvs kvs)) -> Q h' tt) ->
  wp (update (VRef a) (VRef u)) h Q E.
Proof.
  intros Ha Hu HQ. unfold wp, update. rewrite Ha. cbn [deref]. rewrite Hu.
  apply HQ.
  - split; [rewrite length_insert; lia|].
    intros b Hb Hne. apply list_lookup_insert_ne. intros ->. apply Hne. now left.
  - apply length_insert.
  - apply list_lookup_insert_eq. now apply lookup_lt_Some in Ha.
Qed.

Lemma wp_as_dict v (h : store) (Q : store -> option (list (string * val)) -> Prop) E :
  Q h match deref v h with
      | Some (ODict kvs) => Some kvs
      | _ => None
      end ->
  wp (as_dict v) h Q E.
Proof. auto. Qed.

Lemma wp_as_list v (h : store) (Q : store -> option (list val) -> Prop) E :
  Q h match deref v h with
      | Some (OList l) => Some l
      | _ => None
      end ->
  wp (as_list v) h Q E.
Proof. auto. Qed.

(** *** Frames *)

Lemma frame_refl W (h : store) : frame W h h.
Proof. split; auto. Qed.

Lemma frame_trans W (h1 h2 h3 : store) :
  frame W h1 h2 -> frame W h2 h3 -> frame W h1 h3.
Proof.
  intros [L1 F1] [L2 F2]. split; [lia|].
  intros a Ha Hn. rewrite F2, F1; auto. lia.
Qed.

Lemma frame_weaken W W' (h h' : store) :
  (forall a, In a W -> In a W') -> frame W h h' -> frame W' h h'.
Proof.
  intros Hsub [L F]. split; [exact L|]. intros a Ha Hn. apply F; auto.
Qed.

Lemma frame_nil W (h h' : store) : frame [] h h' -> frame W h h'.
Proof. apply frame_weaken. intros a []. Qed.

Lemma frame_beyond a W (h h' : store) :
  length h <= a -> frame (a :: W) h h' -> frame W h h'.
Proof.
  intros Hle [L F]. split; [exact L|].
  intros b Hb Hn. apply F; [exact Hb|]. intros [->|?]; [lia | auto].
Qed.

Lemma rep_shape region (h : store) v j : rep region h v j -> shape region h v j.
Proof.
  intros H. pose proof (rep_inv _ _ _ _ H) as Hi.
  destruct v; try (subst j; constructor).
  destruct Hi as [Ha Hi].
  destruct (h !! a) as [[vs|kvs]|] eqn:E; [| |contradiction].
  - destruct Hi as (js & -> & Hjs). now apply shape_list with vs.
  - destruct Hi as (dj & -> & Hdj). now apply shape_dict with kvs.
Qed.

(** *** The input stays, the output settles *)

Section Simulation.

Variable h0 : store.

Lemma grown_length (h : store) : grown h0 h -> length h0 <= length h.
Proof.
  unfold grown. intros E. apply (f_equal length) in E.
  rewrite length_take in E. lia.
Qed.

Lemma grown_lookup (h : store) a :
  grown h0 h -> a < length h0 -> h !! a = h0 !! a.
Proof.
  unfold grown. intros E Ha.
  rewrite <- (lookup_take_lt h (length h0) a Ha). now rewrite E.
Qed.

Lemma grown_frame W (h h' : store) :
  grown h0 h -> frame W h h' -> (forall a, In a W -> length h0 <= a) ->
  grown h0 h'.
Proof.
  intros Hg [L F] HW. pose proof (grown_length h Hg) as Hl.
  unfold grown in *. rewrite <- Hg at 2. apply list_eq. intros i.
  destruct (decide (i < length h0)) as [Hi|Hi].
  - rewrite !lookup_take_lt by exact Hi. apply F; [lia|].
    intros Hin. apply HW in Hin. lia.
  - rewrite !lookup_take_ge by lia. reflexivity.
Qed.

Lemma below_spec n a : below n a = true <-> a < n.
Proof. unfold below. apply Nat.ltb_lt. Qed.

Lemma window_spec n lo hi a :
  window n lo hi a = true <-> a < n \/ (lo <= a /\ a < hi).
Proof.
  unfold window. rewrite orb_true_iff, andb_true_iff.
  rewrite Nat.ltb_lt, Nat.leb_le, Nat.ltb_lt. reflexivity.
Qed.

Lemma inp_rep (h : store) v j :
  grown h0 h -> inp h0 v j -> rep (below (length h0)) h v j.
Proof.
  intros Hg. apply rep_agree. intros a Ha. apply below_spec in Ha.
  now apply grown_lookup.
Qed.

Lemma rep_inp (h : store) v j :
  grown h0 h -> rep (below (length h0)) h v j -> inp h0 v j.
Proof.
  intros Hg. apply rep_agree. intros a Ha. apply below_spec in Ha.
  symmetry. now apply grown_lookup.
Qed.

Lemma inp_out (h : store) lo v j :
  grown h0 h -> inp h0 v j -> out h0 lo h v j.
Proof.
  intros Hg Hi. apply (rep_weaken (below (length h0))); [|now apply inp_rep].
  intros a Ha. apply below_spec in Ha. apply window_spec. now left.
Qed.

Lemma out_frame W lo (h h' : store) v j :
  length h0 <= length h ->
  frame W h h' ->
  (forall a, In a W -> length h0 <= a /\ a < lo) ->
  out h0 lo h v j -> out h0 lo h' v j.
Proof.
  intros Hl [L F] HW Ho. unfold out in *.
  apply (rep_weaken (window (length h0) lo (length h))).
  { intros a Ha. apply window_spec in Ha. apply window_spec. lia. }
  revert Ho. apply rep_agree. intros a Ha. apply window_spec in Ha.
  apply F; [lia|]. intros Hin. apply HW in Hin. lia.
Qed.

Lemma out_lower lo lo' (h : store) v j :
  lo' <= lo -> out h0 lo h v j -> out h0 lo' h v j.
Proof.
  intros Hle. apply rep_weaken. intros a Ha.
  apply window_spec in Ha. apply window_spec. lia.
Qed.

Lemma inp_shape (h : store) v j :
  grown h0 h -> inp h0 v j -> shape (below (length h0)) h v j.
Proof. intros Hg Hi. now apply rep_shape, inp_rep. Qed.

Lemma inp_dict_rel (h : store) kvs dj :
  grown h0 h ->
  dict_rel (rep (below (length h0)) h) kvs dj -> dict_rel (inp h0) kvs dj.
Proof. intros Hg. apply dict_rel_impl. intros v j. now apply rep_inp. Qed.

Lemma inp_list_rel (h : store) vs js :
  grown h0 h ->
  Forall2 (rep (below (length h0)) h) vs js -> Forall2 (inp h0) vs js.
Proof.
  intros Hg H. eapply Forall2_impl; [exact H|]. intros v j. now apply rep_inp.
Qed.

Ltac look :=
  match goal with
  | H : ?h !! ?a = Some _ |- ?h !! ?a = Some _ => exact H
  | F : frame _ ?h1 ?h |- ?h !! ?a = Some _ =>
      rewrite (proj2 F a); [look | lia | simpl; intuition lia]
  end.

Ltac grow :=
  match goal with
  | H : grown h0 ?h |- grown h0 ?h => exact H
  | F : frame _ ?h1 ?h |- grown h0 ?h =>
      eapply (grown_frame _ h1 h); [grow | exact F | simpl; intuition lia]
  end.

Lemma frame_fresh_trans W (h h1 h2 : store) :
  frame [] h h1 -> frame W h1 h2 -> (forall a, In a W -> length h <= a) ->
  frame [] h h2.
Proof.
  intros [L1 F1] [L2 F2] HW. split; [lia|].
  intros a Ha _. rewrite F2, F1; auto; [lia|].
  intros Hin. apply HW in Hin. lia.
Qed.

Ltac framed :=
  match goal with
  | |- frame [] ?h ?h => apply frame_refl
  | F : frame _ ?h1 ?h2 |- frame [] ?h ?h2 =>
      eapply (frame_fresh_trans _ h h1 h2); [framed | exact F | simpl; intuition lia]
  end.

Lemma process_arg_details_sim arg_name v j (h : store) :
  grown h0 h ->
  inp h0 v j ->
  wp (process_arg_details arg_name v) h
     (fun h' r =>
        frame [] h h' /\ length h < length h'
        /\ out h0 (length h) h' r (Pure.process_arg_details arg_name j))
     (fun _ => False).
Proof.
  intros Hg Hv. pose proof (grown_length h Hg) as Hl.
  unfold process_arg_details.
  apply wp_bind, wp_alloc_fresh. intros h1 F1 L1 E1.
  apply wp_bind, wp_alloc_fresh. intros h2 F2 L2 E2.
  apply wp_bind, wp_as_dict.
  assert (Hg2 : grown h0 h2) by grow.
  assert (Hdefault : out h0 (length h) h2 (VRef (length h1))
                       (JDict (default_param arg_name))).
  { apply rep_dict_intro with
      (kvs := [("name", VStr arg_name); ("in", VStr "query");
               ("required", VBool false); ("schema", VRef (length h));
               ("description", VStr "")]).
    - apply window_spec. lia.
    - look.
    - repeat constructor; simpl; try reflexivity;
        try apply rep_str; try apply rep_bool.
      apply rep_dict_intro with (kvs := [("type", VStr "string")]).
      + apply window_spec. lia.
      + look.
      + repeat constructor. apply rep_str. }
  destruct (inp_shape h2 v j Hg2 Hv)
    as [ | | | |a vs js Ha Hh Hvs|a kvs dj Ha Hh Hkvs];
    cbn [deref]; rewrite ?Hh;
    try (apply wp_ret; split; [|split];
         [eapply frame_trans; eauto | lia | exact Hdefault]).
  apply inp_dict_rel in Hkvs; [|exact Hg2].
  set (pt := Dict.get_default "type" (VStr "string") kvs).
  set (ptj := Dict.get_default "type" (JStr "string") dj).
  assert (Hpt : inp h0 pt ptj).
  { apply dict_rel_get_default; [exact Hkvs | apply rep_str]. }
  apply wp_bind, wp_as_list.
  set (pt' := match match deref pt h2 with
                    | Some (OList l) => Some l
                    | _ => None
                    end with
              | Some [] => VStr "string"
              | Some (first :: _) => first
              | None => pt
              end).
  set (ptj' := match ptj with
               | JList [] => JStr "string"
               | JList (first :: _) => first
               | _ => ptj
               end).
  assert (Hpt' : inp h0 pt' ptj').
  { subst pt' ptj'.
    destruct (inp_shape h2 pt ptj Hg2 Hpt)
      as [ | | | |b vs js Hb Hhb Hvs|b kvs' dj' Hb Hhb Hkvs'];
      cbn [deref]; rewrite ?Hhb; try exact Hpt.
    apply inp_list_rel in Hvs; [|exact Hg2].
    destruct Hvs; [apply rep_str | assumption]. }
  clearbody pt'.
  apply wp_bind, wp_alloc_fresh. intros h3 F3 L3 E3.
  set (schema_j := match Dict.get "enum" dj with
                   | Some enum => Dict.set "enum" enum [("type", ptj')]
                   | None => [("type", ptj')]
                   end).
  apply wp_bind.
  apply wp_mono with
    (Q := fun h4 _ =>
            frame [length h2] h3 h4 /\ length h4 = length h3
            /\ exists skvs, h4 !! length h2 = Some (ODict skvs)
                            /\ dict_rel (inp h0) skvs schema_j)
    (E := fun _ => False); [| |auto].
  { subst schema_j.
    pose proof (dict_rel_get _ _ _ "enum" Hkvs) as He.
    destruct (Dict.get "enum" kvs) as [ev|], (Dict.get "enum" dj) as [ej|];
      try contradiction.
    - eapply wp_setitem_dict; [exact E3|]. intros h4 F4 L4 E4.
      split; [exact F4|]. split; [exact L4|].
      eexists. split; [exact E4|].
      apply dict_rel_set; [|exact He]. repeat constructor. exact Hpt'.
    - apply wp_ret. split; [apply frame_refl|]. split; [reflexivity|].
      eexists. split; [exact E3|]. repeat constructor. exact Hpt'. }
  intros h4 _ (F4 & L4 & skvs & E4 & Hs).
  apply wp_bind, wp_alloc_fresh. intros h5 F5 L5 E5.
  apply wp_bind. eapply wp_update_dict; [look | exact E5|].
  intros h6 F6 L6 E6.
  apply wp_ret. split; [framed|]. split; [lia|].
  assert (Hg6 : grown h0 h6) by grow.
  eapply rep_dict_intro; [apply window_spec; lia | exact E6 |].
  cbn. repeat constructor; simpl; try reflexivity;
    try apply rep_str; try apply rep_bool.
  - apply inp_out; [exact Hg6|].
    apply dict_rel_get_default; [exact Hkvs | apply rep_bool].
  - eapply rep_dict_intro; [apply window_spec; lia | look |].
    eapply dict_rel_impl; [|exact Hs]. intros v' j'. now apply inp_out.
  - apply inp_out; [exact Hg6|].
    apply dict_rel_get_default; [exact Hkvs | apply rep_str].
Qed.

Lemma add_path_param_sim acc vs name (h : store) :
  grown h0 h ->
  length h0 <= acc ->
  h !! acc = Some (OList vs) ->
  wp (add_path_param (VRef acc) name) h
     (fun h' _ =>
        frame [acc] h h'
        /\ exists p, h' !! acc = Some (OList (vs ++ [p]))
                     /\ out h0 (length h) h' p (path_param name))
     (fun _ => False).
Proof.
  intros Hg Hacc Hh. pose proof (grown_length h Hg) as Hl.
  pose proof (lookup_lt_Some _ _ _ Hh) as Hlt.
  unfold add_path_param.
  apply wp_bind, wp_alloc_fresh. intros h1 F1 L1 E1.
  apply wp_bind, wp_alloc_fresh. intros h2 F2 L2 E2.
  eapply wp_append_list; [look|]. intros h3 F3 L3 E3.
  split.
  { apply (frame_trans _ h h1); [now apply frame_nil|].
    apply (frame_trans _ h1 h2); [now apply frame_nil | exact F3]. }
  eexists. split; [exact E3|].
  eapply rep_dict_intro; [apply window_spec; lia | look |].
  repeat constructor; simpl; try reflexivity;
    try apply rep_str; try apply rep_bool.
  eapply rep_dict_intro; [apply window_spec; lia | look |].
  repeat constructor. apply rep_str.
Qed.

Lemma add_declared_arg_sim pps acc vs arg argj (h : store) :
  grown h0 h ->
  length h0 <= acc ->
  h !! acc = Some (OList vs) ->
  fst arg = fst argj ->
  inp h0 (snd arg) (snd argj) ->
  wp (add_declared_arg pps (VRef acc) arg) h
     (fun h' _ =>
        frame [acc] h h'
        /\ exists ps, h' !! acc = Some (OList (vs ++ ps))
                      /\ Forall2 (out h0 (length h) h') ps (args_loop pps [argj] []))
     (fun _ => False).
Proof.
  intros Hg Hacc Hh Hk Hv. pose proof (lookup_lt_Some _ _ _ Hh) as Hlt.
  destruct arg as [k v], argj as [kj j]. simpl in Hk, Hv. subst kj.
  unfold add_declared_arg. simpl.
  destruct (negb (Str.mem k pps)).
  - apply wp_bind.
    eapply wp_mono; [apply (process_arg_details_sim k v j h Hg Hv) | | auto].
    intros h1 p (F1 & L1 & Hp).
    eapply wp_append_list; [look|]. intros h2 F2 L2 E2.
    split; [apply (frame_trans _ h h1); [now apply frame_nil | exact F2]|].
    exists [p]. split; [exact E2|].
    constructor; [|constructor].
    apply (out_frame [acc] _ h1 h2); auto; [lia|].
    intros a [<-|[]]. lia.
  - apply wp_ret. split; [apply frame_refl|].
    exists []. rewrite app_nil_r. split; [exact Hh | constructor].
Qed.

Lemma holds_list_snoc acc (h h' : store) vs ps qs rs :
  length h0 <= length h ->
  length h0 <= acc ->
  acc < length h ->
  h !! acc = Some (OList vs) ->
  Forall2 (out h0 (S acc) h) vs ps ->
  frame [acc] h h' ->
  h' !! acc = Some (OList (vs ++ qs)) ->
  Forall2 (out h0 (length h) h') qs rs ->
  holds_list h0 acc h' (ps ++ rs).
Proof.
  intros Hl Hacc Hlt Hh Hvs F Hh' Hqs.
  exists (vs ++ qs). split; [exact Hh'|].
  apply Forall2_app.
  - eapply Forall2_impl; [exact Hvs|]. intros v j.
    apply (out_frame [acc] _ h h'); auto. intros a [<-|[]]. lia.
  - eapply Forall2_impl; [exact Hqs|]. intros v j. apply out_lower. lia.
Qed.

Lemma path_params_loop_sim acc names : forall (h : store) ps,
  grown h0 h ->
  length h0 <= acc ->
  holds_list h0 acc h ps ->
  wp (for_each names (add_path_param (VRef acc))) h
     (fun h' _ => frame [acc] h h' /\ holds_list h0 acc h' (path_params_loop names ps))
     (fun _ => False).
Proof.
  induction names as [|name names IH]; intros h ps Hg Hacc (vs & Hh & Hvs); simpl.
  - apply wp_ret. split; [apply frame_refl | now exists vs].
  - pose proof (lookup_lt_Some _ _ _ Hh) as Hlt.
    apply wp_bind.
    eapply wp_mono; [apply (add_path_param_sim acc vs name h Hg Hacc Hh) | | auto].
    intros h1 _ (F1 & p & Hh1 & Hp).
    assert (Hg1 : grown h0 h1).
    { apply (grown_frame [acc] h h1); auto. intros a [<-|[]]. lia. }
    eapply wp_mono; [apply (IH h1 (ps ++ [path_param name]) Hg1 Hacc) | | auto].
    + apply (holds_list_snoc acc h h1 vs ps [p] [path_param name]); auto.
      now apply grown_length.
    + intros h2 _ [F2 H2]. split; [eapply frame_trans; eauto | exact H2].
Qed.

Lemma args_loop_sim pps acc args : forall argsj (h : store) ps,
  grown h0 h ->
  length h0 <= acc ->
  dict_rel (inp h0) args argsj ->
  holds_list h0 acc h ps ->
  wp (for_each args (add_declared_arg pps (VRef acc))) h
     (fun h' _ => frame [acc] h h' /\ holds_list h0 acc h' (args_loop pps argsj ps))
     (fun _ => False).
Proof.
  induction args as [|arg args IH]; intros argsj h ps Hg Hacc Hargs (vs & Hh & Hvs);
    inversion Hargs as [|? argj ? argsj' [Hk Hv] Hrest]; subst; cbn [for_each].
  - apply wp_ret. split; [apply frame_refl | now exists vs].
  - pose proof (lookup_lt_Some _ _ _ Hh) as Hlt.
    apply wp_bind.
    eapply wp_mono;
      [apply (add_declared_arg_sim pps acc vs arg argj h Hg Hacc Hh Hk Hv) | | auto].
    intros h1 _ (F1 & qs & Hh1 & Hqs).
    assert (Hg1 : grown h0 h1).
    { apply (grown_frame [acc] h h1); auto. intros a [<-|[]]. lia. }
    assert (Hstep : args_loop pps (argj :: argsj') ps
                    = args_loop pps argsj' (ps ++ args_loop pps [argj] [])).
    { destruct argj as [kj j]. simpl.
      destruct (negb (Str.mem kj pps)); simpl; [reflexivity | now rewrite app_nil_r]. }
    rewrite Hstep.
    eapply wp_mono;
      [apply (IH argsj' h1 (ps ++ args_loop pps [argj] []) Hg1 Hacc Hrest) | | auto].
    + apply (holds_list_snoc acc h h1 vs ps qs _); auto.
      now apply grown_length.
    + intros h2 _ [F2 H2]. split; [eapply frame_trans; eauto | exact H2].
Qed.

Lemma build_parameters_sim path ekvs ej (h : store) :
  grown h0 h ->
  dict_rel (inp h0) ekvs ej ->
  wp (build_parameters path ekvs) h
     (fun h' r =>
        frame [] h h' /\ length h < length h'
        /\ out h0 (length h) h' r (JList (Pure.build_parameters path ej)))
     (fun _ => False).
Proof.
  intros Hg He. pose proof (grown_length h Hg) as Hl.
  unfold build_parameters.
  apply wp_bind, wp_alloc_fresh. intros h1 F1 L1 E1.
  apply wp_bind, wp_alloc_fresh. intros h2 F2 L2 E2.
  set (acc := length h) in *.
  assert (Hg2 : grown h0 h2) by grow.
  assert (H2 : holds_list h0 acc h2 []).
  { exists []. split; [look | constructor]. }
  apply wp_bind.
  eapply wp_mono;
    [apply (path_params_loop_sim acc (path_params_of path) h2 [] Hg2 Hl H2) | | auto].
  intros h3 _ [F3 H3].
  apply wp_bind, wp_alloc_fresh. intros h4 F4 L4 E4.
  assert (Hg4 : grown h0 h4) by grow.
  assert (L3 : length h2 <= length h3) by apply F3.
  assert (H4 : holds_list h0 acc h4 (path_params_loop (path_params_of path) [])).
  { destruct H3 as (vs & Hvs & Hall). exists vs. split; [look|].
    eapply Forall2_impl; [exact Hall|]. intros v j.
    apply (out_frame [] _ h3 h4); auto; [lia | intros a []]. }
  apply wp_bind, wp_as_dict.
  assert (Hfinal : forall h5 ps,
             frame [acc] h4 h5 -> holds_list h0 acc h5 ps ->
             frame [] h h5 /\ length h < length h5
             /\ out h0 (length h) h5 (VRef acc) (JList ps)).
  { intros h5 ps F5 (vs & Hvs & Hall).
    split; [framed|]. split; [destruct F5; lia|].
    eapply rep_list_intro; [apply window_spec; destruct F5; lia | exact Hvs |].
    eapply Forall2_impl; [exact Hall|]. intros v j. apply out_lower. lia. }
  unfold Pure.build_parameters.
  pose proof (dict_rel_get _ _ _ "args" He) as Ha.
  unfold Dict.get_default.
  destruct (Dict.get "args" ekvs) as [av|], (Dict.get "args" ej) as [aj|];
    try contradiction.
  - destruct (inp_shape h4 av aj Hg4 Ha)
      as [ | | | |b vs js Hb Hhb Hvs|b kvs dj Hb Hhb Hkvs];
      cbn [deref]; rewrite ?Hhb;
      try (apply wp_bind, wp_ret, wp_ret, Hfinal; [apply frame_refl | exact H4]).
    apply inp_dict_rel in Hkvs; [|exact Hg4].
    apply wp_bind.
    eapply wp_mono;
      [apply (args_loop_sim (path_params_of path) acc kvs dj h4 _ Hg4 Hl Hkvs H4)
      | | auto].
    intros h5 _ [F5 H5]. apply wp_ret. now apply Hfinal.
  - cbn [deref]. rewrite E4.
    apply wp_bind. cbn [for_each]. apply wp_ret, wp_ret, Hfinal;
      [apply frame_refl | exact H4].
Qed.

Lemma build_operation_sim path dkvs dj method params ps lo (h : store) :
  grown h0 h ->
  lo <= length h ->
  dict_rel (inp h0) dkvs dj ->
  out h0 lo h params (JList ps) ->
  wp (build_operation path dkvs method params) h
     (fun h' r =>
        frame [] h h' /\ length h < length h'
        /\ out h0 lo h' r (Pure.build_operation path dj method ps))
     (fun _ => False).
Proof.
  intros Hg Hlo Hd Hps. pose proof (grown_length h Hg) as Hl.
  unfold build_operation.
  apply wp_bind, wp_alloc_fresh. intros h1 F1 L1 E1.
  apply wp_bind, wp_alloc_fresh. intros h2 F2 L2 E2.
  apply wp_bind, wp_alloc_fresh. intros h3 F3 L3 E3.
  apply wp_bind, wp_alloc_fresh. intros h4 F4 L4 E4.
  apply wp_bind, wp_alloc_fresh. intros h5 F5 L5 E5.
  apply wp_alloc_fresh. intros h6 F6 L6 E6.
  assert (Hg6 : grown h0 h6) by grow.
  assert (F : frame [] h h6) by framed.
  split; [exact F|]. split; [lia|].
  eapply rep_dict_intro; [apply window_spec; lia | look |].
  repeat constructor; simpl; try reflexivity; try apply rep_str.
  - apply inp_out; [exact Hg6|].
    apply dict_rel_get_default; [exact Hd | apply rep_str].
  - apply (out_frame [] _ h h6); auto. intros a [].
  - eapply rep_dict_intro; [apply window_spec; lia | look |].
    repeat constructor; simpl; try reflexivity;
      (eapply rep_dict_intro; [apply window_spec; lia | look |]);
      repeat constructor; apply rep_str.
Qed.

Lemma holds_dict_set acc (h1 h2 : store) pi k v j :
  length h0 <= length h1 ->
  length h0 <= acc ->
  acc < length h1 ->
  holds_dict h0 acc h1 pi ->
  out h0 (S acc) h1 v j ->
  frame [acc] h1 h2 ->
  (forall kvs, h1 !! acc = Some (ODict kvs) ->
               h2 !! acc = Some (ODict (Dict.set k v kvs))) ->
  holds_dict h0 acc h2 (Dict.set k j pi).
Proof.
  intros Hl Hacc Hlt (kvs & Hh & Hkvs) Hv F Hset.
  exists (Dict.set k v kvs). split; [now apply Hset|].
  assert (Hmove : forall v' j', out h0 (S acc) h1 v' j' -> out h0 (S acc) h2 v' j').
  { intros v' j'. apply (out_frame [acc] _ h1 h2); auto. intros a [<-|[]]. lia. }
  apply dict_rel_set; [|now apply Hmove].
  eapply dict_rel_impl; [exact Hmove | exact Hkvs].
Qed.

Lemma holds_dict_frame acc (h1 h2 : store) pi :
  length h0 <= length h1 ->
  length h0 <= acc ->
  acc < length h1 ->
  frame [] h1 h2 ->
  holds_dict h0 acc h1 pi -> holds_dict h0 acc h2 pi.
Proof.
  intros Hl Hacc Hlt F (kvs & Hh & Hkvs). exists kvs. split.
  - destruct F as [_ F]. rewrite F; auto.
  - eapply dict_rel_impl; [|exact Hkvs]. intros v j.
    apply (out_frame [] _ h1 h2); auto. intros a [].
Qed.

Lemma method_body_sim path dkvs dj ekvs ej acc m mj pi (h : store) :
  grown h0 h ->
  length h0 <= acc ->
  dict_rel (inp h0) dkvs dj ->
  dict_rel (inp h0) ekvs ej ->
  inp h0 m mj ->
  holds_dict h0 acc h pi ->
  wp (method_body path dkvs ekvs (VRef acc) m) h
     (fun h' _ =>
        frame [acc] h h'
        /\ exists pi', methods_loop path dj ej [mj] pi = Ok pi'
                       /\ holds_dict h0 acc h' pi')
     (fun e => methods_loop path dj ej [mj] pi = Raise e).
Proof.
  intros Hg Hacc Hd He Hm Hpi. pose proof (grown_length h Hg) as Hl.
  assert (Hlt : acc < length h).
  { destruct Hpi as (kvs & Hh & _). now apply lookup_lt_Some in Hh. }
  unfold method_body. apply wp_bind.
  destruct (inp_shape h m mj Hg Hm); try (apply wp_raise; reflexivity).
  apply wp_ret. cbn [methods_loop py_lower Pure.bind].
  apply wp_bind.
  eapply wp_mono; [apply (build_parameters_sim path ekvs ej h Hg He) | | intros ? []].
  intros h1 params (F1 & L1 & Hparams).
  assert (Hg1 : grown h0 h1) by grow.
  apply wp_bind.
  eapply wp_mono;
    [apply (build_operation_sim path dkvs dj (Str.lower s) params _ (length h) h1
              Hg1 ltac:(lia) Hd Hparams) | | intros ? []].
  intros h2 op (F2 & L2 & Hop).
  assert (F12 : frame [] h h2) by framed.
  pose proof (holds_dict_frame acc h h2 pi Hl Hacc Hlt F12 Hpi) as Hpi2.
  destruct Hpi2 as (kvs2 & Hh2 & Hkvs2).
  eapply wp_setitem_dict; [exact Hh2|]. intros h3 F3 L3 E3.
  split.
  { apply (frame_trans _ h h2); [now apply frame_nil | exact F3]. }
  eexists. split; [reflexivity|].
  apply (holds_dict_set acc h2 h3 pi (Str.lower s) op); auto; try lia.
  - now exists kvs2.
  - revert Hop. apply out_lower. lia.
  - intros kvs Hk. rewrite Hh2 in Hk. inversion Hk. subst. exact E3.
Qed.

Lemma methods_loop_cons path dj ej mj msj pi :
  methods_loop path dj ej (mj :: msj) pi
  = Pure.bind (methods_loop path dj ej [mj] pi) (methods_loop path dj ej msj).
Proof. simpl. now destruct (py_lower mj). Qed.

Lemma endpoints_loop_cons path dj ej esj pi :
  endpoints_loop path dj (ej :: esj) pi
  = Pure.bind (endpoints_loop path dj [ej] pi) (endpoints_loop path dj esj).
Proof. apply (endpoints_loop_app path dj [ej] esj pi). Qed.

Lemma methods_loop_sim path dkvs dj ekvs ej acc ms : forall msj pi (h : store),
  grown h0 h ->
  length h0 <= acc ->
  dict_rel (inp h0) dkvs dj ->
  dict_rel (inp h0) ekvs ej ->
  Forall2 (inp h0) ms msj ->
  holds_dict h0 acc h pi ->
  wp (for_each ms (method_body path dkvs ekvs (VRef acc))) h
     (fun h' _ =>
        frame [acc] h h'
        /\ exists pi', methods_loop path dj ej msj pi = Ok pi'
                       /\ holds_dict h0 acc h' pi')
     (fun e => methods_loop path dj ej msj pi = Raise e).
Proof.
  induction ms as [|m ms IH]; intros msj pi h Hg Hacc Hd He Hms Hpi;
    inversion Hms as [|? mj ? msj' Hm Hrest]; subst; cbn [for_each].
  - apply wp_ret. split; [apply frame_refl|]. now exists pi.
  - assert (Hlt : acc < length h).
    { destruct Hpi as (kvs & Hh & _). now apply lookup_lt_Some in Hh. }
    rewrite methods_loop_cons. apply wp_bind.
    eapply wp_mono;
      [apply (method_body_sim path dkvs dj ekvs ej acc m mj pi h Hg Hacc Hd He Hm Hpi)
      | | intros e ->; reflexivity].
    intros h1 _ (F1 & pi1 & -> & Hpi1). cbn [Pure.bind].
    assert (Hg1 : grown h0 h1).
    { apply (grown_frame [acc] h h1); auto. intros a [<-|[]]. lia. }
    eapply wp_mono;
      [apply (IH msj' pi1 h1 Hg1 Hacc Hd He Hrest Hpi1) | | auto].
    intros h2 _ (F2 & pi2 & E2 & Hpi2).
    split; [eapply frame_trans; eauto|]. now exists pi2.
Qed.

(** What a loop over a value of the input runs through. *)
Lemma iter_sim v j (h : store) :
  grown h0 h ->
  inp h0 v j ->
  wp (iter v) h
     (fun h' vs =>
        h' = h /\ exists js, py_iter j = Ok js /\ Forall2 (inp h0) vs js)
     (fun e => py_iter j = Raise e).
Proof.
  intros Hg Hv. unfold wp, iter.
  destruct (inp_shape h v j Hg Hv) as [ | | | |a vs js Ha Hh Hvs|a kvs dj Ha Hh Hkvs];
    cbn [deref py_iter]; rewrite ?Hh; try reflexivity.
  - split; [reflexivity|]. eexists. split; [reflexivity|].
    induction (Str.chars s); constructor; [apply rep_str | assumption].
  - split; [reflexivity|]. exists js. split; [reflexivity|].
    now apply (inp_list_rel h).
  - split; [reflexivity|]. eexists. split; [reflexivity|].
    rewrite (dict_rel_keys _ _ _ Hkvs).
    induction (Dict.keys dj); constructor; [apply rep_str | assumption].
Qed.

Lemma endpoint_body_sim path dkvs dj acc e ej pi (h : store) :
  grown h0 h ->
  length h0 <= acc ->
  dict_rel (inp h0) dkvs dj ->
  inp h0 e ej ->
  holds_dict h0 acc h pi ->
  wp (endpoint_body path dkvs (VRef acc) e) h
     (fun h' _ =>
        frame [acc] h h'
        /\ exists pi', endpoints_loop path dj [ej] pi = Ok pi'
                       /\ holds_dict h0 acc h' pi')
     (fun e => endpoints_loop path dj [ej] pi = Raise e).
Proof.
  intros Hg Hacc Hd He Hpi. pose proof (grown_length h Hg) as Hl.
  assert (Hlt : acc < length h).
  { destruct Hpi as (kvs & Hh & _). now apply lookup_lt_Some in Hh. }
  unfold endpoint_body, entries, items.
  apply wp_bind, wp_bind, wp_as_dict.
  destruct (inp_shape h e ej Hg He) as [ | | | |a vs js Ha Hh Hvs|a ekvs edj Ha Hh Hkvs];
    cbn [deref]; rewrite ?Hh; try (apply wp_raise; reflexivity).
  apply inp_dict_rel in Hkvs; [|exact Hg].
  apply wp_ret, wp_bind, wp_alloc_fresh. intros h1 F1 L1 E1.
  assert (Hg1 : grown h0 h1) by grow.
  pose proof (holds_dict_frame acc h h1 pi Hl Hacc Hlt F1 Hpi) as Hpi1.
  cbn [endpoints_loop].
  assert (Hloop : forall ms msj,
             Forall2 (inp h0) ms msj ->
             wp (for_each ms (method_body path dkvs ekvs (VRef acc))) h1
                (fun h' _ =>
                   frame [acc] h h'
                   /\ exists pi',
                        Pure.bind (methods_loop path dj edj msj pi)
                          (endpoints_loop path dj []) = Ok pi'
                        /\ holds_dict h0 acc h' pi')
                (fun e => Pure.bind (methods_loop path dj edj msj pi)
                            (endpoints_loop path dj []) = Raise e)).
  { intros ms msj Hms.
    eapply wp_mono;
      [apply (methods_loop_sim path dkvs dj ekvs edj acc ms msj pi h1
                Hg1 Hacc Hd Hkvs Hms Hpi1) | | intros e' ->; reflexivity].
    intros h2 _ (F2 & pi2 & -> & Hpi2).
    split; [apply (frame_trans _ h h1); [now apply frame_nil | exact F2]|].
    now exists pi2. }
  apply wp_bind.
  pose proof (dict_rel_get _ _ _ "methods" Hkvs) as Hm.
  unfold Dict.get_default.
  destruct (Dict.get "methods" ekvs) as [mv|], (Dict.get "methods" edj) as [mj|];
    try contradiction.
  - eapply wp_mono; [apply (iter_sim mv mj h1 Hg1 Hm) | | intros e' ->; reflexivity].
    intros h2 ms (-> & msj & -> & Hms). cbn [Pure.bind]. now apply Hloop.
  - unfold wp at 1, iter. cbn [deref]. rewrite E1. cbn [py_iter Pure.bind].
    now apply Hloop.
Qed.

Lemma endpoints_loop_sim path dkvs dj acc es : forall esj pi (h : store),
  grown h0 h ->
  length h0 <= acc ->
  dict_rel (inp h0) dkvs dj ->
  Forall2 (inp h0) es esj ->
  holds_dict h0 acc h pi ->
  wp (for_each es (endpoint_body path dkvs (VRef acc))) h
     (fun h' _ =>
        frame [acc] h h'
        /\ exists pi', endpoints_loop path dj esj pi = Ok pi'
                       /\ holds_dict h0 acc h' pi')
     (fun e => endpoints_loop path dj esj pi = Raise e).
Proof.
  induction es as [|e es IH]; intros esj pi h Hg Hacc Hd Hes Hpi;
    inversion Hes as [|? ej ? esj' He Hrest]; subst; cbn [for_each].
  - apply wp_ret. split; [apply frame_refl|]. now exists pi.
  - assert (Hlt : acc < length h).
    { destruct Hpi as (kvs & Hh & _). now apply lookup_lt_Some in Hh. }
    rewrite endpoints_loop_cons. apply wp_bind.
    eapply wp_mono;
      [apply (endpoint_body_sim path dkvs dj acc e ej pi h Hg Hacc Hd He Hpi)
      | | intros e' ->; reflexivity].
    intros h1 _ (F1 & pi1 & -> & Hpi1). cbn [Pure.bind].
    assert (Hg1 : grown h0 h1).
    { apply (grown_frame [acc] h h1); auto. intros a [<-|[]]. lia. }
    eapply wp_mono; [apply (IH esj' pi1 h1 Hg1 Hacc Hd Hrest Hpi1) | | auto].
    intros h2 _ (F2 & pi2 & E2 & Hpi2).
    split; [eapply frame_trans; eauto|]. now exists pi2.
Qed.

Lemma route_path_item_sim path v j (h : store) :
  grown h0 h ->
  inp h0 v j ->
  wp (route_path_item path v) h
     (fun h' r =>
        frame [] h h' /\ length h < length h'
        /\ match r with
           | Some path_item =>
               exists pi,
                 Pure.route_path_item path j = Ok (Some pi)
                 /\ path_item = VRef (length h)
                 /\ holds_dict h0 (length h) h' pi
           | None => Pure.route_path_item path j = Ok None
           end)
     (fun e => Pure.route_path_item path j = Raise e).
Proof.
  intros Hg Hv. pose proof (grown_length h Hg) as Hl.
  unfold route_path_item, Pure.route_path_item.
  apply wp_bind, wp_alloc_fresh. intros h1 F1 L1 E1.
  assert (Hg1 : grown h0 h1) by grow.
  apply wp_bind, wp_as_dict.
  destruct (inp_shape h1 v j Hg1 Hv) as [ | | | |a vs js Ha Hh Hvs|a kvs dj Ha Hh Hkvs];
    cbn [deref]; rewrite ?Hh;
    try (apply wp_ret; split; [exact F1|]; split; [lia | reflexivity]).
  apply inp_dict_rel in Hkvs; [|exact Hg1].
  rewrite (dict_rel_has _ _ _ "endpoints" Hkvs).
  pose proof (dict_rel_get _ _ _ "endpoints" Hkvs) as He.
  unfold Dict.has, Dict.get_default.
  destruct (Dict.get "endpoints" kvs) as [ev|], (Dict.get "endpoints" dj) as [ej|];
    try contradiction;
    [|apply wp_ret; split; [exact F1|]; split; [lia | reflexivity]].
  apply wp_bind, wp_alloc_fresh. intros h2 F2 L2 E2.
  assert (Hg2 : grown h0 h2) by grow.
  apply wp_bind.
  eapply wp_mono; [apply (iter_sim ev ej h2 Hg2 He) | | intros e ->; reflexivity].
  intros h3 es (-> & esj & -> & Hes). cbn [Pure.bind].
  assert (H2 : holds_dict h0 (length h) h2 []).
  { exists []. split; [look | constructor]. }
  apply wp_bind.
  eapply wp_mono;
    [apply (endpoints_loop_sim path kvs dj (length h) es esj [] h2 Hg2 Hl Hkvs Hes H2)
    | | intros e ->; reflexivity].
  intros h4 _ (F4 & pi & -> & Hpi). cbn [Pure.bind].
  apply wp_ret. split; [framed|]. split; [destruct F4; lia|].
  exists pi. auto.
Qed.

Lemma route_body_sim spec fields pa route v j paths (h : store) :
  grown h0 h ->
  length h0 <= pa ->
  pa <> spec ->
  spec_in_place spec fields h ->
  Dict.get "paths" fields = Some (VRef pa) ->
  inp h0 v j ->
  holds_dict h0 pa h paths ->
  wp (route_body (VRef spec) (route, v)) h
     (fun h' _ =>
        frame [pa] h h'
        /\ spec_in_place spec fields h'
        /\ exists paths', route_step route j paths = Ok paths'
                          /\ holds_dict h0 pa h' paths')
     (fun e => route_step route j paths = Raise e).
Proof.
  intros Hg Hpa Hne Hspec Hfields Hv Hpaths.
  pose proof (grown_length h Hg) as Hl.
  assert (Hlt : pa < length h).
  { destruct Hpaths as (kvs & Hh & _). now apply lookup_lt_Some in Hh. }
  assert (Hlts : spec < length h) by now apply lookup_lt_Some in Hspec.
  unfold route_body, route_step. apply wp_bind.
  eapply wp_mono;
    [apply (route_path_item_sim (translate_path route) v j h Hg Hv)
    | | intros e ->; reflexivity].
  intros h1 built (F1 & L1 & Hbuilt).
  assert (Hg1 : grown h0 h1) by grow.
  assert (Hspec1 : spec_in_place spec fields h1).
  { unfold spec_in_place in *. destruct F1 as [_ F1]. rewrite F1; auto. }
  pose proof (holds_dict_frame pa h h1 paths Hl Hpa Hlt F1 Hpaths) as Hpaths1.
  destruct built as [path_item|];
    [|rewrite Hbuilt; apply wp_ret; split; [now apply frame_nil|];
      split; [exact Hspec1|]; now exists paths].
  destruct Hbuilt as (pi & -> & -> & (kvs & Hkvs & Hpi)). cbn [Pure.bind].
  apply wp_bind. unfold wp at 1, truthy. rewrite Hkvs.
  rewrite (dict_rel_truthy _ _ _ Hpi).
  destruct (Dict.truthy pi);
    [|apply wp_ret; split; [now apply frame_nil|];
      split; [exact Hspec1|]; now exists paths].
  apply wp_bind. unfold getitem. apply wp_bind, wp_as_dict.
  cbn [deref]. rewrite Hspec1, Hfields. apply wp_ret.
  destruct Hpaths1 as (pkvs & Hpk & Hprel).
  eapply wp_setitem_dict; [exact Hpk|]. intros h2 F2 L2 E2.
  split; [apply (frame_trans _ h h1); [now apply frame_nil | exact F2]|].
  split.
  { unfold spec_in_place in *. destruct F2 as [_ F2]. rewrite F2; auto; [lia|].
    intros [E|[]]. congruence. }
  eexists. split; [reflexivity|].
  apply (holds_dict_set pa h1 h2 paths (translate_path route) (VRef (length h)));
    auto; try lia.
  - now exists pkvs.
  - eapply rep_dict_intro; [apply window_spec; lia | exact Hkvs |].
    eapply dict_rel_impl; [|exact Hpi]. intros v' j'. apply out_lower. lia.
  - intros kvs' Hk. rewrite Hpk in Hk. inversion Hk. subst. exact E2.
Qed.

Lemma routes_loop_sim spec fields pa items : forall itemsj paths (h : store),
  grown h0 h ->
  length h0 <= pa ->
  pa <> spec ->
  spec_in_place spec fields h ->
  Dict.get "paths" fields = Some (VRef pa) ->
  dict_rel (inp h0) items itemsj ->
  holds_dict h0 pa h paths ->
  wp (for_each items (route_body (VRef spec))) h
     (fun h' _ =>
        frame [pa] h h'
        /\ exists paths', routes_loop itemsj paths = Ok paths'
                          /\ holds_dict h0 pa h' paths')
     (fun e => routes_loop itemsj paths = Raise e).
Proof.
  induction items as [|[route v] items IH];
    intros itemsj paths h Hg Hpa Hne Hspec Hfields Hitems Hpaths;
    inversion Hitems as [|? [routej j] ? itemsj' [Hk Hv] Hrest]; subst;
    cbn [for_each routes_loop].
  - apply wp_ret. split; [apply frame_refl|]. now exists paths.
  - simpl in Hk, Hv. subst routej.
    assert (Hlt : pa < length h).
    { destruct Hpaths as (kvs & Hh & _). now apply lookup_lt_Some in Hh. }
    apply wp_bind.
    eapply wp_mono;
      [apply (route_body_sim spec fields pa route v j paths h
                Hg Hpa Hne Hspec Hfields Hv Hpaths)
      | | intros e ->; reflexivity].
    intros h1 _ (F1 & Hspec1 & paths1 & -> & Hpaths1). cbn [Pure.bind].
    assert (Hg1 : grown h0 h1).
    { apply (grown_frame [pa] h h1); auto. intros a [<-|[]]. lia. }
    eapply wp_mono;
      [apply (IH itemsj' paths1 h1 Hg1 Hpa Hne Hspec1 Hfields Hrest Hpaths1)
      | | auto].
    intros h2 _ (F2 & paths2 & E2 & Hpaths2).
    split; [eapply frame_trans; eauto|]. now exists paths2.
Qed.

Lemma grown_refl : grown h0 h0.
Proof. unfold grown. now apply take_ge. Qed.

Lemma out_anywhere lo (h : store) v j :
  out h0 lo h v j -> rep (fun _ => true) h v j.
Proof. apply rep_weaken. auto. Qed.

(** Run on a store whose value [routes] stands for the JSON value [j],
    [generate_openapi_spec] over the store returns a value that stands for
    the document that [generate_openapi_spec] over JSON gives for [j], and
    raises what that one raises. *)
Theorem generate_openapi_spec_refines base_url routes j :
  inp h0 routes j ->
  wp (generate_openapi_spec base_url routes) h0
     (fun h' doc =>
        exists docj,
          Pure.generate_openapi_spec base_url j = Ok docj
          /\ rep (fun _ => true) h' doc docj)
     (fun e => Pure.generate_openapi_spec base_url j = Raise e).
Proof.
  intros Hr. pose proof grown_refl as Hg.
  unfold generate_openapi_spec.
  apply wp_bind, wp_alloc_fresh. intros h1 F1 L1 E1.
  apply wp_bind, wp_alloc_fresh. intros h2 F2 L2 E2.
  apply wp_bind, wp_alloc_fresh. intros h3 F3 L3 E3.
  apply wp_bind, wp_alloc_fresh. intros h4 F4 L4 E4.
  apply wp_bind, wp_alloc_fresh. intros h5 F5 L5 E5.
  assert (Hg5 : grown h0 h5) by grow.
  unfold items. apply wp_bind, wp_bind, wp_as_dict.
  destruct (inp_shape h5 routes j Hg5 Hr)
    as [ | | | |a vs js Ha Hh Hvs|a kvs dj Ha Hh Hkvs];
    cbn [deref]; rewrite ?Hh; try (apply wp_raise; reflexivity).
  apply inp_dict_rel in Hkvs; [|exact Hg5].
  apply wp_ret, wp_bind.
  match type of E5 with
  | _ = Some (ODict ?f) => set (fields := f) in *
  end.
  assert (Hpaths : holds_dict h0 (length h3) h5 []).
  { exists []. split; [look | constructor]. }
  eapply wp_mono;
    [apply (routes_loop_sim (length h4) fields (length h3) kvs dj [] h5 Hg5
              ltac:(lia) ltac:(lia) E5 eq_refl Hkvs Hpaths)
    | | intros e He; cbn [Pure.generate_openapi_spec]; now rewrite He].
  intros h6 _ (F6 & paths & Hl & pkvs & Hp & Hprel).
  apply wp_ret. exists (envelope base_url paths).
  split; [cbn [Pure.generate_openapi_spec]; now rewrite Hl|].
  assert (L6 : length h5 <= length h6) by apply F6.
  apply (out_anywhere 0 h6).
  eapply rep_dict_intro; [apply window_spec; lia | look |].
  repeat constructor; simpl; try reflexivity; try apply rep_str.
  - eapply rep_dict_intro; [apply window_spec; lia | look |].
    repeat constructor; apply rep_str.
  - eapply rep_list_intro; [apply window_spec; lia | look |].
    repeat constructor.
    eapply rep_dict_intro; [apply window_spec; lia | look |].
    repeat constructor; apply rep_str.
  - eapply rep_dict_intro; [apply window_spec; lia | exact Hp |].
    eapply dict_rel_impl; [|exact Hprel]. intros v' j'. apply out_lower. lia.
Qed.

(** The same for [process_arg_details], which raises nothing. *)
Theorem process_arg_details_refines arg_name arg_details j :
  inp h0 arg_details j ->
  wp (process_arg_details arg_name arg_details) h0
     (fun h' param =>
        rep (fun _ => true) h' param (Pure.process_arg_details arg_name j))
     (fun _ => False).
Proof.
  intros Hv.
  eapply wp_mono;
    [apply (process_arg_details_sim arg_name arg_details j h0 grown_refl Hv)
    | | auto].
  intros h' r (_ & _ & Hr). now apply out_anywhere in Hr.
Qed.

End Simulation.

End Refinement.

(* ===================================================================== *)
(** * Further properties of the generator *)
(* ===================================================================== *)

(** ** Declared parameters *)

(** X1: whatever the argument spec is, [process_arg_details] gives a
    mapping with the keys name, in, required, schema and description, in
    this order, with the argument's name, with [in=query], and with a schema
    whose keys are [type] alone or [type] and [enum].  When the spec is no
    mapping, the result is the default parameter: not required, of type
    ["string"], with an empty description.  When the spec is a mapping,
    [enum] is there exactly when the spec has one, with the spec's value;
    [type] is the spec's [type], its first element when that is a list, and
    ["string"] when it is absent or an empty list; [required] and
    [description] are the spec's, whatever their shape, with [False] and
    the empty string when absent. *)
Theorem declared_parameter_shape (arg_name : string) (arg_details : json) :
  exists d s,
    process_arg_details arg_name arg_details = JDict d
    /\ Dict.keys d = ["name"; "in"; "required"; "schema"; "description"]%string
    /\ Dict.get "name" d = Some (JStr arg_name)
    /\ Dict.get "in" d = Some (JStr "query")
    /\ Dict.get "schema" d = Some (JDict s)
    /\ (Dict.keys s = ["type"]%string \/ Dict.keys s = ["type"; "enum"]%string)
    /\ ((forall spec, arg_details <> JDict spec) ->
        Dict.get "required" d = Some (JBool false)
        /\ s = [("type", JStr "string")]%string
        /\ Dict.get "description" d = Some (JStr ""))
    /\ forall spec, arg_details = JDict spec ->
         Dict.get "enum" s = Dict.get "enum" spec
         /\ Dict.keys s
            = (if Dict.has "enum" spec then ["type"; "enum"] else ["type"])%string
         /\ Dict.get "type" s
            = Some match Dict.get "type" spec with
                   | None | Some (JList []) => JStr "string"
                   | Some (JList (first :: _)) => first
                   | Some t => t
                   end
         /\ Dict.get "required" d
            = Some (Dict.get_default "required" (JBool false) spec)
         /\ Dict.get "description" d
            = Some (Dict.get_default "description" (JStr "") spec).
Proof.
  destruct arg_details as [| | | | |spec];
    try (do 2 eexists; do 5 (split; [reflexivity|]);
         split; [left; reflexivity|];
         split; [intros _; do 2 (split; [reflexivity|]); reflexivity|];
         intros ? E; discriminate E).
  unfold process_arg_details, Dict.get_default, Dict.has.
  destruct (Dict.get "enum" spec) as [enum|] eqn:Ee;
    do 2 eexists; do 5 (split; [reflexivity|]);
    (split; [first [left; reflexivity | right; reflexivity]|]);
    (split; [intros Hn; now destruct (Hn spec)|]);
    intros spec' E; assert (E' : spec' = spec) by congruence; rewrite E', Ee;
    (split; [reflexivity|]); (split; [reflexivity|]);
    (split; [|split; reflexivity]);
    destruct (Dict.get "type" spec) as [[| | | |[|first rest]|]|]; reflexivity.
Qed.

(** ** Path parameters *)

Lemma span_not_spec stop s : forall run rest,
  Str.span_not stop s = (run, rest) ->
  s = (run ++ rest)%string
  /\ ~ In stop (list_ascii_of_string run)
  /\ (rest = EmptyString \/ exists r, rest = String stop r).
Proof.
  induction s as [|c s IH]; intros run rest H; simpl in H.
  - inversion H. subst. simpl. auto.
  - destruct (Ascii.eqb_spec c stop) as [->|Hne].
    + inversion H. subst. simpl. split; [reflexivity|]. split; [auto|].
      right. now exists s.
    + destruct (Str.span_not stop s) as [run' rest'] eqn:E.
      inversion H. subst. destruct (IH run' rest eq_refl) as (Hs & Hn & Hr).
      simpl. split; [now rewrite <- Hs|]. split; [|exact Hr].
      intros [E'|Hin]; [congruence | auto].
Qed.

(** Every capture of a scan is captured by a match at some position. *)
Lemma hits_pieces {A : Type} (match_here : string -> option (A * nat)) (a : A) s :
  forall skip,
    In a (Scan.hits (Scan.pieces match_here skip s)) ->
    exists pre suf n, s = (pre ++ suf)%string /\ match_here suf = Some (a, n).
Proof.
  induction s as [|c s IH]; intros skip H; simpl in H; [destruct H|].
  assert (Hlater : forall k, In a (Scan.hits (Scan.pieces match_here k s)) ->
            exists pre suf n,
              String c s = (pre ++ suf)%string /\ match_here suf = Some (a, n)).
  { intros k Hk. destruct (IH k Hk) as (pre & suf & n & -> & Hm).
    exists (String c pre), suf, n. split; [reflexivity | exact Hm]. }
  destruct skip as [|k]; [|now apply (Hlater k)].
  destruct (match_here (String c s)) as [[a' n]|] eqn:E; simpl in H.
  - destruct H as [<-|H]; [|now apply (Hlater (Nat.pred n))].
    exists EmptyString, (String c s), n. split; [reflexivity | exact E].
  - now apply (Hlater 0).
Qed.

Lemma brace_param_spec suf name n :
  Re.brace_param suf = Some (name, n) ->
  name <> EmptyString
  /\ ~ In "}"%char (list_ascii_of_string name)
  /\ exists rest, suf = ("{" ++ name ++ "}" ++ rest)%string.
Proof.
  unfold Re.brace_param. destruct suf as [|c s1]; [discriminate|].
  destruct (Ascii.eqb_spec c "{"%char) as [->|Hne].
  2: { destruct c as [[] [] [] [] [] [] [] []]; try discriminate.
       now destruct Hne. }
  destruct (Str.span_not "}" s1) as [run rest] eqn:E.
  destruct (span_not_spec _ _ _ _ E) as (Hs & Hn & Hr).
  destruct run as [|r0 run]; [discriminate|].
  destruct rest as [|c' rest]; [discriminate|].
  intros H. inversion H. subst name n. clear H.
  destruct Hr as [Hr|(r & Hr)]; [discriminate|]. inversion Hr. subst c' r.
  split; [discriminate|]. split; [exact Hn|].
  exists rest. simpl. now rewrite Hs.
Qed.

(** X2: every path parameter name that line 103 extracts from a path is
    non-empty, contains no closing brace, and stands in the path between an
    opening and a closing brace. *)
Theorem path_param_names_between_braces (path name : string) :
  In name (path_params_of path) ->
  name <> EmptyString
  /\ ~ In "}"%char (list_ascii_of_string name)
  /\ exists pre post, path = (pre ++ "{" ++ name ++ "}" ++ post)%string.
Proof.
  intros H. unfold path_params_of, Scan.findall in H.
  destruct (hits_pieces _ _ _ _ H) as (pre & suf & n & -> & Hm).
  destruct (brace_param_spec _ _ _ Hm) as (Hne & Hnb & rest & ->).
  split; [exact Hne|]. split; [exact Hnb|]. now exists pre, rest.
Qed.

Lemma path_param_names_between_braces_witness :
  In "{id"%string (path_params_of "/posts//{{id}}")
  /\ exists pre post,
       "/posts//{{id}}"%string = (pre ++ "{" ++ "{id" ++ "}" ++ post)%string.
Proof.
  assert (H : In "{id"%string (path_params_of "/posts//{{id}}"))
    by (vm_compute; now left).
  split; [exact H|].
  exact (proj2 (proj2 (path_param_names_between_braces _ _ H))).
Defined.

(** ** The namespace prefix *)

(** X3: a route pattern and the same pattern behind the prefix [/wp/v2]
    are translated to the same path, so that the two are one key of
    [paths]. *)
Theorem namespace_prefix_dropped (route : string) :
  translate_path ("/wp/v2" ++ route) = translate_path route.
Proof.
  unfold translate_path.
  assert (E : str_replace "/wp/v2" "" ("/wp/v2" ++ route)
              = str_replace "/wp/v2" "" route) by (destruct route; reflexivity).
  now rewrite E.
Qed.

(** ** What an operation says about its place *)

(** X4: in a generated document, the operation stored for method [m] under
    the path [p] has the summary made of [m] in upper case, a blank and
    [p]; its description is the [description] of a route of the input that
    translates to [p] (the empty string when that route has none), not that
    of an endpoint; and [m] is the lower-cased name of a method listed by
    an endpoint of that route, whose arguments the parameters are built
    from. *)
Theorem operation_describes_its_place base routes doc p m op :
  generate_openapi_spec base (JDict routes) = Ok doc ->
  operation_in doc p m op ->
  field "summary" op = Some (JStr (Str.upper m ++ " " ++ p)%string)
  /\ exists route details endpoint,
       In (route, JDict details) routes
       /\ translate_path route = p
       /\ field "description" op
          = Some (Dict.get_default "description" (JStr "") details)
       /\ In (JDict endpoint) (endpoints_of details)
       /\ In m (method_names endpoint)
       /\ parameters_of op = build_parameters p endpoint.
Proof.
  intros H Hop.
  destruct (generated_operation_sound _ _ _ _ _ _ H Hop)
    as (route & details & e & Hr & Hp & He & Hm & ->).
  split; [reflexivity|].
  exists route, details, e. repeat split; auto.
Qed.

Lemma operation_describes_its_place_witness :
  generate_openapi_spec Sample.base (JDict Sample.posts) = Ok Sample.posts_doc
  /\ exists op,
       operation_in Sample.posts_doc "/posts//{{id}}" "post" op
       /\ field "summary" op = Some (JStr "POST /posts//{{id}}")
       /\ field "description" op = Some (JStr "Post").
Proof.
  assert (Hgen : generate_openapi_spec Sample.base (JDict Sample.posts)
                 = Ok Sample.posts_doc) by reflexivity.
  split; [exact Hgen|].
  set (op := build_operation "/posts//{{id}}"
               [("description", JStr "Post");
                ("endpoints",
                 JList [Sample.endpoint ["GET"%string; "POST"%string] Sample.post_args])]
               "post"
               (build_parameters "/posts//{{id}}"
                  [("methods", JList [JStr "GET"; JStr "POST"]);
                   ("args", JDict Sample.post_args)])).
  assert (Hop : operation_in Sample.posts_doc "/posts//{{id}}" "post" op).
  { eexists. split; [apply in_hd | right; apply in_hd]. }
  destruct (operation_describes_its_place _ _ _ _ _ _ Hgen Hop) as [Hs _].
  exists op. split; [exact Hop|]. split; [exact Hs | reflexivity].
Defined.

(** ** The methods of a PathItem *)

Lemma lower_char_idempotent c : Str.lower_char (Str.lower_char c) = Str.lower_char c.
Proof. destruct c as [[] [] [] [] [] [] [] []]; reflexivity. Qed.

Lemma lower_idempotent s : Str.lower (Str.lower s) = Str.lower s.
Proof.
  induction s as [|c s IH]; simpl; [reflexivity|].
  now rewrite lower_char_idempotent, IH.
Qed.

Lemma has_in_keys {V : Type} k (d : list (string * V)) :
  Dict.has k d = true <-> In k (Dict.keys d).
Proof.
  unfold Dict.has. induction d as [|[k' v] d IH]; simpl.
  - split; [discriminate | intros []].
  - destruct (String.eqb_spec k k') as [->|Hne].
    + split; auto.
    + rewrite IH. split; [now right | intros [E|H]; congruence].
Qed.

Lemma keys_set {V : Type} k (v : V) d k' :
  In k' (Dict.keys (Dict.set k v d)) <-> k' = k \/ In k' (Dict.keys d).
Proof.
  induction d as [|[k0 v0] d IH]; simpl.
  - split; [intros [<-|[]]; now left | intros [->|[]]; now left].
  - destruct (String.eqb_spec k k0) as [->|Hne]; simpl.
    + split; [intros [<-|H]; auto | intros [->|[<-|H]]; auto].
    + rewrite IH. split; [intros [<-|[->|H]]; auto | intros [->|[<-|H]]; auto].
Qed.

Lemma nodup_keys_set {V : Type} k (v : V) d :
  List.NoDup (Dict.keys d) -> List.NoDup (Dict.keys (Dict.set k v d)).
Proof.
  induction d as [|[k0 v0] d IH]; simpl; intros H.
  - constructor; [intros [] | constructor].
  - inversion H as [|? ? Hn Hd]. subst.
    destruct (String.eqb_spec k k0) as [->|Hne]; simpl; [exact H|].
    constructor; [|auto].
    intros Hin. apply keys_set in Hin as [E|Hin]; [congruence | contradiction].
Qed.

Lemma methods_loop_keys path details endpoint ms : forall pi pi',
  methods_loop path details endpoint ms pi = Ok pi' ->
  (forall m, In m (Dict.keys pi') <-> In m (Dict.keys pi) \/ In m (lowered ms))
  /\ (List.NoDup (Dict.keys pi) -> List.NoDup (Dict.keys pi')).
Proof.
  induction ms as [|v ms IH]; intros pi pi' H; simpl in H.
  - inversion H. subst. split; [intros m; simpl; tauto | auto].
  - apply bind_ok in H as (s & Hs & H).
    apply py_lower_ok in Hs as (s0 & -> & ->).
    destruct (IH _ _ H) as [Hk Hn]. split.
    + intros m. rewrite Hk, keys_set. simpl. intuition.
    + intros Hd. now apply Hn, nodup_keys_set.
Qed.

Lemma endpoints_loop_keys path details eps : forall pi pi',
  endpoints_loop path details eps pi = Ok pi' ->
  (forall m, In m (Dict.keys pi')
             <-> In m (Dict.keys pi)
                 \/ exists e, In (JDict e) eps /\ In m (method_names e))
  /\ (List.NoDup (Dict.keys pi) -> List.NoDup (Dict.keys pi')).
Proof.
  induction eps as [|e eps IH]; intros pi pi' H; simpl in H.
  - inversion H. subst. split; [|auto].
    intros m. split; [now left | intros [?|(e & [] & _)]; assumption].
  - destruct e as [| | | | |endpoint]; try discriminate.
    apply bind_ok in H as (ms & Hms & H).
    apply bind_ok in H as (pi1 & Hpi1 & H).
    destruct (IH _ _ H) as [Hk Hn].
    destruct (methods_loop_keys _ _ _ _ _ _ Hpi1) as [Hk1 Hn1].
    assert (Hnames : method_names endpoint = lowered ms).
    { unfold method_names. now rewrite Hms. }
    split; [|auto].
    intros m. rewrite Hk, Hk1. split.
    + intros [[H0|H0]|(e & He & Hm)]; [now left | right | right].
      * exists endpoint. split; [now left | now rewrite Hnames].
      * exists e. split; [now right | exact Hm].
    + intros [H0|(e & [E|He] & Hm)]; [now left; left | | right; eauto].
      inversion E. subst e. left. right. now rewrite <- Hnames.
Qed.

Lemma is_ascii_lower s : Str.is_ascii (Str.lower s) = Str.is_ascii s.
Proof.
  unfold Str.is_ascii. induction s as [|c s IH]; simpl; [reflexivity|].
  rewrite IH. f_equal.
  destruct c as [[] [] [] [] [] [] [] []]; reflexivity.
Qed.

Lemma lowered_in ms m :
  In m (lowered ms) -> exists s, In (JStr s) ms /\ m = Str.lower s.
Proof.
  induction ms as [|v ms IH]; simpl; [intros []|].
  rewrite in_app_iff. intros [H|H].
  - destruct v; try destruct H as [<-|[]]; try destruct H. eauto.
  - destruct (IH H) as (s & Hs & ->). eauto.
Qed.

(** X5: for a route whose endpoints list strings of ASCII characters as
    methods, the keys of the route's PathItem are exactly the listed
    methods, lower-cased: none is left out and none is added, whether or
    not the string is the name of an HTTP method; no key occurs twice, and
    every key is a string of ASCII characters without an upper-case
    letter. *)
Theorem path_item_methods path details pi :
  route_path_item path (JDict details) = Ok (Some pi) ->
  (forall endpoint s,
     In (JDict endpoint) (endpoints_of details) ->
     In (JStr s) (listed_methods endpoint) ->
     Str.is_ascii s = true) ->
  (forall m, In m (Dict.keys pi)
             <-> exists endpoint s,
                   In (JDict endpoint) (endpoints_of details)
                   /\ In (JStr s) (listed_methods endpoint)
                   /\ m = Str.lower s)
  /\ List.NoDup (Dict.keys pi)
  /\ (forall m, In m (Dict.keys pi) ->
        Str.is_ascii m = true /\ Str.lower m = m).
Proof.
  unfold route_path_item, endpoints_of.
  destruct (Dict.has "endpoints" details); [|discriminate].
  intros H. apply bind_ok in H as (eps & Heps & H).
  apply bind_ok in H as (pi' & Hl & H). inversion H. subst pi'. clear H.
  rewrite Heps. intros Hascii.
  destruct (endpoints_loop_keys _ _ _ _ _ Hl) as [Hk Hn].
  assert (Hiff : forall m, In m (Dict.keys pi)
                   <-> exists e s, In (JDict e) eps
                                   /\ In (JStr s) (listed_methods e)
                                   /\ m = Str.lower s).
  { intros m. rewrite Hk. simpl. split.
    - intros [[]|(e & He & Hm)]. exists e.
      unfold method_names in Hm. unfold listed_methods.
      destruct (py_iter (Dict.get_default "methods" (JList []) e)) as [ms|];
        [|destruct Hm].
      destruct (lowered_in _ _ Hm) as (s0 & Hs & ->). eauto.
    - intros (e & s0 & He & Hs & ->). right. exists e. split; [exact He|].
      unfold method_names. unfold listed_methods in Hs.
      destruct (py_iter (Dict.get_default "methods" (JList []) e)) as [ms|];
        [|destruct Hs].
      unfold lowered. apply in_flat_map. exists (JStr s0). split; [exact Hs|].
      now left. }
  split; [exact Hiff|]. split; [apply Hn; constructor|].
  intros m Hm. apply Hiff in Hm as (e & s0 & He & Hs & ->).
  split; [|apply lower_idempotent].
  rewrite is_ascii_lower. eapply Hascii; eauto.
Qed.

Lemma path_item_methods_witness :
  route_path_item "/a" (JDict Sample.two_endpoints) = Ok (Some Sample.two_endpoints_item)
  /\ (forall endpoint s,
        In (JDict endpoint) (endpoints_of Sample.two_endpoints) ->
        In (JStr s) (listed_methods endpoint) ->
        Str.is_ascii s = true)
  /\ Dict.keys Sample.two_endpoints_item = ["get"%string]
  /\ forall m, In m (Dict.keys Sample.two_endpoints_item) ->
       Str.is_ascii m = true /\ Str.lower m = m.
Proof.
  assert (H : route_path_item "/a" (JDict Sample.two_endpoints)
              = Ok (Some Sample.two_endpoints_item)) by reflexivity.
  assert (Ha : forall endpoint s,
             In (JDict endpoint) (endpoints_of Sample.two_endpoints) ->
             In (JStr s) (listed_methods endpoint) ->
             Str.is_ascii s = true).
  { intros endpoint s [E|[E|[]]]; inversion E; subst endpoint;
      intros [E'|[]]; inversion E'; reflexivity. }
  split; [exact H|]. split; [exact Ha|]. split; [reflexivity|].
  exact (proj2 (proj2 (path_item_methods _ _ _ H Ha))).
Defined.

(** ** The keys of [paths] *)

Lemma length_set {V : Type} k (v : V) d : length (Dict.set k v d) <= S (length d).
Proof.
  induction d as [|[k0 v0] d IH]; simpl; [lia|].
  destruct (String.eqb k k0); simpl; lia.
Qed.

(** A route that gives at least one operation. *)
Lemma route_step_keys route details paths paths' :
  route_step route details paths = Ok paths' ->
  (forall p, In p (Dict.keys paths')
             <-> In p (Dict.keys paths)
                 \/ (p = translate_path route
                     /\ exists pi, route_path_item (translate_path route) details
                                   = Ok (Some pi) /\ pi <> []))
  /\ (List.NoDup (Dict.keys paths) -> List.NoDup (Dict.keys paths'))
  /\ length paths' <= S (length paths).
Proof.
  unfold route_step. intros H.
  apply bind_ok in H as (built & Hb & H). rewrite Hb.
  destruct built as [pi|].
  - destruct pi as [|kv pi]; simpl in H; inversion H; subst.
    + split; [|split; [auto | lia]].
      intros p. split; [now left | intros [?|(_ & pi & E & Hne)]; [assumption|]].
      inversion E. now subst.
    + split; [|split; [apply nodup_keys_set | apply length_set]].
      intros p. rewrite keys_set. split.
      * intros [->|?]; [right | now left].
        split; [reflexivity|]. eexists. split; [reflexivity | discriminate].
      * intros [?|[-> _]]; [now right | now left].
  - inversion H. subst. split; [|split; [auto | lia]].
    intros p. split; [now left | intros [?|(_ & pi & E & _)]; [assumption|]].
    discriminate E.
Qed.

Lemma routes_loop_keys items : forall paths paths',
  routes_loop items paths = Ok paths' ->
  (forall p, In p (Dict.keys paths')
             <-> In p (Dict.keys paths)
                 \/ exists route details pi,
                      In (route, details) items
                      /\ p = translate_path route
                      /\ route_path_item (translate_path route) details
                         = Ok (Some pi)
                      /\ pi <> [])
  /\ (List.NoDup (Dict.keys paths) -> List.NoDup (Dict.keys paths'))
  /\ length paths' <= length paths + length items.
Proof.
  induction items as [|[r d] items IH]; intros paths paths' H; simpl in H.
  - inversion H. subst. split; [|split; [auto | lia]].
    intros p. split; [now left | intros [?|(? & ? & ? & [] & _)]; assumption].
  - apply bind_ok in H as (paths1 & H1 & H).
    destruct (route_step_keys _ _ _ _ H1) as (Hk1 & Hn1 & Hl1).
    destruct (IH _ _ H) as (Hk & Hn & Hl).
    split; [|split; [auto | simpl; lia]].
    intros p. rewrite Hk, Hk1. split.
    + intros [[?|(-> & pi & E & Hne)]|(r' & d' & pi & Hin & Hp & E & Hne)].
      * now left.
      * right. exists r, d, pi. split; [now left | auto].
      * right. exists r', d', pi. split; [now right | auto].
    + intros [?|(r' & d' & pi & [E0|Hin] & Hp & E & Hne)].
      * now left; left.
      * inversion E0. subst r' d'. left. right. split; [exact Hp | eauto].
      * right. exists r', d', pi. auto.
Qed.

(** X6: the keys of [paths] are exactly the translated paths of the routes
    that yield at least one operation; each occurs once, however many
    routes translate to it, so the number of paths is at most the number of
    routes; and each starts with a slash. *)
Theorem paths_keys base routes doc :
  generate_openapi_spec base (JDict routes) = Ok doc ->
  (forall p, In p (Dict.keys (paths_of doc))
             <-> exists route details pi,
                   In (route, details) routes
                   /\ p = translate_path route
                   /\ route_path_item (translate_path route) details = Ok (Some pi)
                   /\ pi <> [])
  /\ List.NoDup (Dict.keys (paths_of doc))
  /\ length (paths_of doc) <= length routes
  /\ (forall p, In p (Dict.keys (paths_of doc)) -> Str.startswith p "/" = true).
Proof.
  intros H. apply generate_ok in H as (items & paths & E & Hl & ->).
  inversion E. subst items. clear E. rewrite paths_of_envelope.
  destruct (routes_loop_keys _ _ _ Hl) as (Hk & Hn & Hlen).
  assert (Hiff : forall p, In p (Dict.keys paths)
                   <-> exists route details pi,
                         In (route, details) routes
                         /\ p = translate_path route
                         /\ route_path_item (translate_path route) details
                            = Ok (Some pi)
                         /\ pi <> []).
  { intros p. rewrite Hk. simpl. tauto. }
  split; [exact Hiff|]. split; [apply Hn; constructor|]. split; [exact Hlen|].
  intros p Hp. apply Hiff in Hp as (r & _ & _ & _ & -> & _).
  unfold translate_path.
  match goal with |- context [negb (Str.startswith ?x "/")] => set (path := x) end.
  destruct (Str.startswith path "/") eqn:Es; cbn [negb];
    [exact Es | apply startswith_slash_cons].
Qed.

Lemma paths_keys_witness :
  generate_openapi_spec Sample.base (JDict Sample.shadowed) = Ok Sample.shadowed_doc
  /\ length Sample.shadowed = 2
  /\ Dict.keys (paths_of Sample.shadowed_doc) = ["/a"%string]
  /\ List.NoDup (Dict.keys (paths_of Sample.shadowed_doc)).
Proof.
  assert (H : generate_openapi_spec Sample.base (JDict Sample.shadowed)
              = Ok Sample.shadowed_doc) by reflexivity.
  split; [exact H|]. split; [reflexivity|]. split; [reflexivity|].
  exact (proj1 (proj2 (paths_keys _ _ _ H))).
Defined.

(** ** The first malformed route *)

(** X7: the first route whose processing raises ends the whole generation
    with its exception, a [TypeError] or an [AttributeError]: no document is
    returned, whatever the routes before it have built and whatever follows
    it in the input. *)
Theorem first_malformed_route_aborts base pre route details post e :
  routes_ok pre = true ->
  route_path_item (translate_path route) details = Raise e ->
  generate_openapi_spec base (JDict (pre ++ (route, details) :: post)) = Raise e
  /\ (e = TypeError \/ e = AttributeError).
Proof.
  intros Hpre Hr. split; [|eapply route_path_item_raises; eauto].
  simpl. rewrite routes_loop_app.
  pose proof (routes_loop_is_ok pre []) as Hok. rewrite Hpre in Hok.
  destruct (routes_loop pre []) as [paths1|]; [|discriminate]. simpl.
  unfold route_step. now rewrite Hr.
Qed.

Lemma first_malformed_route_aborts_witness :
  routes_ok Sample.with_empty = true
  /\ route_path_item (translate_path "/wp/v2/a") (JDict [("endpoints", JNull)])
     = Raise TypeError
  /\ generate_openapi_spec Sample.base
       (JDict (Sample.with_empty ++ Sample.null_endpoints ++ Sample.posts))
     = Raise TypeError.
Proof.
  assert (H1 : routes_ok Sample.with_empty = true) by reflexivity.
  assert (H2 : route_path_item (translate_path "/wp/v2/a")
                 (JDict [("endpoints", JNull)]) = Raise TypeError) by reflexivity.
  split; [exact H1|]. split; [exact H2|].
  exact (proj1 (first_malformed_route_aborts Sample.base Sample.with_empty
                  "/wp/v2/a" (JDict [("endpoints", JNull)]) Sample.posts
                  TypeError H1 H2)).
Defined.

(** ** Shared objects *)

Module Sharing.
Import Store.

Ltac frame_lookup :=
  match goal with
  | H : ?h !! ?a = Some _ |- ?h !! ?a = Some _ => exact H
  | F : frame _ ?h1 ?h |- ?h !! ?a = Some _ =>
      rewrite (proj2 F a); [frame_lookup | lia | simpl; intuition lia]
  end.

Lemma process_arg_details_enum arg_name a spec enum (h : store) :
  h !! a = Some (ODict spec) ->
  Dict.get "enum" spec = Some enum ->
  wp (process_arg_details arg_name (VRef a)) h
     (fun h' r =>
        exists p s pkvs skvs,
          r = VRef p
          /\ length h <= p /\ length h <= s
          /\ h' !! p = Some (ODict pkvs)
          /\ Dict.get "schema" pkvs = Some (VRef s)
          /\ h' !! s = Some (ODict skvs)
          /\ Dict.get "enum" skvs = Some enum
          /\ h' !! a = Some (ODict spec))
     (fun _ => False).
Proof.
  intros Ha He. pose proof (lookup_lt_Some _ _ _ Ha) as Hlt.
  unfold process_arg_details.
  apply Refinement.wp_bind, Refinement.wp_alloc_fresh. intros h1 F1 L1 E1.
  apply Refinement.wp_bind, Refinement.wp_alloc_fresh. intros h2 F2 L2 E2.
  apply Refinement.wp_bind, Refinement.wp_as_dict. cbn [deref].
  assert (Ha2 : h2 !! a = Some (ODict spec)) by frame_lookup.
  rewrite Ha2.
  apply Refinement.wp_bind, Refinement.wp_as_list.
  apply Refinement.wp_bind, Refinement.wp_alloc_fresh. intros h3 F3 L3 E3.
  rewrite He. apply Refinement.wp_bind.
  eapply Refinement.wp_setitem_dict; [exact E3|]. intros h4 F4 L4 E4.
  apply Refinement.wp_bind, Refinement.wp_alloc_fresh. intros h5 F5 L5 E5.
  apply Refinement.wp_bind.
  eapply Refinement.wp_update_dict; [frame_lookup | exact E5|].
  intros h6 F6 L6 E6. apply Refinement.wp_ret.
  exists (length h1), (length h2). do 2 eexists.
  split; [reflexivity|]. split; [lia|]. split; [lia|].
  split; [exact E6|]. split; [reflexivity|].
  split; [frame_lookup|]. split; [reflexivity|]. frame_lookup.
Qed.

(** X8: for an argument spec that is a mapping with an [enum],
    [process_arg_details] returns a new parameter object whose schema is a
    new object as well, while the schema's [enum] is the very value the
    spec holds: a list there is shared with the input, not copied, so that
    every operation built from the spec refers to the one list.  The spec
    itself is as before. *)
Theorem enum_is_shared_not_copied arg_name a spec enum (h : store) :
  h !! a = Some (ODict spec) ->
  Dict.get "enum" spec = Some enum ->
  exists h' p s pkvs skvs,
    process_arg_details arg_name (VRef a) h = (h', Ok (VRef p))
    /\ length h <= p /\ length h <= s
    /\ h' !! p = Some (ODict pkvs)
    /\ Dict.get "schema" pkvs = Some (VRef s)
    /\ h' !! s = Some (ODict skvs)
    /\ Dict.get "enum" skvs = Some enum
    /\ h' !! a = Some (ODict spec).
Proof.
  intros Ha He.
  pose proof (process_arg_details_enum arg_name a spec enum h Ha He) as H.
  unfold wp in H.
  destruct (process_arg_details arg_name (VRef a) h) as [h' [r|e]]; [|destruct H].
  destruct H as (p & s & pkvs & skvs & -> & H).
  exists h', p, s, pkvs, skvs. split; [reflexivity | exact H].
Qed.

Lemma enum_is_shared_not_copied_witness :
  let h := [ OList [VStr "view"; VStr "edit"];
             ODict [("type", VStr "string"); ("enum", VRef 0)] ] in
  h !! 1 = Some (ODict [("type", VStr "string"); ("enum", VRef 0)])
  /\ exists h' p s pkvs skvs,
       process_arg_details "context" (VRef 1) h = (h', Ok (VRef p))
       /\ length h <= p /\ length h <= s
       /\ h' !! p = Some (ODict pkvs)
       /\ Dict.get "schema" pkvs = Some (VRef s)
       /\ h' !! s = Some (ODict skvs)
       /\ Dict.get "enum" skvs = Some (VRef 0)
       /\ h' !! 1 = Some (ODict [("type", VStr "string"); ("enum", VRef 0)]).
Proof.
  split; [reflexivity|].
  apply (enum_is_shared_not_copied "context" 1
           [("type", VStr "string"); ("enum", VRef 0)] (VRef 0)); reflexivity.
Defined.

(** X9: the outcome of [generate_openapi_spec] depends on the JSON content
    of its input alone: run on two stores whose inputs stand for the same
    JSON value, however the objects are shared in each, the two calls raise
    the same exception or return values that stand for one and the same
    document, the one computed from the JSON value. *)
Theorem sharing_is_irrelevant (h1 h2 : store) v1 v2 j base_url :
  inp h1 v1 j ->
  inp h2 v2 j ->
  match generate_openapi_spec base_url v1 h1,
        generate_openapi_spec base_url v2 h2 with
  | (h1', Ok d1), (h2', Ok d2) =>
      exists doc,
        Pure.generate_openapi_spec base_url j = Ok doc
        /\ rep (fun _ => true) h1' d1 doc
        /\ rep (fun _ => true) h2' d2 doc
  | (_, Raise e1), (_, Raise e2) =>
      e1 = e2 /\ Pure.generate_openapi_spec base_url j = Raise e1
  | _, _ => False
  end.
Proof.
  intros H1 H2.
  pose proof (Refinement.generate_openapi_spec_refines h1 base_url v1 j H1) as R1.
  pose proof (Refinement.generate_openapi_spec_refines h2 base_url v2 j H2) as R2.
  unfold wp in R1, R2.
  destruct (generate_openapi_spec base_url v1 h1) as [h1' [d1|e1]],
           (generate_openapi_spec base_url v2 h2) as [h2' [d2|e2]].
  - destruct R1 as (doc1 & E1 & Hr1), R2 as (doc2 & E2 & Hr2).
    exists doc1. split; [exact E1|]. split; [exact Hr1|].
    rewrite E1 in E2. inversion E2. now subst.
  - destruct R1 as (doc1 & E1 & _). congruence.
  - destruct R2 as (doc2 & E2 & _). congruence.
  - split; [congruence | exact R1].
Qed.

Lemma sharing_is_irrelevant_witness :
  inp Sample.shared_store Sample.shared_routes (JDict Sample.two_alike)
  /\ inp Sample.unshared_store Sample.unshared_routes (JDict Sample.two_alike)
  /\ match generate_openapi_spec Sample.base Sample.shared_routes
              Sample.shared_store,
            generate_openapi_spec Sample.base Sample.unshared_routes
              Sample.unshared_store with
     | (h1', Ok d1), (h2', Ok d2) =>
         exists doc,
           Pure.generate_openapi_spec Sample.base (JDict Sample.two_alike) = Ok doc
           /\ rep (fun _ => true) h1' d1 doc
           /\ rep (fun _ => true) h2' d2 doc
     | (_, Raise e1), (_, Raise e2) =>
         e1 = e2
         /\ Pure.generate_openapi_spec Sample.base (JDict Sample.two_alike)
            = Raise e1
     | _, _ => False
     end.
Proof.
  assert (H1 : inp Sample.shared_store Sample.shared_routes
                 (JDict Sample.two_alike)) by (exists 5; reflexivity).
  assert (H2 : inp Sample.unshared_store Sample.unshared_routes
                 (JDict Sample.two_alike)) by (exists 5; reflexivity).
  split; [exact H1|]. split; [exact H2|].
  exact (sharing_is_irrelevant _ _ _ _ _ Sample.base H1 H2).
Defined.

End Sharing.

(** ** The command-line program *)

Module AppFacts.
Import App.

Lemma rstrip_slash_slashes s :
  exists n, s = (rstrip_slash s ++ slashes n)%string.
Proof.
  induction s as [|c s [n IH]]; simpl.
  - exists 0. reflexivity.
  - destruct (rstrip_slash s) as [|a r] eqn:E.
    + simpl in IH. destruct (Ascii.eqb_spec c "/") as [->|Hc].
      * exists (S n). simpl. now rewrite <- IH.
      * exists n. simpl. now rewrite <- IH.
    + exists n. simpl. f_equal. exact IH.
Qed.

Lemma rstrip_slash_end s : forall t, rstrip_slash s <> (t ++ "/")%string.
Proof.
  induction s as [|c s IH]; simpl; intros t.
  - destruct t; discriminate.
  - destruct (rstrip_slash s) as [|a r] eqn:E.
    + destruct (Ascii.eqb_spec c "/") as [->|Hc].
      * destruct t; discriminate.
      * destruct t as [|c' t]; simpl; intros H; inversion H; subst.
        -- now apply Hc.
        -- destruct t; discriminate.
    + destruct t as [|c' t]; simpl; intros H; inversion H; subst.
      now apply (IH t).
Qed.

Lemma requests_of_app a b : requests_of (a ++ b) = requests_of a ++ requests_of b.
Proof. apply flat_map_app. Qed.

Lemma dumps_of_app a b : dumps_of (a ++ b) = dumps_of a ++ dumps_of b.
Proof. apply flat_map_app. Qed.

Lemma lines_of_app a b : lines_of (a ++ b) = lines_of a ++ lines_of b.
Proof. apply flat_map_app. Qed.

(** The run of [fetch_wp_api_routes], case by case. *)
Lemma fetch_cases w b :
  fetch_wp_api_routes w b =
    let url := (b ++ "/wp-json")%string in
    let start := [Printed (FetchingRoutes url); Requested url] in
    match site w url with
    | NoReply => (start, Raised RequestException)
    | Reply status_code body =>
        if (status_code =? 200)%Z then
          match body with
          | None => (start ++ [Printed ErrorParsingJson], Returned (JDict []))
          | Some data =>
              match py_contains "routes" data with
              | Raise e => (start, Raised (Core e))
              | Ok false => (start ++ [Printed NoRoutesKey], Returned (JDict []))
              | Ok true =>
                  match py_getitem "routes" data with
                  | Raise e => (start, Raised (Core e))
                  | Ok routes =>
                      match py_len routes with
                      | Raise e => (start, Raised (Core e))
                      | Ok n => (start ++ [Printed (FoundRoutes n)], Returned routes)
                      end
                  end
              end
          end
        else (start ++ [Printed (FailedToAccess url status_code)],
              Returned (JDict []))
    end.
Proof.
  unfold fetch_wp_api_routes, requests_get. cbv zeta.
  destruct (site w (b ++ "/wp-json")) as [|status_code body]; [reflexivity|].
  cbn [bind print fst snd app].
  destruct (status_code =? 200)%Z; [|reflexivity].
  cbn [negb].
  destruct body as [data|]; [|reflexivity].
  cbn [response_json bind ret try_except].
  destruct (py_contains "routes" data) as [[|]|e]; try reflexivity.
  cbn [lift bind ret try_except app].
  destruct (py_getitem "routes" data) as [routes|e]; [|reflexivity].
  cbn [lift bind ret try_except app].
  destruct (py_len routes) as [n|e]; reflexivity.
Qed.

(** X10: [fetch_wp_api_routes] sends one request, to [base_url/wp-json],
    and writes nothing.  When the site answers with status 200 and a JSON
    object whose [routes] has a length, it returns that value and prints
    its length.  When the site answers with another status, with a body
    that is not JSON, or with JSON in which ['routes' in data] is false, it
    returns the empty dictionary.  When [requests.get] raises, so does the
    call.  It returns nothing else, and the only other exception it raises
    is a [TypeError], for a body with status 200 that is JSON. *)
Theorem fetch_wp_api_routes_outcome w b :
  let url := (b ++ "/wp-json")%string in
  let run := fetch_wp_api_routes w b in
  requests_of (fst run) = [url]
  /\ dumps_of (fst run) = []
  /\ (forall data routes n,
        site w url = Reply 200 (Some (JDict data)) ->
        Dict.get "routes" data = Some routes ->
        py_len routes = Ok n ->
        snd run = Returned routes /\ In (Printed (FoundRoutes n)) (fst run))
  /\ (forall status_code body,
        site w url = Reply status_code body ->
        status_code <> 200%Z \/ body = None
        \/ (exists data, body = Some data
                         /\ py_contains "routes" data = Ok false) ->
        snd run = Returned (JDict []))
  /\ (site w url = NoReply -> snd run = Raised RequestException)
  /\ match snd run with
     | Returned routes =>
         routes = JDict []
         \/ exists data n,
              site w url = Reply 200 (Some (JDict data))
              /\ Dict.get "routes" data = Some routes
              /\ py_len routes = Ok n
              /\ In (Printed (FoundRoutes n)) (fst run)
     | Raised e =>
         (e = RequestException /\ site w url = NoReply)
         \/ (e = Core TypeError
             /\ exists data, site w url = Reply 200 (Some data))
     end.
Proof.
  cbv zeta.
  assert (Hbound :
    requests_of (fst (fetch_wp_api_routes w b)) = [(b ++ "/wp-json")%string]
    /\ dumps_of (fst (fetch_wp_api_routes w b)) = []
    /\ match snd (fetch_wp_api_routes w b) with
       | Returned routes =>
           routes = JDict []
           \/ exists data n,
                site w (b ++ "/wp-json") = Reply 200 (Some (JDict data))
                /\ Dict.get "routes" data = Some routes
                /\ py_len routes = Ok n
                /\ In (Printed (FoundRoutes n)) (fst (fetch_wp_api_routes w b))
       | Raised e =>
           (e = RequestException /\ site w (b ++ "/wp-json") = NoReply)
           \/ (e = Core TypeError
               /\ exists data, site w (b ++ "/wp-json") = Reply 200 (Some data))
       end).
  { cbv zeta. rewrite fetch_cases. cbv zeta.
    destruct (site w (b ++ "/wp-json")) as [|status_code body].
    { simpl. auto. }
    destruct (Z.eqb_spec status_code 200) as [->|Hs]; [|simpl; auto].
    destruct body as [data|]; [|simpl; auto].
    destruct data as [| | |s|l|d]; simpl;
      try (split; [reflexivity|]; split; [reflexivity|]; right; split;
           [reflexivity | eexists; reflexivity]).
    - (* a string *)
      destruct (index 0 "routes" s); simpl; [|auto].
      split; [reflexivity|]. split; [reflexivity|]. right.
      split; [reflexivity | eexists; reflexivity].
    - (* a list *)
      destruct (existsb _ l); simpl; [|auto].
      split; [reflexivity|]. split; [reflexivity|]. right.
      split; [reflexivity | eexists; reflexivity].
    - (* a dictionary *)
      unfold Dict.has. destruct (Dict.get "routes" d) as [routes|] eqn:E;
        simpl; [|auto].
      destruct routes as [| | |s|l|d']; simpl;
        try (split; [reflexivity|]; split; [reflexivity|]; right; split;
             [reflexivity | eexists; reflexivity]);
        (split; [reflexivity|]; split; [reflexivity|]; right;
         exists d; eexists; split; [reflexivity|]; split; [exact E|];
         split; [reflexivity|]; simpl; auto). }
  destruct Hbound as (Hr & Hd & Hb).
  split; [exact Hr|]. split; [exact Hd|].
  split; [|split; [|split; [|exact Hb]]].
  - intros data routes n Hsite Hget Hlen.
    rewrite fetch_cases. cbv zeta. rewrite Hsite. simpl.
    unfold Dict.has. rewrite Hget, Hlen. simpl. auto.
  - intros status_code body Hsite Hcause.
    rewrite fetch_cases. cbv zeta. rewrite Hsite.
    destruct (Z.eqb_spec status_code 200) as [->|Hs]; [|reflexivity].
    destruct Hcause as [Hs|[->|(data & -> & Hc)]].
    + now contradiction Hs.
    + reflexivity.
    + now rewrite Hc.
  - intros Hsite. rewrite fetch_cases. cbv zeta. now rewrite Hsite.
Qed.

Lemma fetch_wp_api_routes_outcome_witness :
  site answering "https://example.com/wp-json"
  = Reply 200 (Some (JDict [ ("name", JStr "Example");
                             ("routes", JDict Sample.posts) ]))
  /\ snd (fetch_wp_api_routes answering "https://example.com")
     = Returned (JDict Sample.posts)
  /\ In (Printed (FoundRoutes 1))
       (fst (fetch_wp_api_routes answering "https://example.com")).
Proof.
  split; [reflexivity|].
  exact (proj1 (proj2 (proj2 (fetch_wp_api_routes_outcome answering
                                 "https://example.com")))
           [("name", JStr "Example"); ("routes", JDict Sample.posts)]
           (JDict Sample.posts) 1 eq_refl eq_refl eq_refl).
Defined.

(** What [fetch_wp_api_routes] leaves in the list of events. *)
Lemma fetch_events w b :
  exists lines,
    fst (fetch_wp_api_routes w b)
    = Printed (FetchingRoutes (b ++ "/wp-json"))
        :: Requested (b ++ "/wp-json") :: map Printed lines
    /\ forall m, In m lines ->
         (exists status_code, m = FailedToAccess (b ++ "/wp-json") status_code)
         \/ (exists n, m = FoundRoutes n)
         \/ m = NoRoutesKey \/ m = ErrorParsingJson.
Proof.
  rewrite fetch_cases. cbv zeta.
  destruct (site w (b ++ "/wp-json")) as [|status_code body].
  { exists []. split; [reflexivity | intros m []]. }
  destruct (status_code =? 200)%Z.
  2:{ eexists [_]. split; [reflexivity|]. intros m [<-|[]]. eauto. }
  destruct body as [data|].
  2:{ eexists [_]. split; [reflexivity|]. intros m [<-|[]]. auto. }
  destruct (py_contains "routes" data) as [[|]|e].
  - destruct (py_getitem "routes" data) as [routes|e].
    + destruct (py_len routes) as [n|e].
      * eexists [_]. split; [reflexivity|]. intros m [<-|[]]. eauto.
      * exists []. split; [reflexivity | intros m []].
    + exists []. split; [reflexivity | intros m []].
  - eexists [_]. split; [reflexivity|]. intros m [<-|[]]. auto.
  - exists []. split; [reflexivity | intros m []].
Qed.

Lemma requests_of_printed lines : requests_of (map Printed lines) = [].
Proof. induction lines; simpl; auto. Qed.

Lemma dumps_of_printed lines : dumps_of (map Printed lines) = [].
Proof. induction lines; simpl; auto. Qed.

Lemma lines_of_printed lines : lines_of (map Printed lines) = lines.
Proof. induction lines; simpl; congruence. Qed.

(** The run of [main], case by case. *)
Lemma main_run w args :
  main w args =
    match fetch_wp_api_routes w (rstrip_slash (base_url args)) with
    | (events, Raised e) => events ++ [Printed (report_line e)]
    | (events, Returned routes) =>
        events
        ++ (if verbose args then
              match py_keys routes with
              | Ok keys => [Printed (FoundRouteKeys keys)]
              | Raise _ => []
              end
            else [])
        ++ match generate_openapi_spec (rstrip_slash (base_url args)) routes with
           | Raise e => [Printed (report_line (Core e))]
           | Ok doc =>
               (if Dict.truthy (paths_of doc) then []
                else [Printed NoPathsWarning])
               ++ match open_error w (output args) with
                  | Some e => [Printed (report_line e)]
                  | None =>
                      [ Dumped (output args) doc;
                        Printed (Saved (output args));
                        Printed (FoundPaths (length (paths_of doc))) ]
                  end
           end
    end.
Proof.
  unfold main.
  destruct (fetch_wp_api_routes w (rstrip_slash (base_url args)))
    as [events [routes|e]]; [|reflexivity].
  unfold dump_to.
  destruct routes as [| | |s|l|d];
    try (destruct (verbose args); cbn;
         rewrite <- ?List.app_assoc, ?List.app_nil_r; reflexivity).
  cbn.
  destruct (routes_loop d []) as [paths|e];
    [|destruct (verbose args); cbn;
      rewrite <- ?List.app_assoc, ?List.app_nil_r; reflexivity].
  destruct paths, (verbose args), (open_error w (output args)); cbn;
    rewrite <- ?List.app_assoc, ?List.app_nil_r; reflexivity.
Qed.

Lemma verbose_events (v : bool) routes :
  let events :=
    if v then
      match py_keys routes with
      | Ok keys => [Printed (FoundRouteKeys keys)]
      | Raise _ => []
      end
    else [] in
  requests_of events = [] /\ dumps_of events = []
  /\ forall m, In m (lines_of events) -> exists keys, m = FoundRouteKeys keys.
Proof.
  destruct v; [destruct (py_keys routes) as [keys|e]|]; simpl;
    (split; [reflexivity|]; split; [reflexivity|]); intros m H;
    try contradiction.
  destruct H as [<-|[]]. eauto.
Qed.

Lemma fetch_line_other b lines m :
  (forall m, In m lines ->
     (exists status_code, m = FailedToAccess (b ++ "/wp-json") status_code)
     \/ (exists n, m = FoundRoutes n)
     \/ m = NoRoutesKey \/ m = ErrorParsingJson) ->
  In m (FetchingRoutes (b ++ "/wp-json") :: lines) ->
  m <> NoPathsWarning /\ forall file, m <> Saved file.
Proof.
  intros Hl [<-|Hin]; [split; [|intros file]; discriminate|].
  destruct (Hl _ Hin) as [[? ->]|[[? ->]|[->| ->]]];
    (split; [|intros file]; discriminate).
Qed.

(** X11: [main] sends one request in a run, whatever comes of it: to the
    base URL of the command line without the slashes at its end, followed
    by [/wp-json]. *)
Theorem main_requests w args :
  exists b n,
    base_url args = (b ++ slashes n)%string
    /\ (forall t, b <> (t ++ "/")%string)
    /\ requests_of (main w args) = [(b ++ "/wp-json")%string].
Proof.
  destruct (rstrip_slash_slashes (base_url args)) as [n Hn].
  exists (rstrip_slash (base_url args)), n.
  split; [exact Hn|]. split; [apply rstrip_slash_end|].
  rewrite main_run.
  destruct (fetch_events w (rstrip_slash (base_url args))) as (lines & E & _).
  destruct (fetch_wp_api_routes w (rstrip_slash (base_url args)))
    as [events [routes|e]]; simpl in E; subst events.
  - destruct (verbose_events (verbose args) routes) as (Vr & _).
    rewrite !requests_of_app, Vr. simpl. rewrite requests_of_printed.
    destruct (generate_openapi_spec _ routes) as [doc|e]; [|reflexivity].
    rewrite requests_of_app.
    destruct (Dict.truthy (paths_of doc)), (open_error w (output args));
      reflexivity.
  - rewrite requests_of_app. simpl. now rewrite requests_of_printed.
Qed.

(** X12: what a run of [main] writes.  It writes one file at most, the one
    named by [--output], and it writes it when [fetch_wp_api_routes]
    returns, [generate_openapi_spec] returns for the stripped base URL and
    what was fetched, and the file can be opened.  What it writes is the
    document that [generate_openapi_spec] returned.  The [--verbose] flag
    has no part in it. *)
Theorem main_dumps w args :
  dumps_of (main w args) =
    match snd (fetch_wp_api_routes w (rstrip_slash (base_url args))) with
    | Returned routes =>
        match generate_openapi_spec (rstrip_slash (base_url args)) routes,
              open_error w (output args) with
        | Ok doc, None => [(output args, doc)]
        | _, _ => []
        end
    | Raised _ => []
    end.
Proof.
  rewrite main_run.
  destruct (fetch_events w (rstrip_slash (base_url args))) as (lines & E & _).
  destruct (fetch_wp_api_routes w (rstrip_slash (base_url args)))
    as [events [routes|e]]; simpl in E; subst events; cbn [snd].
  - destruct (verbose_events (verbose args) routes) as (_ & Vd & _).
    rewrite !dumps_of_app, Vd. simpl. rewrite dumps_of_printed.
    destruct (generate_openapi_spec _ routes) as [doc|e]; [|reflexivity].
    rewrite dumps_of_app.
    destruct (Dict.truthy (paths_of doc)), (open_error w (output args));
      reflexivity.
  - rewrite dumps_of_app. simpl. now rewrite dumps_of_printed.
Qed.

(** X13: a failed fetch does not stop the run.  When the site answers with
    a status other than 200, with a body that is not JSON, or with a JSON
    object without [routes], and the output file can be opened, [main]
    writes a document without paths to it, and its last three lines are
    the warning, the line that reports the file as saved, and a count of 0
    paths. *)
Theorem failed_fetch_still_writes w args status_code body :
  site w (rstrip_slash (base_url args) ++ "/wp-json")%string
    = Reply status_code body ->
  (status_code <> 200%Z \/ body = None
   \/ exists data, body = Some (JDict data) /\ Dict.get "routes" data = None) ->
  open_error w (output args) = None ->
  dumps_of (main w args)
    = [(output args, envelope (rstrip_slash (base_url args)) [])]
  /\ exists before,
       lines_of (main w args)
       = before ++ [NoPathsWarning; Saved (output args); FoundPaths 0].
Proof.
  intros Hsite Hcause Hopen.
  assert (Hf : exists lines,
             fetch_wp_api_routes w (rstrip_slash (base_url args))
             = (Printed (FetchingRoutes (rstrip_slash (base_url args) ++ "/wp-json"))
                  :: Requested (rstrip_slash (base_url args) ++ "/wp-json")
                  :: map Printed lines,
                Returned (JDict []))).
  { rewrite fetch_cases. cbv zeta. rewrite Hsite.
    destruct (Z.eqb_spec status_code 200) as [->|Hs];
      [|eexists [_]; reflexivity].
    destruct Hcause as [Hs|[->|(data & -> & Hr)]].
    - now contradiction Hs.
    - eexists [_]. reflexivity.
    - simpl. unfold Dict.has. rewrite Hr. eexists [_]. reflexivity. }
  destruct Hf as (lines & Hf).
  rewrite main_run, Hf, Hopen.
  destruct (verbose_events (verbose args) (JDict [])) as (_ & Vd & _).
  cbv zeta in Vd. cbn [generate_openapi_spec routes_loop Pure.bind paths_of
                       envelope Dict.get String.eqb Ascii.eqb Bool.eqb
                       Dict.truthy length].
  split.
  - rewrite !dumps_of_app, Vd. simpl. now rewrite dumps_of_printed.
  - rewrite !lines_of_app. cbn [lines_of flat_map app].
    rewrite !List.app_assoc. eexists (_ :: _). reflexivity.
Qed.

Lemma failed_fetch_still_writes_witness :
  dumps_of (main missing sample_args)
    = [(output sample_args, envelope "https://example.com" [])]
  /\ exists before,
       lines_of (main missing sample_args)
       = before ++ [NoPathsWarning; Saved (output sample_args); FoundPaths 0].
Proof.
  refine (failed_fetch_still_writes missing sample_args 404
            (Some (JDict [("code", JStr "rest_no_route")])) _ _ _).
  - reflexivity.
  - left. discriminate.
  - reflexivity.
Defined.

(** X14: how a run of [main] ends.  Either the output file is written:
    then the last two lines report the file as saved and give the number
    of entries of [paths] in the written document, and the warning about
    an empty specification is among the lines before exactly when there
    are none.  Or nothing is written: then the last line is that of the
    handler for the exception raised, and no line reports a file as
    saved. *)
Theorem main_report w args :
  (exists doc before,
      dumps_of (main w args) = [(output args, doc)]
      /\ lines_of (main w args)
         = before ++ [Saved (output args); FoundPaths (length (paths_of doc))]
      /\ (In NoPathsWarning before <-> paths_of doc = []))
  \/ (exists e before,
      dumps_of (main w args) = []
      /\ lines_of (main w args) = before ++ [report_line e]
      /\ forall file, ~ In (Saved file) (lines_of (main w args))).
Proof.
  rewrite main_run.
  destruct (fetch_events w (rstrip_slash (base_url args))) as (lines & E & Hl).
  pose proof (fun m => fetch_line_other _ lines m Hl) as Hother.
  destruct (fetch_wp_api_routes w (rstrip_slash (base_url args)))
    as [events [routes|e]]; simpl in E; subst events.
  2:{ right. exists e, (FetchingRoutes (rstrip_slash (base_url args) ++ "/wp-json")
                         :: lines).
      rewrite dumps_of_app, lines_of_app. simpl.
      rewrite dumps_of_printed, lines_of_printed.
      split; [reflexivity|]. split; [reflexivity|].
      intros file [E|Hin]; [discriminate E|].
      apply in_app_or in Hin as [Hin|[E|[]]].
      - now apply (proj2 (Hother _ (or_intror Hin)) file).
      - destruct e as [| | |c]; discriminate E. }
  destruct (verbose_events (verbose args) routes) as (_ & Vd & Vl).
  cbv zeta in Vd, Vl.
  set (V := if verbose args then _ else _) in *. clearbody V.
  destruct (generate_openapi_spec _ routes) as [doc|e].
  2:{ right. exists (Core e).
      exists ((FetchingRoutes (rstrip_slash (base_url args) ++ "/wp-json")
                 :: lines) ++ lines_of V).
      rewrite !dumps_of_app, !lines_of_app, Vd. simpl.
      rewrite dumps_of_printed, lines_of_printed.
      split; [reflexivity|]. split; [now rewrite <- List.app_assoc|].
      intros file [E|Hin]; [discriminate E|].
      apply in_app_or in Hin as [Hin|Hin].
      - now apply (proj2 (Hother _ (or_intror Hin)) file).
      - apply in_app_or in Hin as [Hin|[E|[]]]; [|discriminate E].
        destruct (Vl _ Hin) as [keys E]. discriminate E. }
  destruct (open_error w (output args)) as [e|].
  - right. exists e.
    exists ((FetchingRoutes (rstrip_slash (base_url args) ++ "/wp-json")
               :: lines) ++ lines_of V
            ++ lines_of (if Dict.truthy (paths_of doc) then []
                         else [Printed NoPathsWarning])).
    rewrite !dumps_of_app, !lines_of_app, Vd. simpl.
    rewrite dumps_of_printed, lines_of_printed.
    split; [now destruct (Dict.truthy (paths_of doc))|].
    split; [now rewrite <- !List.app_assoc|].
    intros file [E|Hin]; [discriminate E|].
    apply in_app_or in Hin as [Hin|Hin].
    + now apply (proj2 (Hother _ (or_intror Hin)) file).
    + apply in_app_or in Hin as [Hin|Hin].
      * destruct (Vl _ Hin) as [keys E]. discriminate E.
      * apply in_app_or in Hin as [Hin|[E|[]]].
        -- destruct (Dict.truthy (paths_of doc)); [destruct Hin|].
           destruct Hin as [E|[]]. discriminate E.
        -- destruct e as [| | |c]; discriminate E.
  - left. exists doc.
    exists ((FetchingRoutes (rstrip_slash (base_url args) ++ "/wp-json")
               :: lines) ++ lines_of V
            ++ lines_of (if Dict.truthy (paths_of doc) then []
                         else [Printed NoPathsWarning])).
    rewrite !dumps_of_app, !lines_of_app, Vd. simpl.
    rewrite dumps_of_printed, lines_of_printed.
    split; [now destruct (Dict.truthy (paths_of doc))|].
    split; [now rewrite <- !List.app_assoc|].
    split.
    + intros [E|Hin]; [discriminate E|].
      apply in_app_or in Hin as [Hin|Hin].
      * now destruct (proj1 (Hother _ (or_intror Hin))).
      * apply in_app_or in Hin as [Hin|Hin].
        -- destruct (Vl _ Hin) as [keys E]. discriminate E.
        -- destruct (paths_of doc); [reflexivity | destruct Hin].
    + intros ->. right. apply in_or_app. right. apply in_or_app. right.
      simpl. auto.
Qed.

End AppFacts.
